(** * Regex -> NFA -> DFA: a shallow embedding of [lexican.py] / [re_nfa.py]

    The two Python modules share one postfix converter and one Thompson
    builder (the copies are textually identical); [lexican.py] adds the
    closure primitives and the subset construction.

    Modelling conventions.
    - A Python [str] is a [list ascii]; a character is a code point below
      256 (Latin-1), and [isalnum] is [str.isalnum] on that range.
    - [State] objects live in a heap [gmap nat State] addressed by the
      identifier the class counter handed out; a reference to a [State]
      is its identifier.  [State._id_counter] is threaded explicitly.
    - A Python [set]/[frozenset] of [State] references is a [gset nat].
    - A Python list used as a stack is a Rocq list whose head is the top.
    - [dfa_states] (an insertion-ordered [dict]) is the list of its values
      in insertion order; the key of an entry is its [nfa_states] field.
    - A reference to a [DFAState] is its identifier; [transitions] maps a
      symbol to the identifier of the target, as [__repr__] prints it.
    - The iteration order of a Python set is not fixed: the alphabet is
      passed to [nfa_to_dfa] as a list, any permutation of the set.
    - The two [while] loops take fuel and return [None] when it runs out;
      the theorems show that enough fuel always gives the result.
    - The only exception the regex, NFA and DFA code can raise is
      [IndexError] (pop from an empty list).
    - The generator [lex] is the list of the tokens it yields together
      with the way it ends, by exhaustion or by its [RuntimeError]. *)

From Stdlib Require Import Ascii String.
From stdpp Require Import gmap strings list fin_maps fin_sets.

Set Warnings "-clear-no-such-hyp".
Local Open Scope char_scope.

(** ** Exceptions and the store monad *)

Inductive exn : Set := IndexError.

Inductive result (A : Type) : Type :=
| Ok (a : A)
| Raise (e : exn).
Arguments Ok {A} a.
Arguments Raise {A} e.

(** [class State]: identifier, labelled edges, epsilon successors. *)
Record State : Type := mkState {
  id : nat;
  edges : gmap ascii (list nat);
  epsilon : list nat
}.

(** [class NFA]: references to the start and accept nodes. *)
Record NFA : Type := mkNFA { start : nat; accept : nat }.

(** The mutable world of a run: the objects and [State._id_counter]. *)
Record store : Type := mkStore {
  heap : gmap nat State;
  id_counter : nat
}.

Definition M (A : Type) : Type := store → result (A * store).

Definition raise {A} (e : exn) : M A := λ _, Raise e.

#[global] Instance M_ret : MRet M := λ A a σ, Ok (a, σ).
#[global] Instance M_bind : MBind M := λ A B k m σ,
  match m σ with
  | Ok (a, σ') => k a σ'
  | Raise e => Raise e
  end.

(** ** Character classes *)

(** [str.isalnum] for code points below 256. *)
Definition isalnum (c : ascii) : bool :=
  let n := N_of_ascii c in
  ((48 <=? n) && (n <=? 57)
   || (65 <=? n) && (n <=? 90)
   || (97 <=? n) && (n <=? 122)
   || (n =? 170) || (n =? 178) || (n =? 179) || (n =? 181)
   || (n =? 185) || (n =? 186)
   || (188 <=? n) && (n <=? 190)
   || (192 <=? n) && (n <=? 214)
   || (216 <=? n) && (n <=? 246)
   || (248 <=? n) && (n <=? 255))%N.

(** [precedence = {'*': 3, '.': 2, '|': 1}] with [precedence.get(x, 0)]. *)
Definition precedence_get (c : ascii) : nat :=
  if (c =? "*") then 3
  else if (c =? ".") then 2
  else if (c =? "|") then 1
  else 0.

(** [c in precedence] *)
Definition in_precedence (c : ascii) : bool :=
  (c =? "*") || (c =? ".") || (c =? "|").

(** ** Postfix converter ([to_postfix]) *)

(** [while stack and precedence.get(stack[-1], 0) >= p:
       output.append(stack.pop())] *)
Fixpoint drain (p : nat) (output stack : list ascii)
  : list ascii * list ascii :=
  match stack with
  | [] => (output, [])
  | top :: rest =>
      if (p <=? precedence_get top)%nat
      then drain p (output ++ [top]) rest
      else (output, stack)
  end.

(** [while stack and stack[-1] != '(': output.append(stack.pop())] *)
Fixpoint drain_to_open (output stack : list ascii)
  : list ascii * list ascii :=
  match stack with
  | [] => (output, [])
  | top :: rest =>
      if top =? "("
      then (output, stack)
      else drain_to_open (output ++ [top]) rest
  end.

(** [prev and (prev.isalnum() or prev == ')' or prev == '*')] *)
Definition needs_concat (prev : option ascii) : bool :=
  match prev with
  | None => false
  | Some p => isalnum p || (p =? ")") || (p =? "*")
  end.

(** The implicit-concatenation block shared by the literal and the
    opening-group branches. *)
Definition insert_concat (prev : option ascii) (output stack : list ascii)
  : list ascii * list ascii :=
  if needs_concat prev
  then let '(o, s) := drain 2 output stack in (o, "." :: s)
  else (output, stack).

Record pstate : Type := mkP {
  p_output : list ascii;
  p_stack : list ascii;
  p_prev : option ascii
}.

(** One iteration of [for c in regex]. *)
Definition to_postfix_step (st : pstate) (c : ascii) : result pstate :=
  let '(mkP output stack prev) := st in
  if isalnum c then
    let '(o, s) := insert_concat prev output stack in
    Ok (mkP (o ++ [c]) s (Some c))
  else if c =? "(" then
    let '(o, s) := insert_concat prev output stack in
    Ok (mkP o (c :: s) (Some c))
  else if c =? ")" then
    let '(o, s) := drain_to_open output stack in
    match s with
    | [] => Raise IndexError
    | _ :: s' => Ok (mkP o s' (Some c))
    end
  else if in_precedence c then
    let '(o, s) := drain (precedence_get c) output stack in
    Ok (mkP o (c :: s) (Some c))
  else Ok (mkP output stack (Some c)).

Fixpoint to_postfix_loop (st : pstate) (regex : list ascii) : result pstate :=
  match regex with
  | [] => Ok st
  | c :: rest =>
      match to_postfix_step st c with
      | Ok st' => to_postfix_loop st' rest
      | Raise e => Raise e
      end
  end.

(** [while stack: output.append(stack.pop())] *)
Definition flush (output stack : list ascii) : list ascii := output ++ stack.

Definition to_postfix (regex : list ascii) : result (list ascii) :=
  match to_postfix_loop (mkP [] [] None) regex with
  | Ok st => Ok (flush (p_output st) (p_stack st))
  | Raise e => Raise e
  end.

(** ** Thompson builder ([build_nfa]) *)

(** The heap after [State()] has created the object [i]. *)
Definition heap_new (i : nat) (h : gmap nat State) : gmap nat State :=
  <[i := mkState i ∅ []]> h.

(** The heap after [s.edges[c] = targets]. *)
Definition heap_set_edge (s : nat) (c : ascii) (targets : list nat)
    (h : gmap nat State) : gmap nat State :=
  alter (λ st, mkState (id st) (<[c := targets]> (edges st)) (epsilon st)) s h.

(** The heap after [s.epsilon.extend(targets)]. *)
Definition heap_extend_epsilon (s : nat) (targets : list nat)
    (h : gmap nat State) : gmap nat State :=
  alter (λ st, mkState (id st) (edges st) (epsilon st ++ targets)) s h.

(** [State()] *)
Definition new_state : M nat := λ σ,
  let i := id_counter σ in
  Ok (i, mkStore (heap_new i (heap σ)) (S i)).

(** [s.edges[c] = targets] *)
Definition set_edge (s : nat) (c : ascii) (targets : list nat) : M unit := λ σ,
  Ok (tt, mkStore (heap_set_edge s c targets (heap σ)) (id_counter σ)).

(** [s.epsilon.extend(targets)] (and [append] for one target) *)
Definition extend_epsilon (s : nat) (targets : list nat) : M unit := λ σ,
  Ok (tt, mkStore (heap_extend_epsilon s targets (heap σ)) (id_counter σ)).

(** One iteration of [for c in postfix]. *)
Definition build_step (stack : list NFA) (c : ascii) : M (list NFA) :=
  if isalnum c then
    s1 ← new_state; s2 ← new_state;
    set_edge s1 c [s2];;
    mret (mkNFA s1 s2 :: stack)
  else if c =? "." then
    match stack with
    | nfa2 :: nfa1 :: rest =>
        extend_epsilon (accept nfa1) [start nfa2];;
        mret (mkNFA (start nfa1) (accept nfa2) :: rest)
    | _ => raise IndexError
    end
  else if c =? "|" then
    match stack with
    | nfa2 :: nfa1 :: rest =>
        s ← new_state; a ← new_state;
        extend_epsilon s [start nfa1; start nfa2];;
        extend_epsilon (accept nfa1) [a];;
        extend_epsilon (accept nfa2) [a];;
        mret (mkNFA s a :: rest)
    | _ => raise IndexError
    end
  else if c =? "*" then
    match stack with
    | nfa1 :: rest =>
        s ← new_state; a ← new_state;
        extend_epsilon s [start nfa1; a];;
        extend_epsilon (accept nfa1) [start nfa1; a];;
        mret (mkNFA s a :: rest)
    | [] => raise IndexError
    end
  else mret stack.

Fixpoint build_loop (stack : list NFA) (postfix : list ascii) : M (list NFA) :=
  match postfix with
  | [] => mret stack
  | c :: rest => stack' ← build_step stack c; build_loop stack' rest
  end.

(** [return stack.pop()] after the loop. *)
Definition build_nfa (postfix : list ascii) : M NFA :=
  stack ← build_loop [] postfix;
  match stack with
  | nfa :: _ => mret nfa
  | [] => raise IndexError
  end.

Definition regex_to_nfa (regex : list ascii) : M NFA :=
  match to_postfix regex with
  | Ok postfix => build_nfa postfix
  | Raise e => raise e
  end.

(** [extract_alphabet]: the set of alphanumeric characters of the regex. *)
Definition extract_alphabet (regex : list ascii) : gset ascii :=
  list_to_set (filter (λ c, isalnum c = true) regex).

(** ** Closure primitives *)

(** [state.epsilon] for the object behind a reference. *)
Definition epsilon_of (h : gmap nat State) (q : nat) : list nat :=
  match h !! q with
  | Some st => epsilon st
  | None => []
  end.

(** [state.edges[symbol]] when [symbol in state.edges], else nothing. *)
Definition edges_of (h : gmap nat State) (q : nat) (symbol : ascii) : list nat :=
  match h !! q with
  | Some st => default [] (edges st !! symbol)
  | None => []
  end.

(** [for eps in state.epsilon:
       if eps not in closure: closure.add(eps); stack.append(eps)] *)
Fixpoint visit_epsilon (targets stack : list nat) (closure : gset nat)
  : list nat * gset nat :=
  match targets with
  | [] => (stack, closure)
  | eps :: rest =>
      if decide (eps ∈ closure)
      then visit_epsilon rest stack closure
      else visit_epsilon rest (eps :: stack) ({[eps]} ∪ closure)
  end.

(** [while stack: state = stack.pop(); ...]; [None] when the fuel runs out. *)
Fixpoint epsilon_closure_loop (fuel : nat) (h : gmap nat State)
    (stack : list nat) (closure : gset nat) : option (gset nat) :=
  match stack with
  | [] => Some closure
  | state :: stack' =>
      match fuel with
      | 0 => None
      | S fuel' =>
          let '(stack'', closure') :=
            visit_epsilon (epsilon_of h state) stack' closure in
          epsilon_closure_loop fuel' h stack'' closure'
      end
  end.

(** [epsilon_closure(states)]; [list(states)] is taken in the order of
    [elements], the result being a set that does not depend on it. *)
Definition epsilon_closure (fuel : nat) (h : gmap nat State)
    (states : gset nat) : option (gset nat) :=
  epsilon_closure_loop fuel h (elements states) states.

(** [move(states, symbol)] *)
Definition move (h : gmap nat State) (states : gset nat) (symbol : ascii)
  : gset nat :=
  foldr (λ q result, list_to_set (edges_of h q symbol) ∪ result)
        ∅ (elements states).

(** ** Subset construction *)

(** [class DFAState] *)
Record DFAState : Type := mkDFAState {
  dfa_id : nat;
  nfa_states : gset nat;
  transitions : gmap ascii nat;
  is_accept : bool
}.

(** The mutable world of [nfa_to_dfa]: the dict values in insertion
    order, the worklist of references (identifiers, top first) and
    [DFAState._id_counter]. *)
Record dworld : Type := mkD {
  dfa_states : list DFAState;
  unmarked : list nat;
  dfa_counter : nat
}.

(** [dfa_states[key]] / [key in dfa_states] *)
Definition lookup_key (key : gset nat) (ds : list DFAState) : option DFAState :=
  List.find (λ d, bool_decide (nfa_states d = key)) ds.

(** dereference a [DFAState] by identifier *)
Definition lookup_id (i : nat) (ds : list DFAState) : option DFAState :=
  List.find (λ d, dfa_id d =? i)%nat ds.

(** [dfa_state.transitions[symbol] = target] on the object [i] *)
Definition with_transition (i : nat) (symbol : ascii) (target : nat)
    (d : DFAState) : DFAState :=
  if (dfa_id d =? i)%nat
  then mkDFAState (dfa_id d) (nfa_states d)
                  (<[symbol := target]> (transitions d)) (is_accept d)
  else d.

Definition set_transition (i : nat) (symbol : ascii) (target : nat)
    (ds : list DFAState) : list DFAState :=
  map (with_transition i symbol target) ds.

(** The body of [for symbol in alphabet] for the state [cur] whose
    subset is [subset]. *)
Definition dfa_symbol_step (fuel : nat) (h : gmap nat State) (nfa : NFA)
    (cur : nat) (subset : gset nat) (w : dworld) (symbol : ascii)
  : option dworld :=
  next_states ← epsilon_closure fuel h (move h subset symbol);
  if decide (next_states = ∅) then Some w
  else
    let w' :=
      match lookup_key next_states (dfa_states w) with
      | Some _ => w
      | None =>
          let new_state :=
            mkDFAState (dfa_counter w) next_states ∅
                       (bool_decide (accept nfa ∈ next_states)) in
          mkD (dfa_states w ++ [new_state])
              (dfa_id new_state :: unmarked w)
              (S (dfa_counter w))
      end in
    target ← lookup_key next_states (dfa_states w');
    Some (mkD (set_transition cur symbol (dfa_id target) (dfa_states w'))
              (unmarked w') (dfa_counter w')).

Fixpoint dfa_symbols (fuel : nat) (h : gmap nat State) (nfa : NFA)
    (cur : nat) (subset : gset nat) (w : dworld) (alphabet : list ascii)
  : option dworld :=
  match alphabet with
  | [] => Some w
  | symbol :: rest =>
      w' ← dfa_symbol_step fuel h nfa cur subset w symbol;
      dfa_symbols fuel h nfa cur subset w' rest
  end.

(** [while unmarked: dfa_state = unmarked.pop(); for symbol in alphabet: ...] *)
Fixpoint nfa_to_dfa_loop (fuel fuel_eps : nat) (h : gmap nat State) (nfa : NFA)
    (alphabet : list ascii) (w : dworld) : option dworld :=
  match unmarked w with
  | [] => Some w
  | cur :: rest =>
      match fuel with
      | 0 => None
      | S fuel' =>
          dfa_state ← lookup_id cur (dfa_states w);
          w' ← dfa_symbols fuel_eps h nfa cur (nfa_states dfa_state)
                 (mkD (dfa_states w) rest (dfa_counter w)) alphabet;
          nfa_to_dfa_loop fuel' fuel_eps h nfa alphabet w'
      end
  end.

(** [nfa_to_dfa(nfa, alphabet)]: the list of DFA states and the new value
    of [DFAState._id_counter]; [alphabet] is given in iteration order. *)
Definition nfa_to_dfa (fuel : nat) (h : gmap nat State) (nfa : NFA)
    (alphabet : list ascii) (counter : nat) : option (list DFAState * nat) :=
  start_closure ← epsilon_closure fuel h {[start nfa]};
  let start_state :=
    mkDFAState counter start_closure ∅
               (bool_decide (accept nfa ∈ start_closure)) in
  w ← nfa_to_dfa_loop fuel fuel h nfa alphabet
        (mkD [start_state] [dfa_id start_state] (S counter));
  Some (dfa_states w, dfa_counter w).

(** ** The recognition driver of the interface description *)

(** Follow one transition per symbol from the state [cur]; reject when a
    symbol has no transition; accept iff the last state is accepting. *)
Fixpoint dfa_run (ds : list DFAState) (cur : nat) (s : list ascii) : bool :=
  match lookup_id cur ds with
  | None => false
  | Some d =>
      match s with
      | [] => is_accept d
      | c :: s' =>
          match transitions d !! c with
          | Some next => dfa_run ds next s'
          | None => false
          end
      end
  end.

(** The driver starts at the first state of the returned list. *)
Definition dfa_accepts (ds : list DFAState) (s : list ascii) : bool :=
  match ds with
  | [] => false
  | d :: _ => dfa_run ds (dfa_id d) s
  end.

(** The store of a fresh interpreter. *)
Definition empty_store : store := mkStore ∅ 0.

(** A Python string literal as the list of its characters. *)
Definition chars (s : string) : list ascii := list_ascii_of_string s.

(** ** Specification vocabulary *)

(** *** Abstract syntax and matching *)

Inductive regex : Type :=
| Lit (c : ascii)
| Cat (r1 r2 : regex)
| Alt (r1 r2 : regex)
| Star (r : regex).

(** [s] matches [r] under concatenation / alternation / star semantics. *)
Inductive matches : regex → list ascii → Prop :=
| matches_lit c : matches (Lit c) [c]
| matches_cat r1 r2 s1 s2 :
    matches r1 s1 → matches r2 s2 → matches (Cat r1 r2) (s1 ++ s2)
| matches_alt_l r1 r2 s : matches r1 s → matches (Alt r1 r2) s
| matches_alt_r r1 r2 s : matches r2 s → matches (Alt r1 r2) s
| matches_star_nil r : matches (Star r) []
| matches_star_app r s1 s2 :
    matches r s1 → matches (Star r) s2 → matches (Star r) (s1 ++ s2).

(** The postfix rendering of an abstract regex. *)
Fixpoint postfix_of (r : regex) : list ascii :=
  match r with
  | Lit c => [c]
  | Cat r1 r2 => postfix_of r1 ++ postfix_of r2 ++ ["."]
  | Alt r1 r2 => postfix_of r1 ++ postfix_of r2 ++ ["|"]
  | Star r => postfix_of r ++ ["*"]
  end.

(** *** The supported concrete grammar

    atom ::= literal | '(' alt ')'      star ::= atom | star '*'
    cat  ::= star | cat star            alt  ::= cat | alt '|' cat *)
Inductive level : Set := LAtom | LStar | LCat | LAlt.

Inductive syntax : level → list ascii → regex → Prop :=
| syn_lit c : isalnum c = true → syntax LAtom [c] (Lit c)
| syn_group R r : syntax LAlt R r → syntax LAtom ("(" :: R ++ [")"]) r
| syn_atom R r : syntax LAtom R r → syntax LStar R r
| syn_star R r : syntax LStar R r → syntax LStar (R ++ ["*"]) (Star r)
| syn_factor R r : syntax LStar R r → syntax LCat R r
| syn_cat R1 R2 r1 r2 :
    syntax LCat R1 r1 → syntax LStar R2 r2 → syntax LCat (R1 ++ R2) (Cat r1 r2)
| syn_term R r : syntax LCat R r → syntax LAlt R r
| syn_alt R1 R2 r1 r2 :
    syntax LAlt R1 r1 → syntax LCat R2 r2 →
    syntax LAlt (R1 ++ "|" :: R2) (Alt r1 r2).

(** [R] is a regex of the supported grammar denoting [r]. *)
Definition parses (R : list ascii) (r : regex) : Prop := syntax LAlt R r.

(** *** NFA semantics over the heap *)

(** [nfa_path h q s q']: the automaton can go from [q] to [q'] reading [s]. *)
Inductive nfa_path (h : gmap nat State) : nat → list ascii → nat → Prop :=
| path_refl q : nfa_path h q [] q
| path_eps q q' s q'' :
    q' ∈ epsilon_of h q → nfa_path h q' s q'' → nfa_path h q s q''
| path_sym q c q' s q'' :
    q' ∈ edges_of h q c → nfa_path h q' s q'' → nfa_path h q (c :: s) q''.

Definition nfa_accepts (h : gmap nat State) (nfa : NFA) (s : list ascii) : Prop :=
  nfa_path h (start nfa) s (accept nfa).

(** Reachability by epsilon edges only, and by any edge. *)
Definition eps_reach (h : gmap nat State) (p q : nat) : Prop := nfa_path h p [] q.
Definition reachable (h : gmap nat State) (p q : nat) : Prop :=
  ∃ s, nfa_path h p s q.

(** [C] is the set of nodes reachable from [S] by epsilon edges. *)
Definition is_closure (h : gmap nat State) (S C : gset nat) : Prop :=
  ∀ q, q ∈ C ↔ ∃ p, p ∈ S ∧ eps_reach h p q.

(** [X] is closed under every edge of the heap. *)
Definition edge_closed (h : gmap nat State) (X : gset nat) : Prop :=
  ∀ q, q ∈ X →
    (∀ q', q' ∈ epsilon_of h q → q' ∈ X) ∧
    (∀ c q', q' ∈ edges_of h q c → q' ∈ X).

(** [X] is closed under the epsilon edges of the heap. *)
Definition eps_closed (h : gmap nat State) (X : gset nat) : Prop :=
  ∀ q q', q ∈ X → q' ∈ epsilon_of h q → q' ∈ X.

(** Identifiers already handed out are below the counter, so that
    [State()] always yields a fresh object. *)
Definition store_wf (σ : store) : Prop :=
  ∀ q, q ∈ dom (heap σ) → q < id_counter σ.

(** [l] is a possible iteration order of the Python set [X]. *)
Definition set_order (X : gset ascii) (l : list ascii) : Prop :=
  l ≡ₚ elements X.

(** Every node some epsilon edge of the heap points to. *)
Definition eps_targets (h : gmap nat State) : gset nat :=
  ⋃ ((λ kv, list_to_set (epsilon kv.2)) <$> map_to_list h).

(** The subsets the construction has to visit: the closure of the start
    node, and every non-empty closure of a move from a visited subset. *)
Inductive dfa_reachable (h : gmap nat State) (nfa : NFA)
    (alphabet : list ascii) : gset nat → Prop :=
| reach_start C :
    (∀ q, q ∈ C ↔ eps_reach h (start nfa) q) → dfa_reachable h nfa alphabet C
| reach_step T c C :
    dfa_reachable h nfa alphabet T → c ∈ alphabet →
    (∀ q, q ∈ C ↔ ∃ p, p ∈ move h T c ∧ eps_reach h p q) → C ≠ ∅ →
    dfa_reachable h nfa alphabet C.

(** The heap with every edge turned into an epsilon edge: its epsilon
    reachability is the reachability of the original. *)
Definition all_successors (st : State) : list nat :=
  epsilon st ++ mjoin (snd <$> map_to_list (edges st)).

Definition flatten (h : gmap nat State) : gmap nat State :=
  (λ st, mkState (id st) ∅ (all_successors st)) <$> h.

(** Every literal of the regex is an alphanumeric character. *)
Fixpoint alnum_lits (r : regex) : Prop :=
  match r with
  | Lit c => isalnum c = true
  | Cat r1 r2 | Alt r1 r2 => alnum_lits r1 ∧ alnum_lits r2
  | Star r => alnum_lits r
  end.

(** The fragment [f] occupies the identifiers [lo .. hi - 1] of the heap:
    its nodes are allocated, no edge leaves the range, the accept node
    has no outgoing edge, and the paths from start to accept spell the
    strings matching [r]. *)
Record frag_ok (h : gmap nat State) (f : NFA) (r : regex) (lo hi : nat)
  : Prop := {
  fo_start : lo ≤ start f < hi;
  fo_accept : lo ≤ accept f < hi;
  fo_alloc : ∀ q, lo ≤ q < hi → is_Some (h !! q);
  fo_closed : ∀ q, lo ≤ q < hi →
    (∀ q', q' ∈ epsilon_of h q → lo ≤ q' < hi)
    ∧ (∀ c q', q' ∈ edges_of h q c → lo ≤ q' < hi);
  fo_final : epsilon_of h (accept f) = [] ∧ ∀ c, edges_of h (accept f) c = [];
  fo_lang : ∀ s, nfa_path h (start f) s (accept f) ↔ matches r s
}.

(** The lowest precedence an operator pending on the stack can have
    while a phrase of the given level is being read. *)
Definition level_prec (l : level) : nat :=
  match l with LAtom => 4 | LStar => 3 | LCat => 2 | LAlt => 1 end.

(** The top of the operator stack, if any, has a precedence below [k]. *)
Definition top_below (k : nat) (stack : list ascii) : Prop :=
  match stack with
  | [] => True
  | t :: _ => precedence_get t < k
  end.

(** The run from [σ] to [σ'] has built the fragment [f] for [r] out of
    fresh identifiers and left the older objects alone. *)
Record builds (σ σ' : store) (f : NFA) (r : regex) : Prop := {
  b_counter : id_counter σ ≤ id_counter σ';
  b_wf : store_wf σ';
  b_old : ∀ q, q < id_counter σ → heap σ' !! q = heap σ !! q;
  b_frag : frag_ok (heap σ') f r (id_counter σ) (id_counter σ')
}.

(** *** Runs that differ by the state of the identifier counter *)

(** The fragment [f] with its references moved up by [k]. *)
Definition shift (k : nat) (f : NFA) : NFA :=
  mkNFA (k + start f) (k + accept f).

(** The store [σ] holds, [k] identifiers higher, what the store [σc] of
    a run from the fresh interpreter holds. *)
Record shifted (k : nat) (σc σ : store) : Prop := {
  sh_counter : id_counter σ = k + id_counter σc;
  sh_wf : store_wf σ;
  sh_alloc_c : ∀ q, is_Some (heap σc !! q) ↔ q < id_counter σc;
  sh_alloc : ∀ q, q < id_counter σc → is_Some (heap σ !! (k + q));
  sh_eps : ∀ q, q < id_counter σc →
    epsilon_of (heap σ) (k + q) = Nat.add k <$> epsilon_of (heap σc) q;
  sh_sym : ∀ q c, q < id_counter σc →
    edges_of (heap σ) (k + q) c = Nat.add k <$> edges_of (heap σc) q c;
  sh_closed : ∀ q, q < id_counter σc →
    (∀ q', q' ∈ epsilon_of (heap σc) q → q' < id_counter σc)
    ∧ (∀ c q', q' ∈ edges_of (heap σc) q c → q' < id_counter σc)
}.

(** The references of the fragment are below [n]. *)
Definition below (n : nat) (f : NFA) : Prop := start f < n ∧ accept f < n.

(** *** The worked example *)

Definition example_regex : list ascii := chars "(a|b)*abb".

(** The store a fresh interpreter is left with after one construction. *)
Definition store_after (R : list ascii) : store :=
  match regex_to_nfa R empty_store with
  | Ok (_, σ) => σ
  | Raise _ => empty_store
  end.

(** *** Error behaviour of the converter and the builder *)

(** Some closing parenthesis is met with no opening one on the stack
    ([depth] opening parentheses being on it at the start). *)
Fixpoint unmatched_close (depth : nat) (R : list ascii) : bool :=
  match R with
  | [] => false
  | c :: R' =>
      if c =? ")" then
        match depth with
        | 0 => true
        | S d => unmatched_close d R'
        end
      else if c =? "(" then unmatched_close (S depth) R'
      else unmatched_close depth R'
  end.

(** The number of opening parentheses on the operator stack. *)
Fixpoint opens (stack : list ascii) : nat :=
  match stack with
  | [] => 0
  | c :: rest => if c =? "(" then S (opens rest) else opens rest
  end.

(** A character the grammar does not know and the converter's
    precedence table does not list either. *)
Definition unsupported (c : ascii) : bool :=
  negb (isalnum c || (c =? "(") || (c =? ")") || in_precedence c).

(** The number of fragments a postfix token pops. *)
Definition operands (c : ascii) : nat :=
  if isalnum c then 0
  else if (c =? ".") || (c =? "|") then 2
  else if c =? "*" then 1
  else 0.

(** The number of fragments a postfix token pushes. *)
Definition pushes (c : ascii) : nat :=
  if isalnum c || (c =? ".") || (c =? "|") || (c =? "*") then 1 else 0.

(** The height of the fragment stack after [postfix], [None] when some
    operator finds too few fragments. *)
Fixpoint stack_height (n : nat) (postfix : list ascii) : option nat :=
  match postfix with
  | [] => Some n
  | c :: rest =>
      if (operands c <=? n)%nat
      then stack_height (n - operands c + pushes c) rest
      else None
  end.

(** *** Vocabulary of the further properties *)

(** *** Counting characters *)

(** The number of occurrences of [c] in a string. *)
Definition count_char (c : ascii) (l : list ascii) : nat :=
  length (filter (λ x, x = c) l).

(** A postfix token for which the builder creates two states: a literal,
    a union or a star. *)
Definition allocating (c : ascii) : bool :=
  isalnum c || (c =? "|") || (c =? "*").

(** The number of such characters in a string. *)
Definition count_allocating (l : list ascii) : nat :=
  length (filter (λ c, allocating c = true) l).

(** The literals of a regex, left to right. *)
Fixpoint lits (r : regex) : list ascii :=
  match r with
  | Lit c => [c]
  | Cat r1 r2 | Alt r1 r2 => lits r1 ++ lits r2
  | Star r => lits r
  end.

(** The references of the fragment are [k] or more. *)
Definition above (k : nat) (f : NFA) : Prop := k ≤ start f ∧ k ≤ accept f.

(** *** [NFA.describe] *)

(** In every [State] object the [id] field is the identifier the object
    is known by. *)
Definition heap_ids (h : gmap nat State) : Prop :=
  map_Forall (λ q st, id st = q) h.

(** The targets in [state.edges.values()], one list after the other.  (A
    dict keeps the order of insertion, the map does not; the dicts the
    builder fills hold one key at most.) *)
Definition edge_targets (st : State) : list nat :=
  mjoin (snd <$> map_to_list (edges st)).

(** The [while stack] loop of [describe].  The stack has its top first,
    so that [stack.extend(l)] puts [reverse l] in front; [None] when the
    fuel runs out. *)
Fixpoint describe_loop (fuel : nat) (h : gmap nat State) (stack : list nat)
    (visited : gset nat) (description : list State) : option (list State) :=
  match stack with
  | [] => Some description
  | state :: stack' =>
      match fuel with
      | 0 => None
      | S fuel' =>
          match h !! state with
          | None => describe_loop fuel' h stack' visited description
          | Some st =>
              if decide (id st ∈ visited)
              then describe_loop fuel' h stack' visited description
              else describe_loop fuel' h
                     (reverse (epsilon st) ++ reverse (edge_targets st)
                      ++ stack')
                     ({[id st]} ∪ visited) (description ++ [st])
          end
      end
  end.

(** The states [describe] renders, in the order of the lines. *)
Definition describe_states (fuel : nat) (h : gmap nat State) (nfa : NFA)
  : option (list State) :=
  describe_loop fuel h [start nfa] ∅ [].

(** [describe], with [str(state)] left to [render]. *)
Definition describe (render : State → string) (fuel : nat)
    (h : gmap nat State) (nfa : NFA) : option string :=
  (λ l, String.concat (String "010" EmptyString) (render <$> l))
    <$> describe_states fuel h nfa.

(** [q'] is a successor of [q], by an epsilon or a labelled edge. *)
Definition successor (h : gmap nat State) (q q' : nat) : Prop :=
  q' ∈ epsilon_of h q ∨ ∃ c, q' ∈ edges_of h q c.

(** Every edge of [h] is an edge of [h']. *)
Definition heap_sub (h h' : gmap nat State) : Prop :=
  ∀ q q', successor h q q' → successor h' q q'.

(** Every node of the range [lo .. hi - 1] can be reached from the start
    node of the fragment. *)
Definition frag_conn (h : gmap nat State) (f : NFA) (lo hi : nat) : Prop :=
  ∀ q, lo ≤ q < hi → reachable h (start f) q.

(** *** The tokenizer ([lex]) *)

(** The group names of [TOKEN_SPECIFICATION]. *)
Inductive token_kind : Set :=
  NUMBER | IDENTIFIER | ASSIGN | OPERATOR | LPAREN | RPAREN
| SKIP | NEWLINE | MISMATCH.

Global Instance token_kind_eq_dec : EqDecision token_kind.
Proof. solve_decision. Defined.

(** The character classes of the patterns, for code points below 256:
    [\d], [[A-Za-z_]], [\w], [[+\-*/]] and [[ \t]]. *)
Definition is_digit (c : ascii) : bool :=
  let n := N_of_ascii c in ((48 <=? n) && (n <=? 57))%N.

Definition is_ident_start (c : ascii) : bool :=
  let n := N_of_ascii c in
  ((65 <=? n) && (n <=? 90) || (97 <=? n) && (n <=? 122))%N || (c =? "_").

Definition is_word (c : ascii) : bool := isalnum c || (c =? "_").

Definition is_operator (c : ascii) : bool :=
  (c =? "+") || (c =? "-") || (c =? "*") || (c =? "/").

Definition is_blank (c : ascii) : bool := (c =? " ") || (c =? "009").

(** A greedy repetition [p*]: the longest prefix of [s] in the class,
    and what follows it. *)
Fixpoint span (p : ascii → bool) (s : list ascii) : list ascii * list ascii :=
  match s with
  | c :: rest =>
      if p c then let '(xs, r) := span p rest in (c :: xs, r) else ([], s)
  | [] => ([], [])
  end.

(** The match of [token_regex] at the head of [s]: the alternatives are
    tried in the order of [TOKEN_SPECIFICATION], each repetition takes
    all it can; the result is the name of the group ([match.lastgroup]),
    its text ([match.group(kind)]) and the rest of the input.  The last
    alternatives, a newline or any other character, leave no character
    without a match. *)
Definition next_match (s : list ascii)
  : option (token_kind * list ascii * list ascii) :=
  match s with
  | [] => None
  | c :: rest =>
      if is_digit c then
        let '(ds, rest1) := span is_digit rest in
        match rest1 with
        | "." :: rest2 =>
            let '(fs, rest3) := span is_digit rest2 in
            Some (NUMBER, c :: ds ++ "." :: fs, rest3)
        | _ => Some (NUMBER, c :: ds, rest1)
        end
      else if is_ident_start c then
        let '(ws, rest1) := span is_word rest in
        Some (IDENTIFIER, c :: ws, rest1)
      else if c =? "=" then Some (ASSIGN, [c], rest)
      else if is_operator c then Some (OPERATOR, [c], rest)
      else if c =? "(" then Some (LPAREN, [c], rest)
      else if c =? ")" then Some (RPAREN, [c], rest)
      else if is_blank c then
        let '(bs, rest1) := span is_blank rest in
        Some (SKIP, c :: bs, rest1)
      else if c =? "010" then Some (NEWLINE, [c], rest)
      else Some (MISMATCH, [c], rest)
  end.

(** How the generator ends: the input is used up, or
    [raise RuntimeError(f"Unexpected character: {value!r}")]. *)
Inductive lex_end : Set :=
| Exhausted
| RuntimeError (value : list ascii).

Definition token : Set := token_kind * list ascii.

(** [for match in re.finditer(token_regex, source_code)]: the tokens the
    generator yields, in order, and how it ends; [None] when the fuel
    runs out. *)
Fixpoint lex_loop (fuel : nat) (s : list ascii)
  : option (list token * lex_end) :=
  match fuel with
  | 0 => None
  | S fuel' =>
      match next_match s with
      | None => Some ([], Exhausted)
      | Some (kind, value, rest) =>
          match kind with
          | SKIP | NEWLINE => lex_loop fuel' rest
          | MISMATCH => Some ([], RuntimeError value)
          | _ =>
              match lex_loop fuel' rest with
              | Some (tokens, e) => Some ((kind, value) :: tokens, e)
              | None => None
              end
          end
      end
  end.

(** Every match takes a character at least: the length of the input is
    fuel enough. *)
Definition lex (source_code : list ascii) : option (list token * lex_end) :=
  lex_loop (S (length source_code)) source_code.

(** Spaces, tabs and newlines: what [lex] skips. *)
Definition is_space (c : ascii) : bool := is_blank c || (c =? "010").

(** The characters a token can start with or that are skipped: on a
    string of these [lex] never meets a [MISMATCH]. *)
Definition lexable (c : ascii) : bool :=
  is_digit c || is_ident_start c || (c =? "=") || is_operator c
  || (c =? "(") || (c =? ")") || is_space c.

(** The characters that can occur in the text of a token. *)
Definition in_token (c : ascii) : bool :=
  is_word c || (c =? ".") || (c =? "=") || is_operator c
  || (c =? "(") || (c =? ")").

(** The input with the spaces, tabs and newlines taken out. *)
Definition strip (s : list ascii) : list ascii :=
  filter (λ c, is_space c = false) s.

(** The kinds [lex] yields. *)
Definition yielded (k : token_kind) : Prop :=
  k ≠ SKIP ∧ k ≠ NEWLINE ∧ k ≠ MISMATCH.

(** The input ends, or goes on with a space, a tab or a newline. *)
Definition stops (s : list ascii) : Prop :=
  match s with
  | [] => True
  | c :: _ => is_space c = true
  end.

(** A token that is matched again, as a whole and with the same kind,
    wherever its text is followed by a space, a tab, a newline or the end
    of the input. *)
Definition token_ok (t : token) : Prop :=
  yielded t.1 ∧ t.2 ≠ [] ∧ Forall (λ c, in_token c = true) t.2
  ∧ ∀ rest, stops rest → next_match (t.2 ++ rest) = Some (t.1, t.2, rest).

(** [' '.join(values)] *)
Fixpoint unwords (values : list (list ascii)) : list ascii :=
  match values with
  | [] => []
  | [v] => v
  | v :: rest => v ++ " " :: unwords rest
  end.

(** The run of [lex] on [s1] followed by the run on [s2]: the second
    is not started when the first has raised. *)
Definition lex_then (r1 r2 : list token * lex_end) : list token * lex_end :=
  match r1.2 with
  | Exhausted => (r1.1 ++ r2.1, r2.2)
  | RuntimeError v => r1
  end.

(* ================================================================== *)
(** * Theorems *)

(** ** Postfix converter: error behaviour *)

Lemma drain_opens p output stack :
  1 ≤ p → opens (drain p output stack).2 = opens stack.
Proof.
  intros Hp. revert output. induction stack as [|t rest IH]; intros output; simpl.
  - done.
  - destruct (p <=? precedence_get t)%nat eqn:E; simpl; [|done].
    rewrite IH. destruct (Ascii.eqb_spec t "(") as [->|]; [|done].
    apply Nat.leb_le in E. change (precedence_get "(") with 0 in E. lia.
Qed.

Lemma insert_concat_opens prev output stack :
  opens (insert_concat prev output stack).2 = opens stack.
Proof.
  unfold insert_concat. destruct (needs_concat prev); [|done].
  pose proof (drain_opens 2 output stack ltac:(lia)) as H.
  destruct (drain 2 output stack) as [o s]. simpl in *. done.
Qed.

Lemma drain_to_open_spec output stack :
  match (drain_to_open output stack).2 with
  | [] => opens stack = 0
  | t :: s' => t = "(" ∧ opens stack = S (opens s')
  end.
Proof.
  revert output. induction stack as [|t rest IH]; intros output; simpl.
  - done.
  - destruct (Ascii.eqb_spec t "(") as [->|Hne]; simpl.
    + done.
    + apply IH.
Qed.

Lemma to_postfix_step_opens st c :
  match to_postfix_step st c with
  | Raise e => c = ")" ∧ opens (p_stack st) = 0
  | Ok st' =>
      if c =? ")" then opens (p_stack st) = S (opens (p_stack st'))
      else if c =? "(" then opens (p_stack st') = S (opens (p_stack st))
      else opens (p_stack st') = opens (p_stack st)
  end.
Proof.
  destruct st as [output stack prev]. unfold to_postfix_step.
  destruct (isalnum c) eqn:Ealnum.
  { pose proof (insert_concat_opens prev output stack) as H.
    destruct (insert_concat prev output stack) as [o s]. simpl in *.
    destruct (Ascii.eqb_spec c ")") as [->|]; [done|].
    destruct (Ascii.eqb_spec c "(") as [->|]; [done|]. done. }
  destruct (Ascii.eqb_spec c "(") as [->|Hopen].
  { pose proof (insert_concat_opens prev output stack) as H.
    destruct (insert_concat prev output stack) as [o s]. simpl in *. lia. }
  destruct (Ascii.eqb_spec c ")") as [->|Hclose].
  { pose proof (drain_to_open_spec output stack) as H.
    destruct (drain_to_open output stack) as [o [|t s']]; simpl in *.
    - done.
    - lia. }
  destruct (in_precedence c) eqn:Eprec.
  { pose proof (drain_opens (precedence_get c) output stack) as H.
    assert (1 ≤ precedence_get c) as Hp.
    { unfold in_precedence in Eprec. unfold precedence_get.
      destruct (c =? "*"); [lia|]. destruct (c =? "."); [lia|].
      destruct (c =? "|"); [lia|]. done. }
    specialize (H Hp).
    destruct (drain (precedence_get c) output stack) as [o s]. simpl in *.
    destruct (Ascii.eqb_spec c "(") as [->|]; [done|]. done. }
  simpl. done.
Qed.

Lemma to_postfix_loop_opens R : ∀ st,
  match to_postfix_loop st R with
  | Raise e => e = IndexError ∧ unmatched_close (opens (p_stack st)) R = true
  | Ok _ => unmatched_close (opens (p_stack st)) R = false
  end.
Proof.
  induction R as [|c R IH]; intros st; simpl; [done|].
  pose proof (to_postfix_step_opens st c) as Hstep.
  destruct (to_postfix_step st c) as [st'|[]].
  - specialize (IH st').
    destruct (Ascii.eqb_spec c ")") as [->|Hclose].
    + rewrite Hstep. done.
    + destruct (Ascii.eqb_spec c "(") as [->|Hopen]; rewrite <- Hstep; done.
  - destruct Hstep as [-> ->]. done.
Qed.

(** C2 (as the code has it): the converter fails exactly when a closing
    parenthesis is met while no opening parenthesis is on the stack, and
    then with Python's generic [IndexError]; every other input, an
    unclosed opening parenthesis or a trailing operator included, is
    converted without any error. *)
Theorem to_postfix_fails_only_by_underflow (R : list ascii) :
  match to_postfix R with
  | Raise e => e = IndexError ∧ unmatched_close 0 R = true
  | Ok _ => unmatched_close 0 R = false
  end.
Proof.
  unfold to_postfix.
  pose proof (to_postfix_loop_opens R (mkP [] [] None)) as H.
  destruct (to_postfix_loop (mkP [] [] None) R); done.
Qed.

(** Against C2 as the specification words it: [a)b] ends in the generic
    [IndexError], while the unbalanced [(a|b] and the dangling [a|] raise
    nothing at all. *)
Lemma to_postfix_no_named_error :
  to_postfix (chars "a)b") = Raise IndexError
  ∧ to_postfix (chars "(a|b") = Ok (chars "ab|(")
  ∧ to_postfix (chars "a|") = Ok (chars "a|").
Proof. repeat split; reflexivity. Qed.

(** ** Characters outside the grammar *)

Lemma drain_app p output stack :
  (drain p output stack).1 ++ (drain p output stack).2 = output ++ stack.
Proof.
  revert output. induction stack as [|t rest IH]; intros output; simpl; [done|].
  destruct (p <=? precedence_get t)%nat; simpl; [|done].
  rewrite IH, <- app_assoc. done.
Qed.

Lemma drain_to_open_app output stack :
  (drain_to_open output stack).1 ++ (drain_to_open output stack).2
  = output ++ stack.
Proof.
  revert output. induction stack as [|t rest IH]; intros output; simpl; [done|].
  destruct (t =? "("); simpl; [done|].
  rewrite IH, <- app_assoc. done.
Qed.

Lemma insert_concat_app prev output stack x :
  x ∈ (insert_concat prev output stack).1 ++ (insert_concat prev output stack).2 →
  x = "." ∨ x ∈ output ++ stack.
Proof.
  unfold insert_concat. destruct (needs_concat prev); [|by right].
  pose proof (drain_app 2 output stack) as H.
  destruct (drain 2 output stack) as [o s]. simpl in *. rewrite <- H.
  rewrite !elem_of_app, elem_of_cons. tauto.
Qed.

Lemma to_postfix_step_emits st c st' x :
  to_postfix_step st c = Ok st' →
  x ∈ p_output st' ++ p_stack st' →
  unsupported x = false ∨ x ∈ p_output st ++ p_stack st.
Proof.
  destruct st as [output stack prev]. unfold to_postfix_step. simpl.
  destruct (isalnum c) eqn:Ealnum.
  { pose proof (insert_concat_app prev output stack x) as H.
    destruct (insert_concat prev output stack) as [o s]. simpl in *.
    intros [= <-]. simpl. rewrite <- app_assoc. intros Hx.
    apply elem_of_app in Hx as [Hx|Hx].
    - destruct H as [->|H]; [set_solver|by left|by right].
    - apply elem_of_cons in Hx as [->|Hx].
      + left. unfold unsupported. by rewrite Ealnum.
      + destruct H as [->|H]; [set_solver|by left|by right]. }
  destruct (Ascii.eqb_spec c "(") as [->|Hopen].
  { pose proof (insert_concat_app prev output stack x) as H.
    destruct (insert_concat prev output stack) as [o s]. simpl in *.
    intros [= <-]. simpl. intros Hx.
    apply elem_of_app in Hx as [Hx|Hx].
    - destruct H as [->|H]; [set_solver|by left|by right].
    - apply elem_of_cons in Hx as [->|Hx]; [by left|].
      destruct H as [->|H]; [set_solver|by left|by right]. }
  destruct (Ascii.eqb_spec c ")") as [->|Hclose].
  { pose proof (drain_to_open_app output stack) as H.
    destruct (drain_to_open output stack) as [o [|t s']]; simpl in *; [done|].
    intros [= <-]. simpl. intros Hx. right. rewrite <- H. set_solver. }
  destruct (in_precedence c) eqn:Eprec.
  { pose proof (drain_app (precedence_get c) output stack) as H.
    destruct (drain (precedence_get c) output stack) as [o s]. simpl in *.
    intros [= <-]. simpl. intros Hx.
    apply elem_of_app in Hx as [Hx|Hx].
    - right. rewrite <- H. set_solver.
    - apply elem_of_cons in Hx as [->|Hx].
      + left. unfold unsupported. rewrite Eprec.
        by rewrite !orb_true_r.
      + right. rewrite <- H. set_solver. }
  intros [= <-]. simpl. by right.
Qed.

Lemma to_postfix_loop_emits R : ∀ st st' x,
  to_postfix_loop st R = Ok st' →
  x ∈ p_output st' ++ p_stack st' →
  unsupported x = false ∨ x ∈ p_output st ++ p_stack st.
Proof.
  induction R as [|c R IH]; intros st st' x; simpl.
  - intros [= <-]. by right.
  - destruct (to_postfix_step st c) as [st1|] eqn:E; [|done].
    intros Hloop Hx. destruct (IH _ _ _ Hloop Hx) as [?|Hx1]; [by left|].
    eapply to_postfix_step_emits; eauto.
Qed.

(** C3 (as the code has it): a character that is neither alphanumeric,
    nor a parenthesis, nor one of the operators [*], [|], [.] raises no
    error and is dropped: the converter leaves output and stack
    untouched and only records it as the previous character (so no
    concatenation is inserted after it), the builder skips it, and it
    never occurs in a postfix string. *)
Theorem unsupported_char_is_dropped (c : ascii) :
  unsupported c = true →
  (∀ st, to_postfix_step st c
         = Ok (mkP (p_output st) (p_stack st) (Some c)))
  ∧ needs_concat (Some c) = false
  ∧ (∀ stack σ, build_step stack c σ = Ok (stack, σ))
  ∧ (∀ R postfix, to_postfix R = Ok postfix → c ∉ postfix).
Proof.
  intros Hc. unfold unsupported in Hc. apply negb_true_iff in Hc.
  apply orb_false_iff in Hc as [Hc Hprec].
  apply orb_false_iff in Hc as [Hc Hclose].
  apply orb_false_iff in Hc as [Halnum Hopen].
  assert (Hprec' := Hprec). unfold in_precedence in Hprec'.
  apply orb_false_iff in Hprec' as [Hprec' Hbar].
  apply orb_false_iff in Hprec' as [Hstar Hdot].
  repeat split.
  - intros [output stack prev]. unfold to_postfix_step.
    by rewrite Halnum, Hopen, Hclose, Hprec.
  - simpl. by rewrite Halnum, Hclose, Hstar.
  - intros stack σ. unfold build_step.
    by rewrite Halnum, Hdot, Hbar, Hstar.
  - intros R postfix. unfold to_postfix.
    destruct (to_postfix_loop (mkP [] [] None) R) as [st|] eqn:E; [|done].
    intros [= <-] Hin. unfold flush in Hin.
    destruct (to_postfix_loop_emits _ _ _ c E Hin) as [Hx|Hx].
    + unfold unsupported in Hx. apply negb_false_iff in Hx.
      by rewrite Halnum, Hopen, Hclose, Hprec in Hx.
    + simpl in Hx. by apply elem_of_nil in Hx.
Qed.

Lemma unsupported_char_is_dropped_witness :
  unsupported "+" = true
  ∧ to_postfix_step (mkP [] [] None) "+" = Ok (mkP [] [] (Some "+")).
Proof.
  split; [reflexivity|].
  exact (proj1 (unsupported_char_is_dropped "+" eq_refl) (mkP [] [] None)).
Defined.

(** Against C3 as the specification words it: [+], [?] and the space are
    silently discarded, and the construction goes on to return an
    automaton. *)
Lemma unsupported_chars_raise_nothing :
  to_postfix (chars "a+b") = Ok (chars "ab")
  ∧ to_postfix (chars "a?") = Ok (chars "a")
  ∧ to_postfix (chars "a b") = Ok (chars "ab")
  ∧ fst <$> (match regex_to_nfa (chars "a+b") empty_store with
             | Ok x => Some x | Raise _ => None end) = Some (mkNFA 2 3).
Proof. repeat split; reflexivity. Qed.

(** ** Thompson builder: error behaviour *)

Ltac unfold_M := unfold mbind, M_bind, mret, M_ret, raise, new_state,
                   set_edge, extend_epsilon in *; simpl in *.

Lemma build_step_height stack c σ :
  match build_step stack c σ with
  | Ok (stack', _) =>
      operands c ≤ length stack
      ∧ length stack' = length stack - operands c + pushes c
  | Raise e => e = IndexError ∧ length stack < operands c
  end.
Proof.
  unfold build_step, operands, pushes.
  destruct (isalnum c) eqn:Ealnum.
  { unfold_M. lia. }
  destruct (c =? ".") eqn:Edot.
  { destruct stack as [|f2 [|f1 rest]]; unfold_M; split; (done || lia). }
  destruct (c =? "|") eqn:Ebar.
  { destruct stack as [|f2 [|f1 rest]]; unfold_M; split; (done || lia). }
  destruct (c =? "*") eqn:Estar.
  { destruct stack as [|f1 rest]; unfold_M; split; (done || lia). }
  unfold_M. lia.
Qed.

Lemma build_loop_height postfix : ∀ stack σ,
  match build_loop stack postfix σ with
  | Ok (stack', _) => stack_height (length stack) postfix = Some (length stack')
  | Raise e => e = IndexError ∧ stack_height (length stack) postfix = None
  end.
Proof.
  induction postfix as [|c rest IH]; intros stack σ; simpl.
  - done.
  - unfold mbind, M_bind.
    pose proof (build_step_height stack c σ) as Hstep.
    destruct (build_step stack c σ) as [[stack' σ']|e].
    + destruct Hstep as [Hle Hlen].
      apply Nat.leb_le in Hle. rewrite Hle, <- Hlen. apply IH.
    + destruct Hstep as [-> Hlt].
      apply Nat.leb_gt in Hlt. by rewrite Hlt.
Qed.

(** C4 (as the code has it): the builder fails exactly when an operator
    finds fewer fragments than it pops or when no fragment is left at the
    end, and then with Python's generic [IndexError], the same exception
    the converter raises; with one fragment or more left it returns the
    topmost one without any error. *)
Theorem build_nfa_fails_only_by_underflow (postfix : list ascii) (σ : store) :
  match build_nfa postfix σ with
  | Raise e =>
      e = IndexError
      ∧ (stack_height 0 postfix = None ∨ stack_height 0 postfix = Some 0)
  | Ok _ => ∃ n, stack_height 0 postfix = Some (S n)
  end.
Proof.
  unfold build_nfa, mbind, M_bind.
  pose proof (build_loop_height postfix [] σ) as H.
  destruct (build_loop [] postfix σ) as [[[|f stack] σ']|e]; simpl in *.
  - split; [done|by right].
  - eauto.
  - destruct H as [-> H]. split; [done|by left].
Qed.

(** Against C4 as the specification words it: two fragments left over
    are not reported (the top one is returned), and the empty input and a
    starved operator end in the generic [IndexError]. *)
Lemma build_nfa_no_invariant_error :
  fst <$> (match build_nfa (chars "ab") empty_store with
           | Ok x => Some x | Raise _ => None end) = Some (mkNFA 2 3)
  ∧ stack_height 0 (chars "ab") = Some 2
  ∧ build_nfa (chars "") empty_store = Raise IndexError
  ∧ build_nfa (chars "a.") empty_store = Raise IndexError
  ∧ build_nfa (chars "*") empty_store = Raise IndexError.
Proof. repeat split; reflexivity. Qed.

(** ** Paths *)

Lemma nfa_path_app h p s q t r :
  nfa_path h p s q → nfa_path h q t r → nfa_path h p (s ++ t) r.
Proof.
  induction 1 as [q|p p' s q Hstep _ IH|p c p' s q Hstep _ IH]; intros Hqr; simpl.
  - done.
  - eapply path_eps; eauto.
  - eapply path_sym; eauto.
Qed.

Lemma eps_reach_refl h q : eps_reach h q q.
Proof. apply path_refl. Qed.

Lemma eps_reach_trans h p q r :
  eps_reach h p q → eps_reach h q r → eps_reach h p r.
Proof. intros H1 H2. exact (nfa_path_app h p [] q [] r H1 H2). Qed.

Lemma eps_reach_edge h q q' : q' ∈ epsilon_of h q → eps_reach h q q'.
Proof. intros H. eapply path_eps; [done|apply path_refl]. Qed.

Lemma eps_reach_ind' h (P : nat → nat → Prop) :
  (∀ q, P q q) →
  (∀ q q' q'', q' ∈ epsilon_of h q → eps_reach h q' q'' → P q' q'' → P q q'') →
  ∀ p q, eps_reach h p q → P p q.
Proof.
  intros Hrefl Hstep p q H. unfold eps_reach in H.
  remember [] as s eqn:Hs. induction H; subst; try done; eauto.
Qed.

Lemma eps_closed_reach h X p q :
  eps_closed h X → eps_reach h p q → p ∈ X → q ∈ X.
Proof.
  intros Hcl H. revert p q H.
  apply (eps_reach_ind' h (λ p q, p ∈ X → q ∈ X)); [done|].
  intros q q' q'' Hstep _ IH Hq. apply IH. eapply Hcl; eauto.
Qed.

Lemma edge_closed_eps h X : edge_closed h X → eps_closed h X.
Proof. intros H q q' Hq Hq'. by apply (H q Hq). Qed.

Lemma edge_closed_path h X p s q :
  edge_closed h X → nfa_path h p s q → p ∈ X → q ∈ X.
Proof.
  intros Hcl. induction 1 as [q|p p' s q Hstep _ IH|p c p' s q Hstep _ IH];
    intros Hp; [done| |].
  - apply IH. by apply (Hcl p Hp).
  - apply IH. by apply (Hcl p Hp) in Hstep.
Qed.

(** ** Epsilon closure *)

Lemma is_closure_unique h S C1 C2 :
  is_closure h S C1 → is_closure h S C2 → C1 = C2.
Proof. intros H1 H2. apply set_eq. intros q. by rewrite (H1 q), (H2 q). Qed.

Lemma visit_epsilon_closure targets : ∀ stack closure,
  (visit_epsilon targets stack closure).2 = closure ∪ list_to_set targets.
Proof.
  induction targets as [|e rest IH]; intros stack closure; simpl.
  - set_solver.
  - destruct (decide (e ∈ closure)); rewrite IH; set_solver.
Qed.

Lemma visit_epsilon_stack targets : ∀ stack closure x,
  x ∈ (visit_epsilon targets stack closure).1 →
  x ∈ stack ∨ x ∈ targets.
Proof.
  induction targets as [|e rest IH]; intros stack closure x; simpl.
  - by left.
  - destruct (decide (e ∈ closure)); intros Hx.
    + destruct (IH _ _ _ Hx); set_solver.
    + destruct (IH _ _ _ Hx); set_solver.
Qed.

Lemma visit_epsilon_keeps targets : ∀ stack closure x,
  x ∈ stack → x ∈ (visit_epsilon targets stack closure).1.
Proof.
  induction targets as [|e rest IH]; intros stack closure x Hx; simpl.
  - done.
  - destruct (decide (e ∈ closure)); apply IH; set_solver.
Qed.

Lemma visit_epsilon_size targets : ∀ stack closure,
  length (visit_epsilon targets stack closure).1 + size closure
  = length stack + size (visit_epsilon targets stack closure).2.
Proof.
  induction targets as [|e rest IH]; intros stack closure; simpl.
  - done.
  - destruct (decide (e ∈ closure)) as [Hin|Hout].
    + apply IH.
    + specialize (IH (e :: stack) ({[e]} ∪ closure)). simpl in IH.
      rewrite size_union, size_singleton in IH by set_solver. lia.
Qed.

Section closure_loop.
Variables (h : gmap nat State) (S D : gset nat).
Hypothesis HSD : S ⊆ D.
Hypothesis HD : eps_closed h D.

(** The invariant of the [while stack] loop. *)
Record closure_inv (stack : list nat) (closure : gset nat) : Prop := {
  ci_init : S ⊆ closure;
  ci_sound : ∀ q, q ∈ closure → ∃ p, p ∈ S ∧ eps_reach h p q;
  ci_pending : ∀ q q', q ∈ closure → q' ∈ epsilon_of h q →
                       q ∈ stack ∨ q' ∈ closure;
  ci_bound : closure ⊆ D;
  ci_stack : ∀ x, x ∈ stack → x ∈ closure
}.

Lemma closure_inv_init : closure_inv (elements S) S.
Proof.
  split; try done.
  - intros q Hq. exists q. split; [done|apply eps_reach_refl].
  - intros q q' Hq _. left. by apply elem_of_elements.
  - intros x Hx. by apply elem_of_elements in Hx.
Qed.

Lemma closure_inv_step state stack closure :
  closure_inv (state :: stack) closure →
  closure_inv (visit_epsilon (epsilon_of h state) stack closure).1
              (visit_epsilon (epsilon_of h state) stack closure).2.
Proof.
  intros [Hinit Hsound Hpend Hbound Hstack].
  assert (state ∈ closure) as Hstate by (apply Hstack; set_solver).
  rewrite visit_epsilon_closure. split.
  - set_solver.
  - intros q Hq. apply elem_of_union in Hq as [Hq|Hq]; [by apply Hsound|].
    apply elem_of_list_to_set in Hq.
    destruct (Hsound state Hstate) as (p & Hp & Hreach).
    exists p. split; [done|].
    eapply eps_reach_trans; [done|by apply eps_reach_edge].
  - intros q q' Hq Hq'. apply elem_of_union in Hq as [Hq|Hq].
    + destruct (decide (q = state)) as [->|Hne].
      { right. apply elem_of_union_r. by apply elem_of_list_to_set. }
      destruct (Hpend q q' Hq Hq') as [Hin|Hin].
      * left. apply visit_epsilon_keeps. set_solver.
      * right. set_solver.
    + apply elem_of_list_to_set in Hq.
      destruct (decide (q ∈ closure)) as [Hqc|Hqc].
      * destruct (decide (q = state)) as [->|Hne].
        { right. apply elem_of_union_r. by apply elem_of_list_to_set. }
        destruct (Hpend q q' Hqc Hq') as [Hin|Hin].
        -- left. apply visit_epsilon_keeps. set_solver.
        -- right. set_solver.
      * left. clear -Hq Hqc.
        revert stack closure Hqc.
        induction (epsilon_of h state) as [|e rest IH];
          intros stack closure Hqc; simpl; [by apply elem_of_nil in Hq|].
        destruct (decide (e ∈ closure)) as [He|He].
        -- apply IH; [|done]. set_solver.
        -- destruct (decide (q = e)) as [->|Hne].
           ++ apply visit_epsilon_keeps. set_solver.
           ++ apply IH; set_solver.
  - intros q Hq. apply elem_of_union in Hq as [Hq|Hq]; [by apply Hbound|].
    apply elem_of_list_to_set in Hq. eapply HD; [|done]. by apply Hbound.
  - intros x Hx. apply visit_epsilon_stack in Hx as [Hx|Hx].
    + apply elem_of_union_l, Hstack. set_solver.
    + apply elem_of_union_r. by apply elem_of_list_to_set.
Qed.

Lemma closure_inv_final closure :
  closure_inv [] closure → is_closure h S closure.
Proof.
  intros [Hinit Hsound Hpend Hbound Hstack] q. split; [by apply Hsound|].
  intros (p & Hp & Hreach). apply Hinit in Hp. revert Hp.
  revert p q Hreach.
  apply (eps_reach_ind' h (λ p q, p ∈ closure → q ∈ closure)); [done|].
  intros p p' q Hstep _ IH Hp. apply IH.
  destruct (Hpend p p' Hp Hstep) as [Hin|Hin]; [|done].
  by apply elem_of_nil in Hin.
Qed.

Lemma epsilon_closure_loop_terminates fuel : ∀ stack closure,
  closure_inv stack closure →
  size D + length stack < fuel + size closure →
  ∃ C, epsilon_closure_loop fuel h stack closure = Some C
       ∧ is_closure h S C.
Proof.
  induction fuel as [|fuel IH]; intros stack closure Hinv Hfuel.
  - pose proof (subseteq_size _ _ (ci_bound _ _ Hinv)). lia.
  - destruct stack as [|state stack]; simpl.
    + exists closure. split; [done|by apply closure_inv_final].
    + pose proof (closure_inv_step _ _ _ Hinv) as Hinv'.
      pose proof (visit_epsilon_size (epsilon_of h state) stack closure) as Hsz.
      destruct (visit_epsilon (epsilon_of h state) stack closure)
        as [stack' closure'] eqn:E. simpl in *.
      apply IH; [done|lia].
Qed.
End closure_loop.

Lemma epsilon_closure_loop_mono fuel : ∀ fuel' h stack closure C,
  epsilon_closure_loop fuel h stack closure = Some C →
  fuel ≤ fuel' →
  epsilon_closure_loop fuel' h stack closure = Some C.
Proof.
  induction fuel as [|fuel IH]; intros fuel' h stack closure C Hrun Hle.
  - destruct stack; simpl in Hrun; [|done].
    destruct fuel'; simpl; done.
  - destruct fuel' as [|fuel']; [lia|].
    destruct stack as [|state stack]; simpl in *; [done|].
    destruct (visit_epsilon (epsilon_of h state) stack closure).
    apply IH; [done|lia].
Qed.

Lemma epsilon_closure_mono fuel fuel' h S C :
  epsilon_closure fuel h S = Some C → fuel ≤ fuel' →
  epsilon_closure fuel' h S = Some C.
Proof. apply epsilon_closure_loop_mono. Qed.

(** With more fuel than [D] has nodes, the closure of a subset of an
    epsilon-closed set [D] is computed. *)
Lemma epsilon_closure_spec h S D fuel :
  S ⊆ D → eps_closed h D → size D < fuel →
  ∃ C, epsilon_closure fuel h S = Some C ∧ is_closure h S C ∧ C ⊆ D.
Proof.
  intros HSD HD Hfuel.
  destruct (epsilon_closure_loop_terminates h S D HSD HD fuel (elements S) S)
    as (C & Hrun & HC).
  - by apply closure_inv_init.
  - change (length (elements S)) with (size S). lia.
  - exists C. split; [done|]. split; [done|].
    intros q Hq. apply HC in Hq as (p & Hp & Hreach).
    eapply eps_closed_reach; eauto.
Qed.

Lemma eps_targets_closed h S : eps_closed h (S ∪ eps_targets h).
Proof.
  intros q q' _ Hq'. apply elem_of_union_r.
  unfold epsilon_of in Hq'. destruct (h !! q) as [st|] eqn:E.
  - unfold eps_targets. apply elem_of_union_list.
    exists (list_to_set (epsilon st)). split.
    + apply list_elem_of_fmap. exists (q, st). split; [done|].
      by apply elem_of_map_to_list.
    + by apply elem_of_list_to_set.
  - by apply elem_of_nil in Hq'.
Qed.

(** Every set of nodes has its closure. *)
Lemma is_closure_exists h S : ∃ C, is_closure h S C.
Proof.
  assert (S ⊆ S ∪ eps_targets h) as HSD by set_solver.
  destruct (epsilon_closure_spec h S _ (size (S ∪ eps_targets h) + 1) HSD
              (eps_targets_closed h S) ltac:(lia)) as (C & _ & HC & _).
  by exists C.
Qed.

(** C8: [epsilon_closure] terminates on every set of nodes of every heap,
    epsilon cycles or not, and returns exactly the nodes reachable from
    some member of the set by zero or more epsilon edges; the set itself
    is part of the result. *)
Theorem epsilon_closure_correct (h : gmap nat State) (S : gset nat) :
  ∃ C, (∀ fuel, size (S ∪ eps_targets h) < fuel →
                epsilon_closure fuel h S = Some C)
       ∧ (∀ q, q ∈ C ↔ ∃ p, p ∈ S ∧ eps_reach h p q)
       ∧ S ⊆ C.
Proof.
  set (D := S ∪ eps_targets h).
  assert (S ⊆ D) as HSD by set_solver.
  destruct (epsilon_closure_spec h S D (size D + 1) HSD
              (eps_targets_closed h S) ltac:(lia)) as (C & _ & HC & _).
  exists C. repeat split.
  - intros fuel Hfuel.
    destruct (epsilon_closure_spec h S D fuel HSD
                (eps_targets_closed h S) Hfuel) as (C' & Hrun & HC' & _).
    by rewrite (is_closure_unique h S C C' HC HC').
  - apply HC.
  - apply HC.
  - intros q Hq. apply HC. exists q. split; [done|apply eps_reach_refl].
Qed.

(** ** Subset construction: auxiliary facts *)

Lemma elem_of_move h T c q' :
  q' ∈ move h T c ↔ ∃ q, q ∈ T ∧ q' ∈ edges_of h q c.
Proof.
  unfold move. setoid_rewrite <- (elem_of_elements T).
  induction (elements T) as [|x l IH]; simpl.
  - split; [set_solver|]. intros (q & Hq & _). by apply elem_of_nil in Hq.
  - rewrite elem_of_union, elem_of_list_to_set, IH. split.
    + intros [Hx|(q & Hq & Hq')].
      * exists x. split; [left|done].
      * exists q. split; [by right|done].
    + intros (q & Hq & Hq'). apply elem_of_cons in Hq as [->|Hq].
      * by left.
      * right. eauto.
Qed.

Lemma move_subseteq h T X c : edge_closed h X → T ⊆ X → move h T c ⊆ X.
Proof.
  intros HX HT q' Hq'. apply elem_of_move in Hq' as (q & Hq & Hq').
  by apply (HX q (HT q Hq)) in Hq'.
Qed.

Lemma is_closure_eps_closed h S C : is_closure h S C → eps_closed h C.
Proof.
  intros HC q q' Hq Hq'. apply HC in Hq as (p & Hp & Hreach). apply HC.
  exists p. split; [done|].
  eapply eps_reach_trans; [done|by apply eps_reach_edge].
Qed.

Lemma is_closure_reach h S C p q :
  is_closure h S C → p ∈ C → eps_reach h p q → q ∈ C.
Proof.
  intros HC Hp Hreach.
  eapply eps_closed_reach; [by eapply is_closure_eps_closed|done|done].
Qed.

Lemma is_closure_subseteq h S C : is_closure h S C → S ⊆ C.
Proof. intros HC q Hq. apply HC. exists q. split; [done|apply eps_reach_refl]. Qed.

Lemma find_Some_elem {A} (f : A → bool) l d :
  List.find f l = Some d → d ∈ l ∧ f d = true.
Proof. intros H. apply find_some in H as [H1 H2]. by apply list_elem_of_In in H1. Qed.

Lemma find_None_elem {A} (f : A → bool) l d :
  List.find f l = None → d ∈ l → f d = false.
Proof. intros H Hd. apply list_elem_of_In in Hd. by eapply find_none in H. Qed.

Lemma find_unique {A} (f : A → bool) l d :
  d ∈ l → f d = true → (∀ d', d' ∈ l → f d' = true → d' = d) →
  List.find f l = Some d.
Proof.
  intros Hd Hf Huniq. destruct (List.find f l) as [d'|] eqn:E.
  - apply find_Some_elem in E as [H1 H2]. f_equal. by apply Huniq.
  - by rewrite (find_None_elem f l d E Hd) in Hf.
Qed.

Lemma lookup_key_Some key ds d :
  lookup_key key ds = Some d → d ∈ ds ∧ nfa_states d = key.
Proof.
  intros H. apply find_Some_elem in H as [H1 H2].
  by apply bool_decide_eq_true in H2.
Qed.

Lemma lookup_key_None key ds :
  lookup_key key ds = None → key ∉ nfa_states <$> ds.
Proof.
  intros H Hin. apply list_elem_of_fmap in Hin as (d & -> & Hd).
  pose proof (find_None_elem _ _ d H Hd) as Hf.
  by apply bool_decide_eq_false in Hf.
Qed.

Lemma lookup_key_last key ds d :
  lookup_key key ds = None → nfa_states d = key →
  lookup_key key (ds ++ [d]) = Some d.
Proof.
  intros Hnone Hd. unfold lookup_key in *.
  induction ds as [|x ds IH]; simpl in *.
  - by rewrite bool_decide_eq_true_2.
  - destruct (bool_decide (nfa_states x = key)); [done|]. by apply IH.
Qed.

Lemma lookup_id_Some i ds d :
  lookup_id i ds = Some d → d ∈ ds ∧ dfa_id d = i.
Proof.
  intros H. apply find_Some_elem in H as [H1 H2].
  by apply Nat.eqb_eq in H2.
Qed.

Lemma with_transition_id i c t d : dfa_id (with_transition i c t d) = dfa_id d.
Proof. unfold with_transition. by destruct (dfa_id d =? i)%nat. Qed.

Lemma with_transition_key i c t d :
  nfa_states (with_transition i c t d) = nfa_states d.
Proof. unfold with_transition. by destruct (dfa_id d =? i)%nat. Qed.

Lemma with_transition_accept i c t d :
  is_accept (with_transition i c t d) = is_accept d.
Proof. unfold with_transition. by destruct (dfa_id d =? i)%nat. Qed.

Lemma with_transition_lookup i c t d c' :
  transitions (with_transition i c t d) !! c'
  = if decide (dfa_id d = i ∧ c = c') then Some t else transitions d !! c'.
Proof.
  unfold with_transition. destruct (Nat.eqb_spec (dfa_id d) i) as [Heq|Hne]; simpl.
  - rewrite lookup_insert. destruct (decide (c = c')).
    + by rewrite decide_True.
    + rewrite decide_False; [done|]. by intros [_ ?].
  - rewrite decide_False; [done|]. by intros [? _].
Qed.

Lemma elem_of_set_transition i c t ds d :
  d ∈ set_transition i c t ds ↔ ∃ d', d = with_transition i c t d' ∧ d' ∈ ds.
Proof. unfold set_transition. apply (list_elem_of_fmap (with_transition i c t)). Qed.

Lemma set_transition_keys i c t ds :
  nfa_states <$> set_transition i c t ds = nfa_states <$> ds.
Proof.
  unfold set_transition. induction ds as [|d ds IH]; simpl; [done|].
  rewrite with_transition_key. f_equal. apply IH.
Qed.

Lemma set_transition_length i c t ds :
  length (set_transition i c t ds) = length ds.
Proof. unfold set_transition. apply length_map. Qed.

(** Distinct subsets of a finite set: there are at most [2 ^ size X]. *)
Lemma subsets_bound (X : gset nat) : ∀ l : list (gset nat),
  NoDup l → (∀ T, T ∈ l → T ⊆ X) → length l ≤ 2 ^ size X.
Proof.
  induction X as [|x X Hx IH] using set_ind_L; intros l Hnd Hsub.
  - rewrite size_empty. simpl.
    destruct l as [|T1 [|T2 l]]; simpl; [lia|lia|].
    exfalso. apply NoDup_cons in Hnd as [Hnotin _]. apply Hnotin.
    assert (T1 = ∅) as -> by (specialize (Hsub T1); set_solver).
    assert (T2 = ∅) as -> by (specialize (Hsub T2); set_solver).
    set_solver.
  - rewrite size_union, size_singleton by set_solver.
    change (2 ^ (1 + size X)) with (2 * 2 ^ size X).
    set (l1 := filter (λ T, x ∈ T) l).
    set (l2 := filter (λ T, x ∉ T) l).
    assert (length l = length l1 + length l2) as ->.
    { subst l1 l2. clear. induction l as [|T l IHl]; simpl; [done|].
      rewrite !filter_cons.
      destruct (decide (x ∈ T)), (decide (x ∉ T)); simpl; (done || lia). }
    assert (length l1 ≤ 2 ^ size X).
    { rewrite <- (length_fmap (λ T, T ∖ {[x]})). apply IH.
      - apply NoDup_fmap_2_strong; [|by apply NoDup_filter].
        intros T1 T2 H1 H2 Heq.
        apply list_elem_of_filter in H1 as [H1 _].
        apply list_elem_of_filter in H2 as [H2 _].
        apply set_eq. intros y. destruct (decide (y = x)) as [->|Hne]; [done|].
        assert (y ∈ T1 ∖ {[x]} ↔ y ∈ T2 ∖ {[x]}) as Hy by by rewrite Heq.
        set_solver.
      - intros T HT. apply list_elem_of_fmap in HT as (T' & -> & HT').
        apply list_elem_of_filter in HT' as [_ HT'].
        specialize (Hsub T' HT'). set_solver. }
    assert (length l2 ≤ 2 ^ size X).
    { apply IH; [by apply NoDup_filter|].
      intros T HT. apply list_elem_of_filter in HT as [Hnx HT].
      specialize (Hsub T HT). set_solver. }
    lia.
Qed.

(** ** Subset construction: the loop invariant *)

Section subset_construction.
Variables (h : gmap nat State) (nfa : NFA) (alphabet : list ascii).
Variables (X : gset nat) (d0 fuel : nat).
Hypothesis Hstart : start nfa ∈ X.
Hypothesis HX : edge_closed h X.
Hypothesis Hfuel : size X < fuel.

(** What holds of the dict and the worklist at every point of a run that
    started with [DFAState._id_counter = d0]. *)
Record dfa_wf (w : dworld) : Prop := {
  wf_ids : ∀ k d, dfa_states w !! k = Some d → dfa_id d = d0 + k;
  wf_counter : dfa_counter w = d0 + length (dfa_states w);
  wf_keys : NoDup (nfa_states <$> dfa_states w);
  wf_sub : ∀ d, d ∈ dfa_states w → nfa_states d ⊆ X;
  wf_accept : ∀ d, d ∈ dfa_states w →
    is_accept d = bool_decide (accept nfa ∈ nfa_states d);
  wf_closed : ∀ d, d ∈ dfa_states w → eps_closed h (nfa_states d);
  wf_start : ∃ d, head (dfa_states w) = Some d
                  ∧ is_closure h {[start nfa]} (nfa_states d);
  wf_trans : ∀ d c j, d ∈ dfa_states w → transitions d !! c = Some j →
    c ∈ alphabet
    ∧ ∃ d', d' ∈ dfa_states w ∧ dfa_id d' = j
            ∧ is_closure h (move h (nfa_states d) c) (nfa_states d');
  wf_unmarked : ∀ i, i ∈ unmarked w → ∃ d, d ∈ dfa_states w ∧ dfa_id d = i;
  wf_reach : ∀ d, d ∈ dfa_states w →
    dfa_reachable h nfa alphabet (nfa_states d)
}.

(** The state [d] has its transition on every symbol of [syms] that
    leads to a non-empty subset. *)
Definition complete_on (d : DFAState) (syms : list ascii) : Prop :=
  ∀ c C, c ∈ syms → is_closure h (move h (nfa_states d) c) C → C ≠ ∅ →
         is_Some (transitions d !! c).

(** All states off the worklist are complete, but for the state [cur]
    under work, which is complete on the symbols [done]. *)
Definition inner_inv (cur : nat) (done : list ascii) (w : dworld) : Prop :=
  dfa_wf w
  ∧ (∀ d, d ∈ dfa_states w → dfa_id d ∉ unmarked w → dfa_id d ≠ cur →
          complete_on d alphabet)
  ∧ (∀ d, d ∈ dfa_states w → dfa_id d = cur → complete_on d done).

Definition outer_inv (w : dworld) : Prop :=
  dfa_wf w
  ∧ (∀ d, d ∈ dfa_states w → dfa_id d ∉ unmarked w → complete_on d alphabet).

Lemma delta_exists T c :
  T ⊆ X →
  ∃ C, epsilon_closure fuel h (move h T c) = Some C
       ∧ is_closure h (move h T c) C ∧ C ⊆ X.
Proof.
  intros HT. apply (epsilon_closure_spec h (move h T c) X fuel).
  - by apply move_subseteq.
  - by apply edge_closed_eps.
  - done.
Qed.

Lemma dfa_wf_id_inj w d d' :
  dfa_wf w → d ∈ dfa_states w → d' ∈ dfa_states w →
  dfa_id d = dfa_id d' → d = d'.
Proof.
  intros Hwf Hd Hd' Heq.
  apply list_elem_of_lookup in Hd as [k Hk].
  apply list_elem_of_lookup in Hd' as [k' Hk'].
  rewrite (wf_ids w Hwf k d Hk), (wf_ids w Hwf k' d' Hk') in Heq.
  assert (k = k') as -> by lia. congruence.
Qed.

Lemma dfa_wf_key_inj w d d' :
  dfa_wf w → d ∈ dfa_states w → d' ∈ dfa_states w →
  nfa_states d = nfa_states d' → d = d'.
Proof.
  intros Hwf Hd Hd' Heq.
  apply list_elem_of_lookup in Hd as [k Hk].
  apply list_elem_of_lookup in Hd' as [k' Hk'].
  assert (k = k') as ->; [|congruence].
  eapply (NoDup_lookup _ k k' (nfa_states d) (wf_keys w Hwf)).
  - by rewrite list_lookup_fmap, Hk.
  - by rewrite list_lookup_fmap, Hk', Heq.
Qed.

Lemma lookup_id_elem w d :
  dfa_wf w → d ∈ dfa_states w → lookup_id (dfa_id d) (dfa_states w) = Some d.
Proof.
  intros Hwf Hd. apply find_unique; [done|by apply Nat.eqb_eq|].
  intros d' Hd' Heq. apply Nat.eqb_eq in Heq.
  by apply (dfa_wf_id_inj w).
Qed.

Lemma lookup_key_elem w d :
  dfa_wf w → d ∈ dfa_states w →
  lookup_key (nfa_states d) (dfa_states w) = Some d.
Proof.
  intros Hwf Hd. apply find_unique; [done|by apply bool_decide_eq_true|].
  intros d' Hd' Heq. apply bool_decide_eq_true in Heq.
  by apply (dfa_wf_key_inj w).
Qed.

(** Creating the state of a new subset [C] keeps the invariant. *)
Lemma dfa_wf_add w C :
  dfa_wf w → C ∉ nfa_states <$> dfa_states w → C ⊆ X → eps_closed h C →
  dfa_reachable h nfa alphabet C →
  dfa_wf (mkD (dfa_states w
                 ++ [mkDFAState (dfa_counter w) C ∅
                                (bool_decide (accept nfa ∈ C))])
              (dfa_counter w :: unmarked w) (S (dfa_counter w))).
Proof.
  intros Hwf Hnew HC Hcl Hreach. destruct Hwf. split; simpl.
  - intros k d Hk. apply lookup_app_Some in Hk as [Hk|[Hlen Hk]].
    + by apply wf_ids0.
    + destruct (k - length (dfa_states w)) as [|n] eqn:E; simpl in Hk; [|done].
      injection Hk as <-. simpl. lia.
  - rewrite length_app. simpl. lia.
  - rewrite fmap_app. apply NoDup_app. split; [done|]. split.
    + intros T HT HT'. simpl in HT'. apply list_elem_of_singleton in HT'.
      by subst.
    + simpl. apply NoDup_singleton.
  - intros d Hd. apply elem_of_app in Hd as [Hd|Hd]; [by apply wf_sub0|].
    apply list_elem_of_singleton in Hd as ->. done.
  - intros d Hd. apply elem_of_app in Hd as [Hd|Hd]; [by apply wf_accept0|].
    apply list_elem_of_singleton in Hd as ->. done.
  - intros d Hd. apply elem_of_app in Hd as [Hd|Hd]; [by apply wf_closed0|].
    apply list_elem_of_singleton in Hd as ->. done.
  - destruct wf_start0 as (d & Hhead & Hd). exists d. split; [|done].
    destruct (dfa_states w); simpl in *; done.
  - intros d c j Hd Hj. apply elem_of_app in Hd as [Hd|Hd].
    + destruct (wf_trans0 d c j Hd Hj) as (Hc & d' & Hd' & Hid & Hcl').
      split; [done|]. exists d'. split; [|done].
      apply elem_of_app. by left.
    + apply list_elem_of_singleton in Hd as ->. simpl in Hj.
      by rewrite lookup_empty in Hj.
  - intros i Hi. apply elem_of_cons in Hi as [->|Hi].
    + eexists. split; [apply elem_of_app; right; apply list_elem_of_singleton; done|].
      done.
    + destruct (wf_unmarked0 i Hi) as (d & Hd & Hid).
      exists d. split; [|done]. apply elem_of_app. by left.
  - intros d Hd. apply elem_of_app in Hd as [Hd|Hd]; [by apply wf_reach0|].
    apply list_elem_of_singleton in Hd as ->. done.
Qed.

(** Recording a transition of [cur] to the state of the subset reached
    keeps the invariant. *)
Lemma dfa_wf_set w cur symbol target :
  dfa_wf w → symbol ∈ alphabet → target ∈ dfa_states w →
  (∀ d, d ∈ dfa_states w → dfa_id d = cur →
        is_closure h (move h (nfa_states d) symbol) (nfa_states target)) →
  dfa_wf (mkD (set_transition cur symbol (dfa_id target) (dfa_states w))
              (unmarked w) (dfa_counter w)).
Proof.
  intros Hwf Hsym Htarget Hcur. destruct Hwf. split; simpl.
  - intros k d Hk. unfold set_transition in Hk.
    change (map ?f ?l) with (f <$> l) in Hk.
    rewrite list_lookup_fmap in Hk.
    destruct (dfa_states w !! k) as [d'|] eqn:E; simpl in Hk; [|done].
    injection Hk as <-. rewrite with_transition_id. by apply wf_ids0.
  - by rewrite set_transition_length.
  - by rewrite set_transition_keys.
  - intros d Hd. apply elem_of_set_transition in Hd as (d' & -> & Hd').
    rewrite with_transition_key. by apply wf_sub0.
  - intros d Hd. apply elem_of_set_transition in Hd as (d' & -> & Hd').
    rewrite with_transition_key, with_transition_accept. by apply wf_accept0.
  - intros d Hd. apply elem_of_set_transition in Hd as (d' & -> & Hd').
    rewrite with_transition_key. by apply wf_closed0.
  - destruct wf_start0 as (d & Hhead & Hd).
    exists (with_transition cur symbol (dfa_id target) d). split.
    + destruct (dfa_states w); simpl in *; [done|]. by injection Hhead as ->.
    + by rewrite with_transition_key.
  - intros d c j Hd Hj. apply elem_of_set_transition in Hd as (d' & -> & Hd').
    rewrite with_transition_lookup in Hj. rewrite with_transition_key.
    destruct (decide (dfa_id d' = cur ∧ symbol = c)) as [[Hid <-]|Hno].
    + injection Hj as <-. split; [done|].
      exists (with_transition cur symbol (dfa_id target) target).
      split; [apply elem_of_set_transition; eauto|].
      rewrite with_transition_id, with_transition_key. split; [done|].
      by apply Hcur.
    + destruct (wf_trans0 d' c j Hd' Hj) as (Hc & d'' & Hd'' & Hid & Hcl').
      split; [done|].
      exists (with_transition cur symbol (dfa_id target) d'').
      split; [apply elem_of_set_transition; eauto|].
      by rewrite with_transition_id, with_transition_key.
  - intros i Hi. destruct (wf_unmarked0 i Hi) as (d & Hd & Hid).
    exists (with_transition cur symbol (dfa_id target) d).
    split; [apply elem_of_set_transition; eauto|].
    by rewrite with_transition_id.
  - intros d Hd. apply elem_of_set_transition in Hd as (d' & -> & Hd').
    rewrite with_transition_key. by apply wf_reach0.
Qed.

Lemma complete_on_with_transition i c t d syms :
  complete_on d syms → complete_on (with_transition i c t d) syms.
Proof.
  intros Hd c' C Hc' HC Hne. rewrite with_transition_key in HC.
  rewrite with_transition_lookup.
  destruct (decide (dfa_id d = i ∧ c = c')); [done|]. by eapply Hd.
Qed.

Lemma dfa_wf_id_lt w d :
  dfa_wf w → d ∈ dfa_states w → dfa_id d < dfa_counter w.
Proof.
  intros Hwf Hd. apply list_elem_of_lookup in Hd as [k Hk].
  rewrite (wf_ids w Hwf k d Hk), (wf_counter w Hwf).
  apply lookup_lt_Some in Hk. lia.
Qed.

Lemma inner_inv_add cur done w C :
  inner_inv cur done w →
  (∃ d, d ∈ dfa_states w ∧ dfa_id d = cur) →
  C ∉ nfa_states <$> dfa_states w → C ⊆ X → eps_closed h C →
  dfa_reachable h nfa alphabet C →
  inner_inv cur done
    (mkD (dfa_states w
            ++ [mkDFAState (dfa_counter w) C ∅ (bool_decide (accept nfa ∈ C))])
         (dfa_counter w :: unmarked w) (S (dfa_counter w))).
Proof.
  intros (Hwf & Hothers & Hcur) (dc & Hdc & Hid) Hnew HC Hcl Hreach.
  split; [by apply dfa_wf_add|]. simpl. split.
  - intros d Hd Hum Hne. apply elem_of_app in Hd as [Hd|Hd].
    + apply Hothers; [done| |done]. set_solver.
    + apply list_elem_of_singleton in Hd as ->. simpl in Hum. set_solver.
  - intros d Hd Hdid. apply elem_of_app in Hd as [Hd|Hd]; [by apply Hcur|].
    apply list_elem_of_singleton in Hd as ->. simpl in Hdid.
    pose proof (dfa_wf_id_lt w dc Hwf Hdc). lia.
Qed.

Lemma inner_inv_set cur done w symbol subset target :
  inner_inv cur done w → symbol ∈ alphabet →
  (∃ d, d ∈ dfa_states w ∧ dfa_id d = cur ∧ nfa_states d = subset) →
  target ∈ dfa_states w →
  is_closure h (move h subset symbol) (nfa_states target) →
  inner_inv cur (done ++ [symbol])
    (mkD (set_transition cur symbol (dfa_id target) (dfa_states w))
         (unmarked w) (dfa_counter w)).
Proof.
  intros (Hwf & Hothers & Hcur) Hsym (dc & Hdc & Hid & Hkey) Htarget HC.
  split; [|split]; simpl.
  - apply dfa_wf_set; try done.
    intros d Hd Hdid. rewrite <- Hid in Hdid.
    by rewrite (dfa_wf_id_inj w d dc Hwf Hd Hdc Hdid), Hkey.
  - intros d Hd Hum Hne. apply elem_of_set_transition in Hd as (d' & -> & Hd').
    rewrite with_transition_id in Hum, Hne.
    apply complete_on_with_transition. by apply Hothers.
  - intros d Hd Hdid. apply elem_of_set_transition in Hd as (d' & -> & Hd').
    rewrite with_transition_id in Hdid.
    intros c C Hc HC' Hne. apply elem_of_app in Hc as [Hc|Hc].
    + by apply (complete_on_with_transition _ _ _ _ done (Hcur d' Hd' Hdid) c C).
    + apply list_elem_of_singleton in Hc as ->.
      rewrite with_transition_lookup, decide_True; done.
Qed.

Lemma dfa_symbol_step_inv cur subset done w symbol :
  inner_inv cur done w → symbol ∈ alphabet →
  (∃ d, d ∈ dfa_states w ∧ dfa_id d = cur ∧ nfa_states d = subset) →
  ∃ w', dfa_symbol_step fuel h nfa cur subset w symbol = Some w'
        ∧ inner_inv cur (done ++ [symbol]) w'
        ∧ (∃ d, d ∈ dfa_states w' ∧ dfa_id d = cur ∧ nfa_states d = subset)
        ∧ length (dfa_states w') + length (unmarked w)
          = length (dfa_states w) + length (unmarked w').
Proof.
  intros Hinv Hsym Hdc.
  assert (Hinv' := Hinv). destruct Hinv' as (Hwf & Hothers & Hcur).
  assert (Hdc' := Hdc). destruct Hdc' as (dc & Hdc' & Hid & Hkey).
  assert (subset ⊆ X) as Hsub by (rewrite <- Hkey; by apply (wf_sub w Hwf)).
  destruct (delta_exists subset symbol Hsub) as (C & Hrun & HC & HCX).
  unfold dfa_symbol_step. rewrite Hrun. simpl.
  destruct (decide (C = ∅)) as [Hempty|Hne].
  { exists w. split; [done|]. split; [|split; [done|lia]].
    split; [done|]. split; [done|].
    intros d Hd Hdid c C' Hc HC' Hne'. apply elem_of_app in Hc as [Hc|Hc].
    - by apply (Hcur d Hd Hdid c C').
    - apply list_elem_of_singleton in Hc as ->. rewrite <- Hid in Hdid.
      rewrite (dfa_wf_id_inj w d dc Hwf Hd Hdc' Hdid), Hkey in HC'.
      by rewrite (is_closure_unique _ _ _ _ HC' HC) in Hne'. }
  destruct (lookup_key C (dfa_states w)) as [target|] eqn:E.
  - rewrite E. simpl. apply lookup_key_Some in E as [Htarget HtC].
    eexists. split; [done|]. split; [|split].
    + apply (inner_inv_set cur done w symbol subset); try done.
      by rewrite HtC.
    + exists (with_transition cur symbol (dfa_id target) dc). simpl.
      rewrite with_transition_id, with_transition_key.
      split; [apply elem_of_set_transition; eauto|done].
    + simpl. rewrite set_transition_length. lia.
  - set (new := mkDFAState (dfa_counter w) C ∅ (bool_decide (accept nfa ∈ C))).
    simpl. rewrite (lookup_key_last C (dfa_states w) new E eq_refl). simpl.
    apply lookup_key_None in E.
    assert (dfa_reachable h nfa alphabet C) as Hreach.
    { apply (reach_step h nfa alphabet subset symbol C); try done.
      rewrite <- Hkey. by apply (wf_reach w Hwf). }
    pose proof (inner_inv_add cur done w C Hinv ltac:(eauto) E HCX
                  (is_closure_eps_closed _ _ _ HC) Hreach) as Hinv1.
    fold new in Hinv1.
    eexists. split; [done|]. split; [|split].
    + pose proof (inner_inv_set cur done _ symbol subset new Hinv1 Hsym)
        as Hset. simpl in Hset. apply Hset; try done.
      * exists dc. split; [apply elem_of_app; by left|done].
      * apply elem_of_app. right. by apply list_elem_of_singleton.
    + exists (with_transition cur symbol (dfa_id new) dc). simpl.
      rewrite with_transition_id, with_transition_key. split; [|done].
      apply elem_of_set_transition. exists dc. split; [done|].
      apply elem_of_app. by left.
    + simpl. rewrite set_transition_length, length_app. simpl. lia.
Qed.

Lemma dfa_symbols_inv cur subset : ∀ rest done w,
  inner_inv cur done w → (∀ c, c ∈ rest → c ∈ alphabet) →
  (∃ d, d ∈ dfa_states w ∧ dfa_id d = cur ∧ nfa_states d = subset) →
  ∃ w', dfa_symbols fuel h nfa cur subset w rest = Some w'
        ∧ inner_inv cur (done ++ rest) w'
        ∧ length (dfa_states w') + length (unmarked w)
          = length (dfa_states w) + length (unmarked w').
Proof.
  induction rest as [|c rest IH]; intros done w Hinv Hrest Hdc; simpl.
  - exists w. rewrite app_nil_r. done.
  - destruct (dfa_symbol_step_inv cur subset done w c Hinv) as
      (w1 & Hstep & Hinv1 & Hdc1 & Hlen1); [set_solver|done|].
    rewrite Hstep. simpl.
    destruct (IH (done ++ [c]) w1 Hinv1) as (w' & Hrun & Hinv' & Hlen');
      [set_solver|done|].
    exists w'. split; [done|]. rewrite <- app_assoc in Hinv'.
    split; [done|lia].
Qed.

Lemma dfa_states_bound w : dfa_wf w → length (dfa_states w) ≤ 2 ^ size X.
Proof.
  intros Hwf. rewrite <- (length_fmap nfa_states).
  apply subsets_bound; [by apply (wf_keys w)|].
  intros T HT. apply list_elem_of_fmap in HT as (d & -> & Hd).
  by apply (wf_sub w).
Qed.

Lemma nfa_to_dfa_loop_terminates fuel_outer : ∀ w,
  outer_inv w →
  2 ^ size X + length (unmarked w) < fuel_outer + length (dfa_states w) →
  ∃ w', nfa_to_dfa_loop fuel_outer fuel h nfa alphabet w = Some w'
        ∧ outer_inv w' ∧ unmarked w' = [].
Proof.
  induction fuel_outer as [|fuel_outer IH]; intros w Hinv Hmeasure.
  - pose proof (dfa_states_bound w (proj1 Hinv)). lia.
  - destruct w as [ds um cnt]. destruct um as [|cur rest]; simpl in *.
    + eauto.
    + destruct Hinv as (Hwf & Hcomplete).
      destruct (wf_unmarked _ Hwf cur) as (dc & Hdc & Hid); [set_solver|].
      simpl in *. rewrite <- Hid.
      pose proof (lookup_id_elem _ dc Hwf Hdc) as Hlook. simpl in Hlook.
      rewrite Hlook. simpl.
      destruct (dfa_symbols_inv (dfa_id dc) (nfa_states dc) alphabet []
                  (mkD ds rest cnt)) as (w' & Hrun & Hinv' & Hlen).
      * split; [|split]; simpl.
        -- destruct Hwf. split; simpl in *; try done.
           intros i Hi. apply wf_unmarked0. set_solver.
        -- intros d Hd Hum Hne. apply Hcomplete; [done|]. simpl.
           rewrite <- Hid. set_solver.
        -- intros d _ _ c C Hc. by apply elem_of_nil in Hc.
      * done.
      * simpl. eauto.
      * rewrite Hrun. simpl in *. apply IH.
        -- destruct Hinv' as (Hwf' & Hothers & Hcur). split; [done|].
           intros d Hd Hum.
           destruct (decide (dfa_id d = dfa_id dc)) as [Heq|Hne].
           ++ by apply Hcur.
           ++ by apply Hothers.
        -- lia.
Qed.

(** The invariant at the start of [nfa_to_dfa]. *)
Lemma outer_inv_init C :
  is_closure h {[start nfa]} C → C ⊆ X →
  outer_inv (mkD [mkDFAState d0 C ∅ (bool_decide (accept nfa ∈ C))]
                 [d0] (S d0)).
Proof.
  intros HC HCX. split; [split|]; simpl.
  - intros [|k] d Hk; simpl in Hk; [|done]. injection Hk as <-. simpl. lia.
  - lia.
  - apply NoDup_singleton.
  - intros d Hd. by apply list_elem_of_singleton in Hd as ->.
  - intros d Hd. by apply list_elem_of_singleton in Hd as ->.
  - intros d Hd. apply list_elem_of_singleton in Hd as ->. simpl.
    by eapply is_closure_eps_closed.
  - eauto.
  - intros d c j Hd Hj. apply list_elem_of_singleton in Hd as ->.
    simpl in Hj. by rewrite lookup_empty in Hj.
  - intros i Hi. apply list_elem_of_singleton in Hi as ->.
    eexists. split; [by apply list_elem_of_singleton|done].
  - intros d Hd. apply list_elem_of_singleton in Hd as ->. simpl.
    apply reach_start. intros q. rewrite (HC q). set_solver.
  - intros d Hd Hum. apply list_elem_of_singleton in Hd as ->.
    simpl in Hum. set_solver.
Qed.

(** The result of a run with enough fuel. *)
Definition dfa_final (ds : list DFAState) (counter : nat) : Prop :=
  outer_inv (mkD ds [] counter).

Lemma nfa_to_dfa_terminates :
  2 ^ size X < fuel →
  ∃ ds counter, nfa_to_dfa fuel h nfa alphabet d0 = Some (ds, counter)
                ∧ dfa_final ds counter.
Proof.
  intros Hfuel2. unfold nfa_to_dfa.
  destruct (epsilon_closure_spec h {[start nfa]} X fuel)
    as (C & Hrun & HC & HCX); [set_solver|by apply edge_closed_eps|done|].
  rewrite Hrun. simpl.
  destruct (nfa_to_dfa_loop_terminates fuel _ (outer_inv_init C HC HCX))
    as (w' & Hloop & Hinv & Hum); [simpl; lia|].
  rewrite Hloop. simpl. exists (dfa_states w'), (dfa_counter w').
  split; [done|]. unfold dfa_final. destruct w'. simpl in *. by subst.
Qed.

Lemma nfa_path_cons_inv q c s a :
  nfa_path h q (c :: s) a →
  ∃ q1 q2, eps_reach h q q1 ∧ q2 ∈ edges_of h q1 c ∧ nfa_path h q2 s a.
Proof.
  intros H. remember (c :: s) as cs eqn:Hcs.
  induction H as [q|q q' s' a Hstep Hpath IH|q c' q' s' a Hstep Hpath _].
  - done.
  - destruct (IH Hcs) as (q1 & q2 & Hreach & Hedge & Hrest).
    exists q1, q2. split; [|done]. eapply path_eps; eauto.
  - injection Hcs as -> ->. exists q, q'. split; [apply eps_reach_refl|done].
Qed.

(** From a closed subset, reading [c] leads exactly to the closure of the
    move. *)
Lemma subset_step T C c s a :
  eps_closed h T → is_closure h (move h T c) C →
  (∃ q, q ∈ T ∧ nfa_path h q (c :: s) a) ↔ (∃ q', q' ∈ C ∧ nfa_path h q' s a).
Proof.
  intros HT HC. split.
  - intros (q & Hq & Hpath).
    apply nfa_path_cons_inv in Hpath as (q1 & q2 & Hreach & Hedge & Hrest).
    exists q2. split; [|done]. apply HC. exists q2.
    split; [|apply eps_reach_refl]. apply elem_of_move. exists q1.
    split; [|done]. eapply eps_closed_reach; eauto.
  - intros (q' & Hq' & Hpath). apply HC in Hq' as (p & Hp & Hreach).
    apply elem_of_move in Hp as (q & Hq & Hedge). exists q. split; [done|].
    eapply path_sym; [done|]. exact (nfa_path_app h p [] q' s a Hreach Hpath).
Qed.

(** The driver, started in the state of a subset, accepts exactly the
    strings the NFA accepts from some node of the subset. *)
Lemma dfa_run_correct ds counter :
  dfa_final ds counter →
  ∀ s, (∀ c, c ∈ s → c ∈ alphabet) → ∀ d, d ∈ ds →
    dfa_run ds (dfa_id d) s = true
    ↔ ∃ q, q ∈ nfa_states d ∧ nfa_path h q s (accept nfa).
Proof.
  intros (Hwf & Hcomplete). simpl in *.
  induction s as [|c s IH]; intros Hs d Hd.
  - simpl. pose proof (lookup_id_elem _ d Hwf Hd) as Hlook. simpl in Hlook.
    rewrite Hlook, (wf_accept _ Hwf d Hd), bool_decide_eq_true. split.
    + intros Hacc. exists (accept nfa). split; [done|apply path_refl].
    + intros (q & Hq & Hpath).
      eapply eps_closed_reach; [by apply (wf_closed _ Hwf d Hd)|done|done].
  - simpl. pose proof (lookup_id_elem _ d Hwf Hd) as Hlook. simpl in Hlook.
    rewrite Hlook. destruct (transitions d !! c) as [j|] eqn:Hj.
    + destruct (wf_trans _ Hwf d c j Hd Hj) as (Hc & d' & Hd' & <- & HC).
      simpl in Hd'. rewrite (IH ltac:(set_solver) d' Hd').
      symmetry. apply subset_step; [|done]. by apply (wf_closed _ Hwf d Hd).
    + split; [done|]. intros Hex. exfalso.
      assert (nfa_states d ⊆ X) as HdX by by apply (wf_sub _ Hwf).
      destruct (delta_exists (nfa_states d) c HdX) as (C & _ & HC & _).
      apply (subset_step _ C c s (accept nfa) (wf_closed _ Hwf d Hd) HC) in Hex
        as (q' & Hq' & _).
      destruct (Hcomplete d Hd ltac:(set_solver) c C); try done.
      * apply Hs. by left.
      * set_solver.
      * congruence.
Qed.

Lemma dfa_accepts_correct ds counter s :
  dfa_final ds counter → (∀ c, c ∈ s → c ∈ alphabet) →
  dfa_accepts ds s = true ↔ nfa_accepts h nfa s.
Proof.
  intros Hfinal Hs. assert (Hwf := proj1 Hfinal).
  destruct (wf_start _ Hwf) as (d & Hhead & HC). simpl in Hhead.
  destruct ds as [|d' ds]; simpl in Hhead; [done|]. injection Hhead as ->.
  unfold dfa_accepts. rewrite (dfa_run_correct _ counter Hfinal s Hs d);
    [|by left].
  unfold nfa_accepts. split.
  - intros (q & Hq & Hpath). apply HC in Hq as (p & Hp & Hreach).
    apply elem_of_singleton in Hp as ->.
    exact (nfa_path_app h _ [] q s _ Hreach Hpath).
  - intros Hpath. exists (start nfa). split; [|done].
    apply (is_closure_subseteq _ _ _ HC). set_solver.
Qed.

(** Every subset the construction has to visit has its state. *)
Lemma dfa_final_reachable ds counter C :
  dfa_final ds counter → dfa_reachable h nfa alphabet C →
  ∃ d, d ∈ ds ∧ nfa_states d = C.
Proof.
  intros (Hwf & Hcomplete) Hreach. simpl in *.
  induction Hreach as [C HC|T c C _ (d & Hd & <-) Hc HC Hne].
  - destruct (wf_start _ Hwf) as (d & Hhead & Hd). exists d. split.
    + simpl in Hhead. destruct ds; simpl in *; [done|].
      injection Hhead as ->. by left.
    + apply set_eq. intros q. rewrite (HC q), (Hd q). set_solver.
  - destruct (Hcomplete d Hd ltac:(set_solver) c C Hc HC Hne) as [j Hj].
    destruct (wf_trans _ Hwf d c j Hd Hj) as (_ & d' & Hd' & _ & HC').
    exists d'. split; [done|]. by apply (is_closure_unique h _ _ _ HC' HC).
Qed.

Lemma dfa_final_head ds counter :
  dfa_final ds counter →
  ∃ d rest, ds = d :: rest ∧ is_closure h {[start nfa]} (nfa_states d).
Proof.
  intros (Hwf & _). destruct (wf_start _ Hwf) as (d & Hhead & Hd).
  simpl in Hhead. destruct ds as [|d' rest]; simpl in *; [done|].
  injection Hhead as ->. eauto.
Qed.

End subset_construction.

(** ** Fuel is only a bound *)

Lemma dfa_symbol_step_mono fuel fuel' h nfa cur subset w symbol w' :
  dfa_symbol_step fuel h nfa cur subset w symbol = Some w' → fuel ≤ fuel' →
  dfa_symbol_step fuel' h nfa cur subset w symbol = Some w'.
Proof.
  unfold dfa_symbol_step. intros Hrun Hle.
  destruct (epsilon_closure fuel h (move h subset symbol)) as [C|] eqn:E;
    simpl in Hrun; [|done].
  by rewrite (epsilon_closure_mono _ _ _ _ _ E Hle).
Qed.

Lemma dfa_symbols_mono fuel fuel' h nfa cur subset alphabet : ∀ w w',
  dfa_symbols fuel h nfa cur subset w alphabet = Some w' → fuel ≤ fuel' →
  dfa_symbols fuel' h nfa cur subset w alphabet = Some w'.
Proof.
  induction alphabet as [|c rest IH]; intros w w' Hrun Hle; simpl in *; [done|].
  destruct (dfa_symbol_step fuel h nfa cur subset w c) as [w1|] eqn:E;
    simpl in Hrun; [|done].
  rewrite (dfa_symbol_step_mono _ _ _ _ _ _ _ _ _ E Hle). simpl. by apply IH.
Qed.

Lemma nfa_to_dfa_loop_mono fuel : ∀ fuel' fe fe' h nfa alphabet w w',
  nfa_to_dfa_loop fuel fe h nfa alphabet w = Some w' →
  fuel ≤ fuel' → fe ≤ fe' →
  nfa_to_dfa_loop fuel' fe' h nfa alphabet w = Some w'.
Proof.
  induction fuel as [|fuel IH]; intros fuel' fe fe' h nfa alphabet w w' Hrun Hle Hle'.
  - destruct w as [ds [|cur rest] cnt]; simpl in Hrun; [|done].
    destruct fuel'; simpl; done.
  - destruct fuel' as [|fuel']; [lia|].
    destruct w as [ds [|cur rest] cnt]; simpl in *; [done|].
    destruct (lookup_id cur ds) as [d|]; simpl in *; [|done].
    destruct (dfa_symbols fe h nfa cur (nfa_states d) (mkD ds rest cnt) alphabet)
      as [w1|] eqn:E; simpl in Hrun; [|done].
    rewrite (dfa_symbols_mono _ _ _ _ _ _ _ _ _ E Hle'). simpl.
    eapply IH; [done|lia|done].
Qed.

Lemma nfa_to_dfa_mono fuel fuel' h nfa alphabet counter r :
  nfa_to_dfa fuel h nfa alphabet counter = Some r → fuel ≤ fuel' →
  nfa_to_dfa fuel' h nfa alphabet counter = Some r.
Proof.
  unfold nfa_to_dfa. intros Hrun Hle.
  destruct (epsilon_closure fuel h {[start nfa]}) as [C|] eqn:E;
    simpl in Hrun; [|done].
  rewrite (epsilon_closure_mono _ _ _ _ _ E Hle). simpl.
  destruct (nfa_to_dfa_loop fuel fuel h nfa alphabet _) as [w|] eqn:E';
    simpl in Hrun; [|done].
  by rewrite (nfa_to_dfa_loop_mono _ _ _ _ _ _ _ _ _ E' Hle Hle).
Qed.

Lemma size_lt_pow2 n : n < 2 ^ n.
Proof. apply Nat.pow_gt_lin_r. lia. Qed.

(** The subset construction over a heap part [X] closed under edges:
    one result for all sufficient fuel, with the invariant of the end. *)
Lemma nfa_to_dfa_spec h nfa alphabet X d0 :
  start nfa ∈ X → edge_closed h X →
  ∃ ds counter,
    (∀ fuel, 2 ^ size X < fuel →
             nfa_to_dfa fuel h nfa alphabet d0 = Some (ds, counter))
    ∧ dfa_final h nfa alphabet X d0 ds counter.
Proof.
  intros Hstart HX.
  pose proof (size_lt_pow2 (size X)) as Hlt.
  destruct (nfa_to_dfa_terminates h nfa alphabet X d0 (S (2 ^ size X))
              Hstart HX ltac:(lia) ltac:(lia)) as (ds & counter & Hrun & Hfinal).
  exists ds, counter. split; [|done].
  intros fuel Hfuel. eapply nfa_to_dfa_mono; [done|lia].
Qed.

(** ** The set of reachable nodes *)

Lemma epsilon_of_flatten h q q' :
  q' ∈ epsilon_of (flatten h) q
  ↔ q' ∈ epsilon_of h q ∨ ∃ c, q' ∈ edges_of h q c.
Proof.
  unfold epsilon_of, edges_of, flatten. rewrite lookup_fmap.
  destruct (h !! q) as [st|]; simpl.
  - unfold all_successors. rewrite elem_of_app, list_elem_of_join.
    split; (intros [H|H]; [by left|right]).
    + destruct H as (ts & Hq' & Hts).
      apply list_elem_of_fmap in Hts as ([c ts'] & -> & Hc).
      apply elem_of_map_to_list in Hc. exists c. simpl in *. by rewrite Hc.
    + destruct H as (c & Hq'). destruct (edges st !! c) as [ts|] eqn:E;
        simpl in Hq'; [|by apply elem_of_nil in Hq'].
      exists ts. split; [done|]. apply list_elem_of_fmap.
      exists (c, ts). split; [done|]. by apply elem_of_map_to_list.
  - split; [intros H; by apply elem_of_nil in H|].
    intros [H|[c H]]; by apply elem_of_nil in H.
Qed.

Lemma reachable_flatten h p q : eps_reach (flatten h) p q ↔ reachable h p q.
Proof.
  split.
  - revert p q. apply (eps_reach_ind' (flatten h) (λ p q, reachable h p q)).
    + intros q. exists []. apply path_refl.
    + intros q q' q'' Hstep _ [s Hpath].
      apply epsilon_of_flatten in Hstep as [Hstep|[c Hstep]].
      * exists s. eapply path_eps; eauto.
      * exists (c :: s). eapply path_sym; eauto.
  - intros [s Hpath].
    induction Hpath as [q|p p' s q Hstep _ IH|p c p' s q Hstep _ IH].
    + apply eps_reach_refl.
    + eapply path_eps; [|exact IH]. apply epsilon_of_flatten. by left.
    + eapply path_eps; [|exact IH]. apply epsilon_of_flatten. right. eauto.
Qed.

Lemma reachable_set_exists h p : ∃ X : gset nat, ∀ q, q ∈ X ↔ reachable h p q.
Proof.
  destruct (is_closure_exists (flatten h) {[p]}) as (X & HX).
  exists X. intros q. rewrite (HX q), <- reachable_flatten. set_solver.
Qed.

Lemma nfa_path_snoc_eps h p s q q' :
  nfa_path h p s q → q' ∈ epsilon_of h q → nfa_path h p s q'.
Proof.
  intros Hpath Hstep. rewrite <- (app_nil_r s).
  eapply nfa_path_app; [done|]. by apply eps_reach_edge.
Qed.

Lemma nfa_path_snoc_sym h p s q c q' :
  nfa_path h p s q → q' ∈ edges_of h q c → nfa_path h p (s ++ [c]) q'.
Proof.
  intros Hpath Hstep. eapply nfa_path_app; [done|].
  eapply path_sym; [done|apply path_refl].
Qed.

Lemma reachable_set_closed h p X :
  (∀ q, q ∈ X ↔ reachable h p q) → p ∈ X ∧ edge_closed h X.
Proof.
  intros HX. split.
  - apply HX. exists []. apply path_refl.
  - intros q Hq. apply HX in Hq as [s Hpath]. split.
    + intros q' Hq'. apply HX. exists s. by eapply nfa_path_snoc_eps.
    + intros c q' Hq'. apply HX. exists (s ++ [c]). by eapply nfa_path_snoc_sym.
Qed.

(** ** Subset construction: keys, bound and start state *)

Lemma NoDup_fmap_filter_length {A B} `{EqDecision B} (f : A → B) (l : list A) x :
  NoDup (f <$> l) → x ∈ l → length (filter (λ y, f y = f x) l) = 1.
Proof.
  induction l as [|y l IH]; intros Hnd Hx; [by apply elem_of_nil in Hx|].
  rewrite fmap_cons in Hnd. apply NoDup_cons in Hnd as [Hy Hnd].
  rewrite filter_cons. apply elem_of_cons in Hx as [->|Hx].
  - rewrite decide_True by done. simpl. f_equal.
    destruct (filter (λ z, f z = f y) l) as [|z k] eqn:E; [done|].
    exfalso. assert (z ∈ filter (λ z, f z = f y) l) as Hz by (rewrite E; left).
    apply list_elem_of_filter in Hz as [Heq Hz].
    apply Hy. rewrite <- Heq. apply list_elem_of_fmap. eauto.
  - rewrite decide_False; [by apply IH|].
    intros Heq. apply Hy. rewrite Heq. apply list_elem_of_fmap. eauto.
Qed.

Lemma dfa_symbol_step_keys fuel h nfa cur subset w symbol w' :
  NoDup (nfa_states <$> dfa_states w) →
  dfa_symbol_step fuel h nfa cur subset w symbol = Some w' →
  NoDup (nfa_states <$> dfa_states w').
Proof.
  unfold dfa_symbol_step. intros Hnd Hstep.
  destruct (epsilon_closure fuel h (move h subset symbol)) as [C|];
    simpl in Hstep; [|done].
  destruct (decide (C = ∅)); [by injection Hstep as <-|].
  destruct (lookup_key C (dfa_states w)) as [target|] eqn:E.
  - rewrite E in Hstep. simpl in Hstep. injection Hstep as <-. simpl.
    by rewrite set_transition_keys.
  - simpl in Hstep.
    rewrite (lookup_key_last C _ (mkDFAState _ C _ _) E eq_refl) in Hstep.
    simpl in Hstep. injection Hstep as <-. simpl.
    rewrite set_transition_keys, fmap_app.
    apply NoDup_app. split; [done|]. split; [|apply NoDup_singleton].
    intros T HT HT'. simpl in HT'. apply list_elem_of_singleton in HT' as ->.
    by apply lookup_key_None in E.
Qed.

(** C5: within one construction no two DFA states share a subset key:
    the dict starts with one key, every iteration of the symbol loop
    keeps the keys pairwise distinct, the keys of the result are pairwise
    distinct, and every subset the construction has to visit is the key
    of exactly one state of the result. *)
Theorem dfa_subset_keys_injective (h : gmap nat State) (nfa : NFA)
    (alphabet : list ascii) (d0 : nat) :
  (∀ fuel cur subset w symbol w',
      NoDup (nfa_states <$> dfa_states w) →
      dfa_symbol_step fuel h nfa cur subset w symbol = Some w' →
      NoDup (nfa_states <$> dfa_states w'))
  ∧ ∃ fuel0 ds counter,
      (∀ fuel, fuel0 ≤ fuel →
               nfa_to_dfa fuel h nfa alphabet d0 = Some (ds, counter))
      ∧ NoDup (nfa_states <$> ds)
      ∧ (∀ C, dfa_reachable h nfa alphabet C →
              length (filter (λ d, nfa_states d = C) ds) = 1).
Proof.
  split; [intros; by eapply dfa_symbol_step_keys|].
  destruct (reachable_set_exists h (start nfa)) as [X HX].
  destruct (reachable_set_closed h _ X HX) as [Hstart Hclosed].
  destruct (nfa_to_dfa_spec h nfa alphabet X d0 Hstart Hclosed)
    as (ds & counter & Hrun & Hfinal).
  exists (S (2 ^ size X)), ds, counter. split; [|split].
  - intros fuel Hfuel. apply Hrun. lia.
  - apply (wf_keys _ _ _ _ _ _ (proj1 Hfinal)).
  - intros C HC.
    destruct (dfa_final_reachable _ _ _ _ _ (S (size X)) Hstart Hclosed
                ltac:(lia) _ _ _ Hfinal HC) as (d & Hd & <-).
    apply (NoDup_fmap_filter_length nfa_states); [|done].
    apply (wf_keys _ _ _ _ _ _ (proj1 Hfinal)).
Qed.

Lemma dfa_subset_keys_injective_witness :
  match dfa_symbol_step 8 (heap (store_after ["a"])) (mkNFA 0 1) 0 {[0]}
          (mkD [mkDFAState 0 {[0]} ∅ false] [] 1) "a" with
  | Some w' => NoDup (nfa_states <$> dfa_states w')
  | None => False
  end.
Proof.
  destruct (dfa_symbol_step 8 (heap (store_after ["a"])) (mkNFA 0 1) 0 {[0]}
              (mkD [mkDFAState 0 {[0]} ∅ false] [] 1) "a") as [w'|] eqn:E.
  - apply (proj1 (dfa_subset_keys_injective (heap (store_after ["a"]))
                    (mkNFA 0 1) ["a"] 0) 8 0 {[0]}
                 (mkD [mkDFAState 0 {[0]} ∅ false] [] 1) "a" w');
      [apply NoDup_singleton|exact E].
  - vm_compute in E. discriminate E.
Defined.

(** C6: [nfa_to_dfa] terminates on every NFA and alphabet, and it creates
    at most [2 ^ n] DFA states, [n] being the number of NFA nodes
    reachable from the start node. *)
Theorem nfa_to_dfa_terminates_within_bound (h : gmap nat State) (nfa : NFA)
    (alphabet : list ascii) (d0 : nat) :
  ∃ (X : gset nat) ds counter,
    (∀ q, q ∈ X ↔ reachable h (start nfa) q)
    ∧ (∀ fuel, 2 ^ size X < fuel →
               nfa_to_dfa fuel h nfa alphabet d0 = Some (ds, counter))
    ∧ length ds ≤ 2 ^ size X.
Proof.
  destruct (reachable_set_exists h (start nfa)) as [X HX].
  destruct (reachable_set_closed h _ X HX) as [Hstart Hclosed].
  destruct (nfa_to_dfa_spec h nfa alphabet X d0 Hstart Hclosed)
    as (ds & counter & Hrun & Hfinal).
  exists X, ds, counter. split; [done|]. split; [done|].
  apply (dfa_states_bound _ _ _ _ _ _ (proj1 Hfinal)).
Qed.

(** C10: the first element of the list [nfa_to_dfa] returns is the start
    state, the one whose subset is [epsilon_closure({nfa.start})]. *)
Theorem nfa_to_dfa_head_is_start (h : gmap nat State) (nfa : NFA)
    (alphabet : list ascii) (d0 : nat) :
  ∃ fuel0 d rest counter,
    ∀ fuel, fuel0 ≤ fuel →
      nfa_to_dfa fuel h nfa alphabet d0 = Some (d :: rest, counter)
      ∧ epsilon_closure fuel h {[start nfa]} = Some (nfa_states d)
      ∧ dfa_id d = d0.
Proof.
  destruct (reachable_set_exists h (start nfa)) as [X HX].
  destruct (reachable_set_closed h _ X HX) as [Hstart Hclosed].
  destruct (nfa_to_dfa_spec h nfa alphabet X d0 Hstart Hclosed)
    as (ds & counter & Hrun & Hfinal).
  destruct (dfa_final_head _ _ _ _ _ _ _ Hfinal) as (d & rest & -> & Hd).
  exists (S (2 ^ size X)), d, rest, counter. intros fuel Hfuel.
  split; [apply Hrun; lia|]. split.
  - pose proof (size_lt_pow2 (size X)).
    destruct (epsilon_closure_spec h {[start nfa]} X fuel)
      as (C & HrunC & HC & _); [set_solver|by apply edge_closed_eps|lia|].
    by rewrite HrunC, (is_closure_unique _ _ _ _ HC Hd).
  - rewrite (wf_ids _ _ _ _ _ _ (proj1 Hfinal) 0 d eq_refl). lia.
Qed.

(** ** Thompson builder: the heap operations *)

Lemma epsilon_of_new i h q :
  epsilon_of (heap_new i h) q = if decide (q = i) then [] else epsilon_of h q.
Proof.
  unfold epsilon_of, heap_new. destruct (decide (q = i)) as [->|Hne].
  - by rewrite lookup_insert_eq.
  - by rewrite lookup_insert_ne.
Qed.

Lemma edges_of_new i h q c :
  edges_of (heap_new i h) q c = if decide (q = i) then [] else edges_of h q c.
Proof.
  unfold edges_of, heap_new. destruct (decide (q = i)) as [->|Hne].
  - by rewrite lookup_insert_eq.
  - by rewrite lookup_insert_ne.
Qed.

Lemma alloc_new i h q :
  is_Some (heap_new i h !! q) ↔ q = i ∨ is_Some (h !! q).
Proof.
  unfold heap_new. destruct (decide (q = i)) as [->|Hne].
  - rewrite lookup_insert_eq. split; [by left|by eauto].
  - rewrite lookup_insert_ne by done. split; [by right|by intros [?|?]].
Qed.

Lemma epsilon_of_extend a ts h q :
  is_Some (h !! a) →
  epsilon_of (heap_extend_epsilon a ts h) q
  = if decide (q = a) then epsilon_of h a ++ ts else epsilon_of h q.
Proof.
  intros [st Hst]. unfold epsilon_of, heap_extend_epsilon.
  destruct (decide (q = a)) as [->|Hne].
  - by rewrite lookup_alter_eq, Hst.
  - by rewrite lookup_alter_ne.
Qed.

Lemma edges_of_extend a ts h q c :
  edges_of (heap_extend_epsilon a ts h) q c = edges_of h q c.
Proof.
  unfold edges_of, heap_extend_epsilon. destruct (decide (q = a)) as [->|Hne].
  - rewrite lookup_alter_eq. by destruct (h !! a).
  - by rewrite lookup_alter_ne.
Qed.

Lemma alloc_extend a ts h q :
  is_Some (heap_extend_epsilon a ts h !! q) ↔ is_Some (h !! q).
Proof.
  unfold heap_extend_epsilon. destruct (decide (q = a)) as [->|Hne].
  - rewrite lookup_alter_eq. by rewrite fmap_is_Some.
  - by rewrite lookup_alter_ne.
Qed.

Lemma epsilon_of_set_edge s c ts h q :
  epsilon_of (heap_set_edge s c ts h) q = epsilon_of h q.
Proof.
  unfold epsilon_of, heap_set_edge. destruct (decide (q = s)) as [->|Hne].
  - rewrite lookup_alter_eq. by destruct (h !! s).
  - by rewrite lookup_alter_ne.
Qed.

Lemma edges_of_set_edge s c ts h q c' :
  is_Some (h !! s) →
  edges_of (heap_set_edge s c ts h) q c'
  = if decide (q = s ∧ c' = c) then ts else edges_of h q c'.
Proof.
  intros [st Hst]. unfold edges_of, heap_set_edge.
  destruct (decide (q = s)) as [->|Hne].
  - rewrite lookup_alter_eq, Hst. simpl.
    destruct (decide (c' = c)) as [->|Hc].
    + rewrite lookup_insert_eq. by rewrite decide_True.
    + rewrite lookup_insert_ne by done. rewrite decide_False; [done|].
      by intros [_ ?].
  - rewrite lookup_alter_ne by done. rewrite decide_False; [done|].
    by intros [? _].
Qed.

Lemma alloc_set_edge s c ts h q :
  is_Some (heap_set_edge s c ts h !! q) ↔ is_Some (h !! q).
Proof.
  unfold heap_set_edge. destruct (decide (q = s)) as [->|Hne].
  - rewrite lookup_alter_eq. by rewrite fmap_is_Some.
  - by rewrite lookup_alter_ne.
Qed.

Lemma lookup_extend_ne a ts h q :
  q ≠ a → heap_extend_epsilon a ts h !! q = h !! q.
Proof. intros Hne. unfold heap_extend_epsilon. by rewrite lookup_alter_ne. Qed.

Lemma lookup_set_edge_ne s c ts h q :
  q ≠ s → heap_set_edge s c ts h !! q = h !! q.
Proof. intros Hne. unfold heap_set_edge. by rewrite lookup_alter_ne. Qed.

Lemma lookup_new_ne i h q : q ≠ i → heap_new i h !! q = h !! q.
Proof. intros Hne. unfold heap_new. by rewrite lookup_insert_ne. Qed.

Lemma store_wf_fresh σ q : store_wf σ → id_counter σ ≤ q → heap σ !! q = None.
Proof.
  intros Hwf Hle. apply not_elem_of_dom. intros Hq. apply Hwf in Hq. lia.
Qed.

Lemma epsilon_of_fresh σ q :
  store_wf σ → id_counter σ ≤ q → epsilon_of (heap σ) q = [].
Proof. intros Hwf Hle. unfold epsilon_of. by rewrite store_wf_fresh. Qed.

Lemma edges_of_fresh σ q c :
  store_wf σ → id_counter σ ≤ q → edges_of (heap σ) q c = [].
Proof. intros Hwf Hle. unfold edges_of. by rewrite store_wf_fresh. Qed.

(** ** Thompson builder: paths under heap changes *)

(** Paths only see [epsilon_of] and [edges_of]. *)
Lemma nfa_path_mono h h' p s q :
  (∀ x y, y ∈ epsilon_of h x → y ∈ epsilon_of h' x) →
  (∀ x c y, y ∈ edges_of h x c → y ∈ edges_of h' x c) →
  nfa_path h p s q → nfa_path h' p s q.
Proof.
  intros Heps Hsym.
  induction 1 as [q|p p' s q Hstep _ IH|p c p' s q Hstep _ IH].
  - apply path_refl.
  - eapply path_eps; eauto.
  - eapply path_sym; eauto.
Qed.

(** A range closed under the edges of [h] confines the paths of every
    heap that agrees with [h] on the range. *)
Lemma nfa_path_frame h h' lo hi p s q :
  (∀ x, lo ≤ x < hi →
        (∀ y, y ∈ epsilon_of h x → lo ≤ y < hi)
        ∧ (∀ c y, y ∈ edges_of h x c → lo ≤ y < hi)) →
  (∀ x, lo ≤ x < hi → h' !! x = h !! x) →
  lo ≤ p < hi →
  nfa_path h' p s q → nfa_path h p s q ∧ lo ≤ q < hi.
Proof.
  intros Hcl Hagree Hp Hpath.
  induction Hpath as [q|p p' s q Hstep _ IH|p c p' s q Hstep _ IH].
  - split; [apply path_refl|done].
  - unfold epsilon_of in Hstep. rewrite (Hagree p Hp) in Hstep.
    destruct (IH (proj1 (Hcl p Hp) p' Hstep)) as [Hpath Hq].
    split; [|done]. eapply path_eps; eauto.
  - unfold edges_of in Hstep. rewrite (Hagree p Hp) in Hstep.
    destruct (IH (proj2 (Hcl p Hp) c p' Hstep)) as [Hpath Hq].
    split; [|done]. eapply path_sym; eauto.
Qed.

Lemma frag_ok_frame h h' f r lo hi :
  frag_ok h f r lo hi → (∀ x, lo ≤ x < hi → h' !! x = h !! x) →
  frag_ok h' f r lo hi.
Proof.
  intros [Hs Ha Halloc Hcl Hfin Hlang] Hagree.
  assert (∀ x, lo ≤ x < hi → epsilon_of h' x = epsilon_of h x) as Heps.
  { intros x Hx. unfold epsilon_of. by rewrite Hagree. }
  assert (∀ x c, lo ≤ x < hi → edges_of h' x c = edges_of h x c) as Hsym.
  { intros x c Hx. unfold edges_of. by rewrite Hagree. }
  split; try done.
  - intros q Hq. rewrite Hagree by done. by apply Halloc.
  - intros q Hq. rewrite Heps by done. split; [by apply Hcl|].
    intros c q'. rewrite Hsym by done. by apply Hcl.
  - rewrite Heps by done. split; [apply Hfin|].
    intros c. rewrite Hsym by done. apply Hfin.
  - intros s. rewrite <- Hlang. split.
    + intros Hpath. by apply (nfa_path_frame h h' lo hi _ _ _ Hcl Hagree Hs).
    + intros Hpath.
      apply (nfa_path_frame h' h lo hi _ _ _); try done.
      * intros x Hx. rewrite Heps by done. split; [by apply Hcl|].
        intros c y. rewrite Hsym by done. by apply Hcl.
      * intros x Hx. by rewrite Hagree.
Qed.

(** A node without outgoing edges is the end of every path from it. *)
Lemma nfa_path_final h a s q :
  epsilon_of h a = [] → (∀ c, edges_of h a c = []) →
  nfa_path h a s q → s = [] ∧ q = a.
Proof.
  intros Heps Hsym Hpath. inversion Hpath as [|? q' ? ? Hstep|? c q' ? ? Hstep]; subst.
  - done.
  - rewrite Heps in Hstep. by apply elem_of_nil in Hstep.
  - rewrite Hsym in Hstep. by apply elem_of_nil in Hstep.
Qed.

(** Leaving a range through its exit node [x]: when [h'] differs from
    [h] inside the range only by the epsilon successors of [x], a path of
    [h'] from the range to a target outside is a path of [h] to [x], one
    new epsilon edge out of [x], and a remainder with the property [Q],
    which may be established by induction. *)
Lemma exit_path h h' lo hi x t (Q : list ascii → Prop) :
  (∀ q, lo ≤ q < hi →
        (∀ y, y ∈ epsilon_of h q → lo ≤ y < hi)
        ∧ (∀ c y, y ∈ edges_of h q c → lo ≤ y < hi)) →
  (∀ q, lo ≤ q < hi → q ≠ x → epsilon_of h' q = epsilon_of h q) →
  (∀ q c, lo ≤ q < hi → edges_of h' q c = edges_of h q c) →
  (∀ c, edges_of h x c = []) →
  ¬ (lo ≤ t < hi) →
  (∀ y v, y ∈ epsilon_of h' x → nfa_path h' y v t →
          (lo ≤ y < hi → ∃ u' v', v = u' ++ v' ∧ nfa_path h y u' x ∧ Q v') →
          Q v) →
  ∀ p w, lo ≤ p < hi → nfa_path h' p w t →
         ∃ u v, w = u ++ v ∧ nfa_path h p u x ∧ Q v.
Proof.
  intros Hcl Heps Hsym Hx Ht HQ p w Hp Hpath.
  induction Hpath as [q|p p' s q Hstep Hrest IH|p c p' s q Hstep Hrest IH].
  - done.
  - destruct (decide (p = x)) as [->|Hne].
    + exists [], s. split; [done|]. split; [apply path_refl|].
      apply (HQ p' s Hstep Hrest). intros Hp'. by apply IH.
    + rewrite (Heps p Hp Hne) in Hstep.
      destruct (IH Ht HQ (proj1 (Hcl p Hp) p' Hstep)) as (u & v & -> & Hu & Hv).
      exists u, v. split; [done|]. split; [|done]. eapply path_eps; eauto.
  - rewrite (Hsym p c Hp) in Hstep.
    destruct (decide (p = x)) as [->|Hne].
    + rewrite Hx in Hstep. by apply elem_of_nil in Hstep.
    + destruct (IH Ht HQ (proj2 (Hcl p Hp) c p' Hstep)) as (u & v & -> & Hu & Hv).
      exists (c :: u), v. split; [done|]. split; [|done].
      eapply path_sym; eauto.
Qed.

(** ** Thompson builder: the four constructions *)

Ltac solve_alloc :=
  repeat first
    [ apply alloc_extend
    | apply alloc_set_edge
    | apply alloc_new; first [ by left | right ] ];
  eauto.

Lemma frag_lit h n c :
  (∀ q, n ≤ q → h !! q = None) →
  frag_ok (heap_set_edge n c [S n] (heap_new (S n) (heap_new n h)))
          (mkNFA n (S n)) (Lit c) n (S (S n)).
Proof.
  intros Hfresh.
  set (h' := heap_set_edge n c [S n] (heap_new (S n) (heap_new n h))).
  assert (∀ q, n ≤ q < S (S n) → epsilon_of h' q = []) as Heps.
  { intros q Hq. unfold h'.
    rewrite epsilon_of_set_edge, !epsilon_of_new.
    repeat case_decide; try done. lia. }
  assert (∀ q c', n ≤ q < S (S n) →
            edges_of h' q c' = if decide (q = n ∧ c' = c) then [S n] else [])
    as Hsym.
  { intros q c' Hq. unfold h'.
    rewrite edges_of_set_edge, !edges_of_new by solve_alloc.
    repeat case_decide; try done. lia. }
  split; simpl.
  - lia.
  - lia.
  - intros q Hq. unfold h'. apply alloc_set_edge, alloc_new.
    destruct (decide (q = S n)); [by left|right].
    apply alloc_new. left. lia.
  - intros q Hq. split.
    + intros q'. rewrite Heps by done. intros Hin. by apply elem_of_nil in Hin.
    + intros c' q'. rewrite Hsym by done. case_decide.
      * intros Hin. apply list_elem_of_singleton in Hin. lia.
      * intros Hin. by apply elem_of_nil in Hin.
  - split; [apply Heps; lia|]. intros c'. rewrite Hsym by lia.
    rewrite decide_False; [done|lia].
  - intros s. split.
    + intros Hpath.
      inversion Hpath as [|? q' ? ? Hstep Hrest|? c' q' s' ? Hstep Hrest]; subst.
      * lia.
      * rewrite Heps in Hstep by lia. by apply elem_of_nil in Hstep.
      * rewrite Hsym in Hstep by lia. case_decide as Hc.
        -- destruct Hc as [_ ->]. apply list_elem_of_singleton in Hstep as ->.
           apply nfa_path_final in Hrest as [-> _].
           ++ apply matches_lit.
           ++ apply Heps. lia.
           ++ intros c'. rewrite Hsym by lia. rewrite decide_False; [done|lia].
        -- by apply elem_of_nil in Hstep.
    + intros Hm. inversion Hm; subst.
      eapply path_sym; [|apply path_refl].
      rewrite Hsym by lia. rewrite decide_True by done. by left.
Qed.

Lemma frag_cat h f1 f2 r1 r2 n n1 n2 :
  frag_ok h f1 r1 n n1 → frag_ok h f2 r2 n1 n2 →
  frag_ok (heap_extend_epsilon (accept f1) [start f2] h)
          (mkNFA (start f1) (accept f2)) (Cat r1 r2) n n2.
Proof.
  intros [Hs1 Ha1 Halloc1 Hcl1 [Hfin1 Hfin1'] Hlang1]
         [Hs2 Ha2 Halloc2 Hcl2 [Hfin2 Hfin2'] Hlang2].
  set (h' := heap_extend_epsilon (accept f1) [start f2] h).
  assert (∀ q, epsilon_of h' q
               = if decide (q = accept f1) then [start f2] else epsilon_of h q)
    as Heps.
  { intros q. unfold h'. rewrite epsilon_of_extend by (apply Halloc1; lia).
    case_decide; [by rewrite Hfin1|done]. }
  assert (∀ q c, edges_of h' q c = edges_of h q c) as Hsym.
  { intros q c. apply edges_of_extend. }
  assert (∀ p s q, nfa_path h p s q → nfa_path h' p s q) as Hmono.
  { intros p s q. apply nfa_path_mono.
    - intros x y Hy. rewrite Heps. case_decide as Hx; [|done].
      subst x. rewrite Hfin1 in Hy. by apply elem_of_nil in Hy.
    - intros x c y. by rewrite Hsym. }
  split; simpl.
  - lia.
  - lia.
  - intros q Hq. apply alloc_extend.
    destruct (decide (q < n1)); [apply Halloc1|apply Halloc2]; lia.
  - intros q Hq. rewrite Heps. split.
    + intros q'. case_decide.
      * intros Hin. apply list_elem_of_singleton in Hin. lia.
      * destruct (decide (q < n1)) as [Hlt|Hge].
        -- intros Hin. apply (Hcl1 q) in Hin; lia.
        -- intros Hin. apply (Hcl2 q) in Hin; lia.
    + intros c q'. rewrite Hsym. destruct (decide (q < n1)) as [Hlt|Hge].
      * intros Hin. apply (Hcl1 q) in Hin; lia.
      * intros Hin. apply (Hcl2 q) in Hin; lia.
  - rewrite Heps. rewrite decide_False by lia. split; [done|].
    intros c. by rewrite Hsym.
  - intros s. split.
    + intros Hpath.
      destruct (exit_path h h' n n1 (accept f1) (accept f2)
                  (λ v, matches r2 v)) with (p := start f1) (w := s)
        as (u & v & -> & Hu & Hv); try done.
      * intros q Hq Hne. rewrite Heps. by rewrite decide_False.
      * lia.
      * intros y v Hy Hrest _. rewrite Heps, decide_True in Hy by done.
        apply list_elem_of_singleton in Hy as ->. apply Hlang2.
        apply (nfa_path_frame h h' n1 n2 _ _ _ Hcl2); [|lia|done].
        intros x Hx. unfold h'. apply lookup_extend_ne. lia.
      * apply matches_cat; [by apply Hlang1|done].
    + intros Hm. inversion Hm as [|? ? u v Hu Hv| | | |]; subst.
      eapply nfa_path_app; [apply Hmono, Hlang1, Hu|].
      eapply path_eps; [|apply Hmono, Hlang2, Hv].
      rewrite Heps, decide_True by done. by left.
Qed.

Lemma frag_alt h f1 f2 r1 r2 n n1 n2 :
  (∀ q, n2 ≤ q → h !! q = None) →
  frag_ok h f1 r1 n n1 → frag_ok h f2 r2 n1 n2 →
  frag_ok (heap_extend_epsilon (accept f2) [S n2]
             (heap_extend_epsilon (accept f1) [S n2]
                (heap_extend_epsilon n2 [start f1; start f2]
                   (heap_new (S n2) (heap_new n2 h)))))
          (mkNFA n2 (S n2)) (Alt r1 r2) n (S (S n2)).
Proof.
  intros Hfresh [Hs1 Ha1 Halloc1 Hcl1 [Hfin1 Hfin1'] Hlang1]
                [Hs2 Ha2 Halloc2 Hcl2 [Hfin2 Hfin2'] Hlang2].
  set (h' := heap_extend_epsilon _ _ _).
  assert (is_Some (h !! accept f1)) as Hal1 by (apply Halloc1; lia).
  assert (is_Some (h !! accept f2)) as Hal2 by (apply Halloc2; lia).
  assert (∀ q, n2 ≤ q → epsilon_of h q = []) as Hfe.
  { intros q Hq. unfold epsilon_of. by rewrite Hfresh. }
  assert (∀ q c, n2 ≤ q → edges_of h q c = []) as Hfs.
  { intros q c Hq. unfold edges_of. by rewrite Hfresh. }
  assert (∀ q, epsilon_of h' q
               = if decide (q = accept f2) then [S n2]
                 else if decide (q = accept f1) then [S n2]
                 else if decide (q = n2) then [start f1; start f2]
                 else if decide (q = S n2) then []
                 else epsilon_of h q) as Heps.
  { intros q. unfold h'.
    rewrite !epsilon_of_extend, !epsilon_of_new by solve_alloc.
    repeat case_decide; subst; try lia; rewrite ?Hfin1, ?Hfin2; done. }
  assert (∀ q c, edges_of h' q c
                 = if decide (q = S n2) then []
                   else if decide (q = n2) then [] else edges_of h q c) as Hsym.
  { intros q c. unfold h'. by rewrite !edges_of_extend, !edges_of_new. }
  assert (∀ p s q, nfa_path h p s q → nfa_path h' p s q) as Hmono.
  { intros p s q. apply nfa_path_mono.
    - intros x y Hy. rewrite Heps.
      repeat case_decide; subst; try done;
        rewrite ?Hfin1, ?Hfin2, ?Hfe in Hy by lia; by apply elem_of_nil in Hy.
    - intros x c y Hy. rewrite Hsym.
      repeat case_decide; subst; try done;
        rewrite ?Hfs in Hy by lia; by apply elem_of_nil in Hy. }
  assert (∀ v q, nfa_path h' (S n2) v q → v = [] ∧ q = S n2) as Hend.
  { intros v q. apply nfa_path_final.
    - rewrite Heps. repeat case_decide; subst; try lia; done.
    - intros c. rewrite Hsym. by rewrite decide_True. }
  assert (epsilon_of h' (accept f1) = [S n2]) as Hex1.
  { rewrite Heps. repeat case_decide; subst; try lia; done. }
  assert (epsilon_of h' (accept f2) = [S n2]) as Hex2.
  { rewrite Heps. by rewrite decide_True. }
  split; simpl.
  - lia.
  - lia.
  - intros q Hq. unfold h'. do 3 apply alloc_extend.
    destruct (decide (q = S n2)) as [->|]; [apply alloc_new; by left|].
    apply alloc_new. right.
    destruct (decide (q = n2)) as [->|]; [apply alloc_new; by left|].
    apply alloc_new. right.
    destruct (decide (q < n1)); [apply Halloc1|apply Halloc2]; lia.
  - intros q Hq. rewrite Heps. split.
    + intros q' Hin. repeat case_decide; subst;
        try (apply list_elem_of_singleton in Hin; lia).
      * apply elem_of_cons in Hin as [->|Hin]; [lia|].
        apply list_elem_of_singleton in Hin. lia.
      * by apply elem_of_nil in Hin.
      * destruct (decide (q < n1)) as [Hlt|Hge].
        -- apply (Hcl1 q) in Hin; lia.
        -- apply (Hcl2 q) in Hin; lia.
    + intros c q'. rewrite Hsym. intros Hin.
      repeat case_decide; subst; try by apply elem_of_nil in Hin.
      destruct (decide (q < n1)) as [Hlt|Hge].
      * apply (Hcl1 q) in Hin; lia.
      * apply (Hcl2 q) in Hin; lia.
  - rewrite Heps. split.
    + repeat case_decide; subst; try lia; done.
    + intros c. rewrite Hsym. by rewrite decide_True.
  - intros s. split.
    + intros Hpath.
      inversion Hpath as [|? q' ? ? Hstep Hrest|? c q' s' ? Hstep Hrest]; subst.
      * lia.
      * rewrite Heps in Hstep.
        rewrite decide_False, decide_False, decide_True in Hstep by lia.
        apply elem_of_cons in Hstep as [->|Hstep];
          [|apply list_elem_of_singleton in Hstep as ->].
        -- destruct (exit_path h h' n n1 (accept f1) (S n2) (λ v, v = []))
             with (p := start f1) (w := s) as (u & v & -> & Hu & ->);
             try done.
           ++ intros q Hq Hne. rewrite Heps.
              repeat case_decide; subst; try lia; done.
           ++ intros q c Hq. rewrite Hsym.
              repeat case_decide; subst; try lia; done.
           ++ lia.
           ++ intros y v Hy Hv _. rewrite Hex1 in Hy.
              apply list_elem_of_singleton in Hy as ->.
              by apply Hend in Hv as [-> _].
           ++ rewrite app_nil_r. apply matches_alt_l. by apply Hlang1.
        -- destruct (exit_path h h' n1 n2 (accept f2) (S n2) (λ v, v = []))
             with (p := start f2) (w := s) as (u & v & -> & Hu & ->);
             try done.
           ++ intros q Hq Hne. rewrite Heps.
              repeat case_decide; subst; try lia; done.
           ++ intros q c Hq. rewrite Hsym.
              repeat case_decide; subst; try lia; done.
           ++ lia.
           ++ intros y v Hy Hv _. rewrite Hex2 in Hy.
              apply list_elem_of_singleton in Hy as ->.
              by apply Hend in Hv as [-> _].
           ++ rewrite app_nil_r. apply matches_alt_r. by apply Hlang2.
      * rewrite Hsym in Hstep.
        rewrite decide_False, decide_True in Hstep by lia.
        by apply elem_of_nil in Hstep.
    + intros Hm.
      assert (S n2 ∈ epsilon_of h' (accept f1)) as Hexit1
        by (rewrite Hex1; by left).
      assert (S n2 ∈ epsilon_of h' (accept f2)) as Hexit2
        by (rewrite Hex2; by left).
      assert (epsilon_of h' n2 = [start f1; start f2]) as Hentry.
      { rewrite Heps. repeat case_decide; subst; try lia; done. }
      inversion Hm as [| |? ? ? Hm1|? ? ? Hm2| |]; subst.
      * eapply path_eps; [rewrite Hentry; by left|].
        rewrite <- (app_nil_r s).
        eapply nfa_path_app; [apply Hmono, Hlang1, Hm1|].
        eapply path_eps; [done|apply path_refl].
      * eapply path_eps; [rewrite Hentry; right; by left|].
        rewrite <- (app_nil_r s).
        eapply nfa_path_app; [apply Hmono, Hlang2, Hm2|].
        eapply path_eps; [done|apply path_refl].
Qed.

Lemma star_loop h' r s1 a1 a :
  (∀ u, matches r u → nfa_path h' s1 u a1) →
  s1 ∈ epsilon_of h' a1 → a ∈ epsilon_of h' a1 →
  ∀ w, matches (Star r) w → nfa_path h' a1 w a.
Proof.
  intros Hbody Hback Hexit w Hm. remember (Star r) as r' eqn:Hr.
  induction Hm as [| | | |r0|r0 u v Hu _ Hv IH]; try done.
  - eapply path_eps; [done|apply path_refl].
  - injection Hr as ->. eapply path_eps; [exact Hback|].
    eapply nfa_path_app; [by apply Hbody|by apply IH].
Qed.

Lemma frag_star h f1 r1 n n1 :
  (∀ q, n1 ≤ q → h !! q = None) →
  frag_ok h f1 r1 n n1 →
  frag_ok (heap_extend_epsilon (accept f1) [start f1; S n1]
             (heap_extend_epsilon n1 [start f1; S n1]
                (heap_new (S n1) (heap_new n1 h))))
          (mkNFA n1 (S n1)) (Star r1) n (S (S n1)).
Proof.
  intros Hfresh [Hs1 Ha1 Halloc1 Hcl1 [Hfin1 Hfin1'] Hlang1].
  set (h' := heap_extend_epsilon _ _ _).
  assert (is_Some (h !! accept f1)) as Hal1 by (apply Halloc1; lia).
  assert (∀ q, n1 ≤ q → epsilon_of h q = []) as Hfe.
  { intros q Hq. unfold epsilon_of. by rewrite Hfresh. }
  assert (∀ q c, n1 ≤ q → edges_of h q c = []) as Hfs.
  { intros q c Hq. unfold edges_of. by rewrite Hfresh. }
  assert (∀ q, epsilon_of h' q
               = if decide (q = accept f1) then [start f1; S n1]
                 else if decide (q = n1) then [start f1; S n1]
                 else if decide (q = S n1) then []
                 else epsilon_of h q) as Heps.
  { intros q. unfold h'.
    rewrite !epsilon_of_extend, !epsilon_of_new by solve_alloc.
    repeat case_decide; subst; try lia; rewrite ?Hfin1; done. }
  assert (∀ q c, edges_of h' q c
                 = if decide (q = S n1) then []
                   else if decide (q = n1) then [] else edges_of h q c) as Hsym.
  { intros q c. unfold h'. by rewrite !edges_of_extend, !edges_of_new. }
  assert (∀ p s q, nfa_path h p s q → nfa_path h' p s q) as Hmono.
  { intros p s q. apply nfa_path_mono.
    - intros x y Hy. rewrite Heps.
      repeat case_decide; subst; try done;
        rewrite ?Hfin1, ?Hfe in Hy by lia; by apply elem_of_nil in Hy.
    - intros x c y Hy. rewrite Hsym.
      repeat case_decide; subst; try done;
        rewrite ?Hfs in Hy by lia; by apply elem_of_nil in Hy. }
  assert (∀ v q, nfa_path h' (S n1) v q → v = [] ∧ q = S n1) as Hend.
  { intros v q. apply nfa_path_final.
    - rewrite Heps. repeat case_decide; subst; try lia; done.
    - intros c. rewrite Hsym. by rewrite decide_True. }
  assert (epsilon_of h' (accept f1) = [start f1; S n1]) as Hloop.
  { rewrite Heps. by rewrite decide_True. }
  assert (epsilon_of h' n1 = [start f1; S n1]) as Hentry.
  { rewrite Heps. repeat case_decide; subst; try lia; done. }
  split; simpl.
  - lia.
  - lia.
  - intros q Hq. unfold h'. do 2 apply alloc_extend.
    destruct (decide (q = S n1)) as [->|]; [apply alloc_new; by left|].
    apply alloc_new. right.
    destruct (decide (q = n1)) as [->|]; [apply alloc_new; by left|].
    apply alloc_new. right. apply Halloc1. lia.
  - intros q Hq. rewrite Heps. split.
    + intros q' Hin. repeat case_decide; subst.
      * apply elem_of_cons in Hin as [->|Hin]; [lia|].
        apply list_elem_of_singleton in Hin. lia.
      * apply elem_of_cons in Hin as [->|Hin]; [lia|].
        apply list_elem_of_singleton in Hin. lia.
      * by apply elem_of_nil in Hin.
      * apply (Hcl1 q) in Hin; lia.
    + intros c q'. rewrite Hsym. intros Hin.
      repeat case_decide; subst; try by apply elem_of_nil in Hin.
      apply (Hcl1 q) in Hin; lia.
  - rewrite Heps. split.
    + repeat case_decide; subst; try lia; done.
    + intros c. rewrite Hsym. by rewrite decide_True.
  - intros s. split.
    + intros Hpath.
      inversion Hpath as [|? q' ? ? Hstep Hrest|? c q' s' ? Hstep Hrest]; subst.
      * lia.
      * rewrite Hentry in Hstep.
        apply elem_of_cons in Hstep as [->|Hstep];
          [|apply list_elem_of_singleton in Hstep as ->].
        -- destruct (exit_path h h' n n1 (accept f1) (S n1)
                       (λ v, matches (Star r1) v))
             with (p := start f1) (w := s) as (u & v & -> & Hu & Hv);
             try done.
           ++ intros q Hq Hne. rewrite Heps.
              repeat case_decide; subst; try lia; done.
           ++ intros q c Hq. rewrite Hsym.
              repeat case_decide; subst; try lia; done.
           ++ lia.
           ++ intros y v Hy Hv IH. rewrite Hloop in Hy.
              apply elem_of_cons in Hy as [->|Hy];
                [|apply list_elem_of_singleton in Hy as ->].
              ** destruct (IH Hs1) as (u' & v' & -> & Hu' & Hv').
                 apply matches_star_app; [by apply Hlang1|done].
              ** apply Hend in Hv as [-> _]. apply matches_star_nil.
           ++ apply matches_star_app; [by apply Hlang1|done].
        -- apply Hend in Hrest as [-> _]. apply matches_star_nil.
      * rewrite Hsym in Hstep.
        rewrite decide_False, decide_True in Hstep by lia.
        by apply elem_of_nil in Hstep.
    + intros Hm.
      assert (∀ w, matches (Star r1) w → nfa_path h' (accept f1) w (S n1))
        as Hstar.
      { apply (star_loop h' r1 (start f1)).
        - intros u Hu. by apply Hmono, Hlang1.
        - rewrite Hloop. by left.
        - rewrite Hloop. right. by left. }
      inversion Hm as [| | | |?|? u v Hu Hv]; subst.
      * eapply path_eps; [rewrite Hentry; right; by left|apply path_refl].
      * eapply path_eps; [rewrite Hentry; by left|].
        eapply nfa_path_app; [apply Hmono, Hlang1, Hu|by apply Hstar].
Qed.

(** ** Thompson builder: running the loop on a postfix rendering *)

Lemma build_loop_cons stack c rest σ :
  build_loop stack (c :: rest) σ
  = match build_step stack c σ with
    | Ok (stack', σ') => build_loop stack' rest σ'
    | Raise e => Raise e
    end.
Proof. reflexivity. Qed.

Lemma build_step_lit stack c σ :
  isalnum c = true →
  build_step stack c σ
  = Ok (mkNFA (id_counter σ) (S (id_counter σ)) :: stack,
        mkStore (heap_set_edge (id_counter σ) c [S (id_counter σ)]
                   (heap_new (S (id_counter σ))
                      (heap_new (id_counter σ) (heap σ))))
                (S (S (id_counter σ)))).
Proof. intros Hc. unfold build_step. rewrite Hc. reflexivity. Qed.

Lemma build_step_cat f2 f1 stack σ :
  build_step (f2 :: f1 :: stack) "." σ
  = Ok (mkNFA (start f1) (accept f2) :: stack,
        mkStore (heap_extend_epsilon (accept f1) [start f2] (heap σ))
                (id_counter σ)).
Proof. reflexivity. Qed.

Lemma build_step_alt f2 f1 stack σ :
  build_step (f2 :: f1 :: stack) "|" σ
  = Ok (mkNFA (id_counter σ) (S (id_counter σ)) :: stack,
        mkStore (heap_extend_epsilon (accept f2) [S (id_counter σ)]
                   (heap_extend_epsilon (accept f1) [S (id_counter σ)]
                      (heap_extend_epsilon (id_counter σ) [start f1; start f2]
                         (heap_new (S (id_counter σ))
                            (heap_new (id_counter σ) (heap σ))))))
                (S (S (id_counter σ)))).
Proof. reflexivity. Qed.

Lemma build_step_star f1 stack σ :
  build_step (f1 :: stack) "*" σ
  = Ok (mkNFA (id_counter σ) (S (id_counter σ)) :: stack,
        mkStore (heap_extend_epsilon (accept f1) [start f1; S (id_counter σ)]
                   (heap_extend_epsilon (id_counter σ)
                      [start f1; S (id_counter σ)]
                      (heap_new (S (id_counter σ))
                         (heap_new (id_counter σ) (heap σ)))))
                (S (S (id_counter σ)))).
Proof. reflexivity. Qed.

Lemma store_wf_intro h n :
  (∀ q, is_Some (h !! q) → q < n) → store_wf (mkStore h n).
Proof. intros H q Hq. apply elem_of_dom in Hq. by apply H. Qed.

Lemma store_wf_alloc σ q : store_wf σ → is_Some (heap σ !! q) → q < id_counter σ.
Proof. intros Hwf Hq. apply Hwf. by apply elem_of_dom. Qed.

Lemma build_postfix_of r :
  alnum_lits r → ∀ stack σ rest, store_wf σ →
  ∃ f σ', build_loop stack (postfix_of r ++ rest) σ
          = build_loop (f :: stack) rest σ'
          ∧ builds σ σ' f r.
Proof.
  induction r as [c|r1 IH1 r2 IH2|r1 IH1 r2 IH2|r1 IH1];
    intros Hlits stack σ rest Hwf; cbn [postfix_of alnum_lits] in *.
  - cbn [app]. rewrite build_loop_cons, (build_step_lit _ _ _ Hlits).
    eexists _, _. split; [done|]. split; simpl.
    + lia.
    + apply store_wf_intro. intros q Hq.
      apply alloc_set_edge, alloc_new in Hq as [->|Hq]; [lia|].
      apply alloc_new in Hq as [->|Hq]; [lia|].
      pose proof (store_wf_alloc σ q Hwf Hq). lia.
    + intros q Hq. rewrite lookup_set_edge_ne, !lookup_new_ne by lia. done.
    + apply frag_lit. intros q Hq. by apply store_wf_fresh.
  - destruct Hlits as [Hl1 Hl2]. rewrite <- !app_assoc.
    destruct (IH1 Hl1 stack σ (postfix_of r2 ++ ["."] ++ rest) Hwf)
      as (f1 & σ1 & -> & [Hc1 Hwf1 Hold1 Hf1]).
    destruct (IH2 Hl2 (f1 :: stack) σ1 (["."] ++ rest) Hwf1)
      as (f2 & σ2 & -> & [Hc2 Hwf2 Hold2 Hf2]).
    cbn [app]. rewrite build_loop_cons, build_step_cat.
    eexists _, _. split; [done|].
    assert (frag_ok (heap σ2) f1 r1 (id_counter σ) (id_counter σ1)) as Hf1'.
    { apply (frag_ok_frame (heap σ1)); [done|].
      intros x Hx. apply Hold2. lia. }
    pose proof (fo_accept _ _ _ _ _ Hf1') as Ha1.
    split; simpl.
    + lia.
    + apply store_wf_intro. intros q Hq. apply alloc_extend in Hq.
      by apply store_wf_alloc.
    + intros q Hq. rewrite lookup_extend_ne by lia.
      rewrite Hold2 by lia. by apply Hold1.
    + by apply (frag_cat _ _ _ _ _ _ (id_counter σ1)).
  - destruct Hlits as [Hl1 Hl2]. rewrite <- !app_assoc.
    destruct (IH1 Hl1 stack σ (postfix_of r2 ++ ["|"] ++ rest) Hwf)
      as (f1 & σ1 & -> & [Hc1 Hwf1 Hold1 Hf1]).
    destruct (IH2 Hl2 (f1 :: stack) σ1 (["|"] ++ rest) Hwf1)
      as (f2 & σ2 & -> & [Hc2 Hwf2 Hold2 Hf2]).
    cbn [app]. rewrite build_loop_cons, build_step_alt.
    eexists _, _. split; [done|].
    assert (frag_ok (heap σ2) f1 r1 (id_counter σ) (id_counter σ1)) as Hf1'.
    { apply (frag_ok_frame (heap σ1)); [done|].
      intros x Hx. apply Hold2. lia. }
    pose proof (fo_accept _ _ _ _ _ Hf1') as Ha1.
    pose proof (fo_accept _ _ _ _ _ Hf2) as Ha2.
    split; simpl.
    + lia.
    + apply store_wf_intro. intros q Hq.
      do 3 apply alloc_extend in Hq.
      apply alloc_new in Hq as [->|Hq]; [lia|].
      apply alloc_new in Hq as [->|Hq]; [lia|].
      pose proof (store_wf_alloc σ2 q Hwf2 Hq). lia.
    + intros q Hq. rewrite !lookup_extend_ne, !lookup_new_ne by lia.
      rewrite Hold2 by lia. by apply Hold1.
    + apply (frag_alt _ _ _ _ _ _ (id_counter σ1)); try done.
      intros q Hq. by apply store_wf_fresh.
  - rewrite <- !app_assoc.
    destruct (IH1 Hlits stack σ (["*"] ++ rest) Hwf)
      as (f1 & σ1 & -> & [Hc1 Hwf1 Hold1 Hf1]).
    cbn [app]. rewrite build_loop_cons, build_step_star.
    eexists _, _. split; [done|].
    pose proof (fo_accept _ _ _ _ _ Hf1) as Ha1.
    split; simpl.
    + lia.
    + apply store_wf_intro. intros q Hq.
      do 2 apply alloc_extend in Hq.
      apply alloc_new in Hq as [->|Hq]; [lia|].
      apply alloc_new in Hq as [->|Hq]; [lia|].
      pose proof (store_wf_alloc σ1 q Hwf1 Hq). lia.
    + intros q Hq. rewrite !lookup_extend_ne, !lookup_new_ne by lia.
      by apply Hold1.
    + apply frag_star; [|done]. intros q Hq. by apply store_wf_fresh.
Qed.

(** The builder on the postfix rendering of [r]: one fragment whose
    paths from start to accept spell the strings matching [r]. *)
Lemma build_nfa_postfix_of r σ :
  alnum_lits r → store_wf σ →
  ∃ f σ', build_nfa (postfix_of r) σ = Ok (f, σ') ∧ builds σ σ' f r.
Proof.
  intros Hlits Hwf.
  destruct (build_postfix_of r Hlits [] σ [] Hwf) as (f & σ' & Hrun & Hb).
  exists f, σ'. split; [|done].
  unfold build_nfa, mbind, M_bind. rewrite app_nil_r in Hrun.
  by rewrite Hrun.
Qed.

(** ** Postfix converter: correctness on the supported grammar *)

Lemma syntax_alnum_lits l R r : syntax l R r → alnum_lits r.
Proof. induction 1; simpl; auto. Qed.

Lemma drain_pending p P : ∀ out stk,
  Forall (λ t, p ≤ precedence_get t) P → top_below p stk →
  drain p out (P ++ stk) = (out ++ P, stk).
Proof.
  induction P as [|t P IH]; intros out stk HP Hstk; simpl.
  - rewrite app_nil_r. destruct stk as [|t stk]; simpl in *; [done|].
    destruct (Nat.leb_spec p (precedence_get t)); [lia|done].
  - apply Forall_cons in HP as [Ht HP].
    destruct (Nat.leb_spec p (precedence_get t)); [|lia].
    rewrite IH by done. by rewrite <- app_assoc.
Qed.

Lemma drain_to_open_pending P : ∀ out stk,
  Forall (λ t, 1 ≤ precedence_get t) P →
  drain_to_open out (P ++ "(" :: stk) = (out ++ P, "(" :: stk).
Proof.
  induction P as [|t P IH]; intros out stk HP; simpl.
  - by rewrite app_nil_r.
  - apply Forall_cons in HP as [Ht HP].
    destruct (Ascii.eqb_spec t "(") as [->|Hne].
    + change (precedence_get "(") with 0 in Ht. lia.
    + rewrite IH by done. by rewrite <- app_assoc.
Qed.

Lemma top_below_mono k k' stack : top_below k stack → k ≤ k' → top_below k' stack.
Proof. destruct stack; simpl; [done|lia]. Qed.

Lemma to_postfix_loop_cons st c rest :
  to_postfix_loop st (c :: rest)
  = match to_postfix_step st c with
    | Ok st' => to_postfix_loop st' rest
    | Raise e => Raise e
    end.
Proof. reflexivity. Qed.

Lemma to_postfix_step_alnum out stk prev c :
  isalnum c = true →
  to_postfix_step (mkP out stk prev) c
  = Ok (mkP ((insert_concat prev out stk).1 ++ [c])
            (insert_concat prev out stk).2 (Some c)).
Proof.
  intros Hc. unfold to_postfix_step. rewrite Hc.
  by destruct (insert_concat prev out stk).
Qed.

Lemma to_postfix_step_open out stk prev :
  to_postfix_step (mkP out stk prev) "("
  = Ok (mkP (insert_concat prev out stk).1
            ("(" :: (insert_concat prev out stk).2) (Some "(")).
Proof.
  unfold to_postfix_step.
  change (isalnum "(") with false. change ("(" =? "(") with true.
  cbv iota. by destruct (insert_concat prev out stk).
Qed.

Lemma to_postfix_step_close out stk prev o s :
  drain_to_open out stk = (o, "(" :: s) →
  to_postfix_step (mkP out stk prev) ")" = Ok (mkP o s (Some ")")).
Proof.
  intros Hd. unfold to_postfix_step.
  change (isalnum ")") with false. change (")" =? "(") with false.
  change (")" =? ")") with true. cbv iota. by rewrite Hd.
Qed.

Lemma to_postfix_step_star out stk prev o s :
  drain 3 out stk = (o, s) →
  to_postfix_step (mkP out stk prev) "*" = Ok (mkP o ("*" :: s) (Some "*")).
Proof.
  intros Hd. unfold to_postfix_step.
  change (isalnum "*") with false. change ("*" =? "(") with false.
  change ("*" =? ")") with false. change (in_precedence "*") with true.
  change (precedence_get "*") with 3. cbv iota. by rewrite Hd.
Qed.

Lemma to_postfix_step_bar out stk prev o s :
  drain 1 out stk = (o, s) →
  to_postfix_step (mkP out stk prev) "|" = Ok (mkP o ("|" :: s) (Some "|")).
Proof.
  intros Hd. unfold to_postfix_step.
  change (isalnum "|") with false. change ("|" =? "(") with false.
  change ("|" =? ")") with false. change (in_precedence "|") with true.
  change (precedence_get "|") with 1. cbv iota. by rewrite Hd.
Qed.

Lemma insert_concat_false prev out stk :
  needs_concat prev = false → insert_concat prev out stk = (out, stk).
Proof. intros H. unfold insert_concat. by rewrite H. Qed.

Lemma insert_concat_true prev out P stk :
  needs_concat prev = true →
  Forall (λ t, 2 ≤ precedence_get t) P → top_below 2 stk →
  insert_concat prev out (P ++ stk) = (out ++ P, "." :: stk).
Proof.
  intros H HP Hstk. unfold insert_concat. rewrite H.
  by rewrite drain_pending.
Qed.

(** Reading a phrase of level [l]: the converter emits its postfix
    rendering, but for operators [P] still pending on the stack, all of
    precedence [level_prec l] or more. *)
Lemma shunting_yard l R r :
  syntax l R r → ∀ out stk prev rest,
  top_below (level_prec l) (insert_concat prev out stk).2 →
  (l = LCat ∨ l = LAlt → needs_concat prev = false) →
  ∃ X P c,
    to_postfix_loop (mkP out stk prev) (R ++ rest)
    = to_postfix_loop (mkP ((insert_concat prev out stk).1 ++ X)
                           (P ++ (insert_concat prev out stk).2) (Some c)) rest
    ∧ X ++ P = postfix_of r
    ∧ needs_concat (Some c) = true
    ∧ Forall (λ t, level_prec l ≤ precedence_get t) P.
Proof.
  induction 1 as [c Hc|R r _ IH|R r _ IH|R r _ IH|R r _ IH
                 |R1 R2 r1 r2 _ IH1 _ IH2|R r _ IH|R1 R2 r1 r2 _ IH1 _ IH2];
    intros out stk prev rest Htop Hprev.
  - exists [c], [], c. cbn [app].
    rewrite to_postfix_loop_cons, to_postfix_step_alnum by done.
    repeat split; [|apply Forall_nil_2]. simpl. by rewrite Hc.
  - cbn [app]. rewrite <- app_assoc. cbn [app].
    rewrite to_postfix_loop_cons, to_postfix_step_open.
    set (o' := (insert_concat prev out stk).1).
    set (s' := (insert_concat prev out stk).2).
    destruct (IH o' ("(" :: s') (Some "(") (")" :: rest))
      as (X & P & c & Hrun & HXP & _ & HP).
    { rewrite insert_concat_false by done. simpl.
      change (precedence_get "(") with 0. lia. }
    { done. }
    rewrite insert_concat_false in Hrun by done. cbn [fst snd] in Hrun.
    rewrite Hrun, to_postfix_loop_cons.
    rewrite (to_postfix_step_close _ _ _ ((o' ++ X) ++ P) s')
      by by apply drain_to_open_pending.
    exists (X ++ P), [], ")". rewrite app_assoc.
    repeat split; [by rewrite app_nil_r|apply Forall_nil_2].
  - destruct (IH out stk prev rest) as (X & P & c & Hrun & HXP & Hc & HP).
    { eapply top_below_mono; [done|simpl; lia]. }
    { by intros [?|?]. }
    exists X, P, c. repeat split; try done.
    eapply Forall_impl; [done|]. simpl. intros; lia.
  - rewrite <- app_assoc. cbn [app].
    destruct (IH out stk prev ("*" :: rest))
      as (X & P & c & Hrun & HXP & Hc & HP); [done|by intros [?|?]|].
    rewrite Hrun, to_postfix_loop_cons.
    rewrite (to_postfix_step_star _ _ _ (((insert_concat prev out stk).1 ++ X) ++ P)
               (insert_concat prev out stk).2)
      by by apply drain_pending.
    exists (X ++ P), ["*"], "*". rewrite app_assoc.
    repeat split.
    + simpl. by rewrite HXP.
    + apply Forall_singleton. change (precedence_get "*") with 3. simpl. lia.
  - destruct (IH out stk prev rest) as (X & P & c & Hrun & HXP & Hc & HP).
    { eapply top_below_mono; [done|simpl; lia]. }
    { by intros [?|?]. }
    exists X, P, c. repeat split; try done.
    eapply Forall_impl; [done|]. simpl. intros; lia.
  - specialize (Hprev ltac:(by left)).
    rewrite insert_concat_false in * by done. cbn [fst snd] in Htop |- *.
    rewrite <- app_assoc.
    destruct (IH1 out stk prev (R2 ++ rest))
      as (X1 & P1 & c1 & Hrun1 & HXP1 & Hc1 & HP1).
    { by rewrite insert_concat_false. }
    { done. }
    rewrite insert_concat_false in Hrun1 by done. cbn [fst snd] in Hrun1.
    destruct (IH2 (out ++ X1) (P1 ++ stk) (Some c1) rest)
      as (X2 & P2 & c2 & Hrun2 & HXP2 & Hc2 & HP2).
    { rewrite insert_concat_true by done. simpl.
      change (precedence_get ".") with 2. lia. }
    { by intros [?|?]. }
    rewrite insert_concat_true in Hrun2 by done. cbn [fst snd] in Hrun2.
    rewrite Hrun1, Hrun2.
    exists (X1 ++ P1 ++ X2), (P2 ++ ["."]), c2.
    rewrite <- !app_assoc. repeat split; try done.
    + simpl. rewrite <- HXP1, <- HXP2. by rewrite <- !app_assoc.
    + apply Forall_app. split.
      * eapply Forall_impl; [done|]. simpl. intros; lia.
      * apply Forall_singleton. change (precedence_get ".") with 2. simpl. lia.
  - destruct (IH out stk prev rest) as (X & P & c & Hrun & HXP & Hc & HP).
    { eapply top_below_mono; [done|simpl; lia]. }
    { intros _. apply Hprev. by right. }
    exists X, P, c. repeat split; try done.
    eapply Forall_impl; [done|]. simpl. intros; lia.
  - specialize (Hprev ltac:(by right)).
    rewrite insert_concat_false in * by done. cbn [fst snd] in Htop |- *.
    rewrite <- app_assoc. cbn [app].
    destruct (IH1 out stk prev ("|" :: R2 ++ rest))
      as (X1 & P1 & c1 & Hrun1 & HXP1 & Hc1 & HP1).
    { by rewrite insert_concat_false. }
    { done. }
    rewrite insert_concat_false in Hrun1 by done. cbn [fst snd] in Hrun1.
    rewrite Hrun1, to_postfix_loop_cons.
    rewrite (to_postfix_step_bar _ _ _ ((out ++ X1) ++ P1) stk)
      by by apply drain_pending.
    destruct (IH2 ((out ++ X1) ++ P1) ("|" :: stk) (Some "|") rest)
      as (X2 & P2 & c2 & Hrun2 & HXP2 & Hc2 & HP2).
    { rewrite insert_concat_false by done. simpl.
      change (precedence_get "|") with 1. lia. }
    { done. }
    rewrite insert_concat_false in Hrun2 by done. cbn [fst snd] in Hrun2.
    rewrite Hrun2.
    exists (X1 ++ P1 ++ X2), (P2 ++ ["|"]), c2.
    rewrite <- !app_assoc. repeat split; try done.
    + simpl. rewrite <- HXP1, <- HXP2. by rewrite <- !app_assoc.
    + apply Forall_app. split.
      * eapply Forall_impl; [done|]. simpl. intros; lia.
      * apply Forall_singleton. change (precedence_get "|") with 1. simpl. lia.
Qed.

(** The converter turns a regex of the grammar into the postfix
    rendering of the expression it denotes. *)
Lemma to_postfix_parses R r : parses R r → to_postfix R = Ok (postfix_of r).
Proof.
  intros Hsyn. unfold to_postfix.
  destruct (shunting_yard LAlt R r Hsyn [] [] None [])
    as (X & P & c & Hrun & HXP & _ & _); [done|done|].
  rewrite app_nil_r in Hrun. rewrite Hrun. simpl.
  unfold flush. by rewrite app_nil_r, HXP.
Qed.

(** [regex_to_nfa] on a regex of the grammar: an automaton whose paths
    from start to accept spell the strings matching the regex. *)
Lemma regex_to_nfa_parses R r σ :
  parses R r → store_wf σ →
  ∃ f σ', regex_to_nfa R σ = Ok (f, σ') ∧ builds σ σ' f r.
Proof.
  intros Hsyn Hwf. unfold regex_to_nfa. rewrite (to_postfix_parses R r Hsyn).
  apply build_nfa_postfix_of; [by eapply syntax_alnum_lits|done].
Qed.

(** ** From the regex to the DFA *)

Lemma set_order_elem X alphabet c : set_order X alphabet → c ∈ alphabet ↔ c ∈ X.
Proof. unfold set_order. intros ->. apply elem_of_elements. Qed.

Lemma frag_ok_closed h f r lo hi :
  frag_ok h f r lo hi →
  start f ∈ (set_seq lo (hi - lo) : gset nat)
  ∧ edge_closed h (set_seq lo (hi - lo)).
Proof.
  intros [Hs Ha Halloc Hcl Hfin Hlang]. split.
  - apply elem_of_set_seq. lia.
  - intros q Hq. apply elem_of_set_seq in Hq.
    destruct (Hcl q ltac:(lia)) as [Heps Hsym]. split.
    + intros q' Hq'. apply elem_of_set_seq. apply Heps in Hq'. lia.
    + intros c q' Hq'. apply elem_of_set_seq. apply Hsym in Hq'. lia.
Qed.

(** The whole pipeline on a regex of the grammar. *)
Lemma regex_to_dfa_spec R r σ d0 alphabet :
  parses R r → store_wf σ → set_order (extract_alphabet R) alphabet →
  ∃ nfa σ' fuel0 ds counter,
    regex_to_nfa R σ = Ok (nfa, σ')
    ∧ (∀ fuel, fuel0 ≤ fuel →
               nfa_to_dfa fuel (heap σ') nfa alphabet d0 = Some (ds, counter))
    ∧ ∀ s, (∀ c, c ∈ s → c ∈ extract_alphabet R) →
           (dfa_accepts ds s = true ↔ nfa_accepts (heap σ') nfa s)
           ∧ (nfa_accepts (heap σ') nfa s ↔ matches r s).
Proof.
  intros Hsyn Hwf Halpha.
  destruct (regex_to_nfa_parses R r σ Hsyn Hwf) as (f & σ' & Hrun & Hb).
  destruct Hb as [Hc Hwf' Hold Hfrag].
  set (X := set_seq (id_counter σ) (id_counter σ' - id_counter σ) : gset nat).
  destruct (frag_ok_closed _ _ _ _ _ Hfrag) as [Hstart Hclosed].
  destruct (nfa_to_dfa_spec (heap σ') f alphabet X d0 Hstart Hclosed)
    as (ds & counter & Hdfa & Hfinal).
  exists f, σ', (S (2 ^ size X)), ds, counter.
  split; [done|]. split.
  - intros fuel Hfuel. apply Hdfa. lia.
  - intros s Hs. split.
    + apply (dfa_accepts_correct _ _ _ X d0 (S (size X)) Hstart Hclosed
               ltac:(lia) ds counter s Hfinal).
      intros c Hc'. apply (set_order_elem _ _ _ Halpha). by apply Hs.
    + apply (fo_lang _ _ _ _ _ Hfrag).
Qed.

(** C1: for every regex of the supported grammar, the DFA the subset
    construction builds from the Thompson automaton accepts a string over
    the regex alphabet (driving it from the first state, one transition
    per symbol, rejecting on a missing transition) iff the NFA accepts
    it, that is iff the string matches the regex. *)
Theorem regex_to_dfa_correct (R : list ascii) (r : regex) (σ : store)
    (d0 : nat) (alphabet : list ascii) :
  parses R r → store_wf σ → set_order (extract_alphabet R) alphabet →
  ∃ nfa σ' fuel0 ds counter,
    regex_to_nfa R σ = Ok (nfa, σ')
    ∧ (∀ fuel, fuel0 ≤ fuel →
               nfa_to_dfa fuel (heap σ') nfa alphabet d0 = Some (ds, counter))
    ∧ ∀ s, (∀ c, c ∈ s → c ∈ extract_alphabet R) →
           (dfa_accepts ds s = true ↔ nfa_accepts (heap σ') nfa s)
           ∧ (nfa_accepts (heap σ') nfa s ↔ matches r s).
Proof. apply regex_to_dfa_spec. Qed.

Lemma store_wf_empty : store_wf empty_store.
Proof. intros q Hq. simpl in Hq. by rewrite dom_empty_L in Hq. Qed.

Lemma parses_example :
  parses (chars "(a|b)*abb")
         (Cat (Cat (Cat (Star (Alt (Lit "a") (Lit "b"))) (Lit "a")) (Lit "b"))
              (Lit "b")).
Proof.
  unfold parses. apply syn_term.
  apply (syn_cat (chars "(a|b)*ab") ["b"]); [|by apply syn_atom, syn_lit].
  apply (syn_cat (chars "(a|b)*a") ["b"]); [|by apply syn_atom, syn_lit].
  apply (syn_cat (chars "(a|b)*") ["a"]); [|by apply syn_atom, syn_lit].
  apply syn_factor. apply (syn_star (chars "(a|b)")). apply syn_atom.
  apply (syn_group (chars "a|b")).
  apply (syn_alt ["a"] ["b"]).
  - by apply syn_term, syn_factor, syn_atom, syn_lit.
  - by apply syn_factor, syn_atom, syn_lit.
Qed.

Lemma regex_to_dfa_correct_witness :
  ∃ nfa σ' fuel0 ds counter,
    regex_to_nfa (chars "(a|b)*abb") empty_store = Ok (nfa, σ')
    ∧ (∀ fuel, fuel0 ≤ fuel →
         nfa_to_dfa fuel (heap σ') nfa
           (elements (extract_alphabet (chars "(a|b)*abb"))) 0
         = Some (ds, counter))
    ∧ ∀ s, (∀ c, c ∈ s → c ∈ extract_alphabet (chars "(a|b)*abb")) →
           (dfa_accepts ds s = true ↔ nfa_accepts (heap σ') nfa s)
           ∧ (nfa_accepts (heap σ') nfa s
              ↔ matches (Cat (Cat (Cat (Star (Alt (Lit "a") (Lit "b")))
                                       (Lit "a")) (Lit "b")) (Lit "b")) s).
Proof.
  apply (regex_to_dfa_correct (chars "(a|b)*abb") _ empty_store 0 _
           parses_example store_wf_empty).
  unfold set_order. reflexivity.
Defined.

(** ** Two runs from different counter states *)

Lemma shifted_init σ : store_wf σ → shifted (id_counter σ) empty_store σ.
Proof.
  intros Hwf. split; simpl; try (intros; lia); try done.
  intros q. rewrite lookup_empty. split; [by intros [? ?]|lia].
Qed.

Lemma shifted_new k σc σ :
  shifted k σc σ →
  shifted k (mkStore (heap_new (id_counter σc) (heap σc)) (S (id_counter σc)))
            (mkStore (heap_new (k + id_counter σc) (heap σ))
                     (S (k + id_counter σc))).
Proof.
  intros [Hc Hwf Hallc Hall Heps Hsym Hcl]. split; simpl.
  - lia.
  - apply store_wf_intro. intros q Hq. apply alloc_new in Hq as [->|Hq]; [lia|].
    pose proof (store_wf_alloc σ q Hwf Hq). lia.
  - intros q. rewrite alloc_new, Hallc. lia.
  - intros q Hq. apply alloc_new.
    destruct (decide (q = id_counter σc)) as [->|Hne]; [by left|right].
    apply Hall. lia.
  - intros q Hq. rewrite !epsilon_of_new.
    destruct (decide (q = id_counter σc)) as [->|Hne].
    + by rewrite decide_True.
    + rewrite decide_False by lia. apply Heps. lia.
  - intros q c Hq. rewrite !edges_of_new.
    destruct (decide (q = id_counter σc)) as [->|Hne].
    + by rewrite decide_True.
    + rewrite decide_False by lia. apply Hsym. lia.
  - intros q Hq. rewrite epsilon_of_new. split.
    + intros q' Hq'. case_decide; [by apply elem_of_nil in Hq'|].
      apply (Hcl q) in Hq'; lia.
    + intros c q'. rewrite edges_of_new. intros Hq'.
      case_decide; [by apply elem_of_nil in Hq'|].
      apply (Hcl q) in Hq'; lia.
Qed.

Lemma shifted_extend k σc σ a ts :
  shifted k σc σ → a < id_counter σc →
  (∀ t, t ∈ ts → t < id_counter σc) →
  shifted k (mkStore (heap_extend_epsilon a ts (heap σc)) (id_counter σc))
            (mkStore (heap_extend_epsilon (k + a) (Nat.add k <$> ts) (heap σ))
                     (id_counter σ)).
Proof.
  intros [Hc Hwf Hallc Hall Heps Hsym Hcl] Ha Hts. split; simpl.
  - done.
  - apply store_wf_intro. intros q Hq. apply alloc_extend in Hq.
    by apply store_wf_alloc.
  - intros q. by rewrite alloc_extend.
  - intros q Hq. apply alloc_extend. by apply Hall.
  - intros q Hq. rewrite !epsilon_of_extend by (by apply Hall || by apply Hallc).
    destruct (decide (q = a)) as [->|Hne].
    + rewrite decide_True by done. by rewrite fmap_app, Heps.
    + rewrite decide_False by lia. by apply Heps.
  - intros q c Hq. rewrite !edges_of_extend. by apply Hsym.
  - intros q Hq. split.
    + intros q'. rewrite epsilon_of_extend by by apply Hallc.
      case_decide; [|by apply (Hcl q)]. subst q. intros Hq'.
      apply elem_of_app in Hq' as [Hq'|Hq']; [by apply (Hcl a)|by apply Hts].
    + intros c q'. rewrite edges_of_extend. by apply (Hcl q).
Qed.

Lemma shifted_set_edge k σc σ a c ts :
  shifted k σc σ → a < id_counter σc →
  (∀ t, t ∈ ts → t < id_counter σc) →
  shifted k (mkStore (heap_set_edge a c ts (heap σc)) (id_counter σc))
            (mkStore (heap_set_edge (k + a) c (Nat.add k <$> ts) (heap σ))
                     (id_counter σ)).
Proof.
  intros [Hc Hwf Hallc Hall Heps Hsym Hcl] Ha Hts. split; simpl.
  - done.
  - apply store_wf_intro. intros q Hq. apply alloc_set_edge in Hq.
    by apply store_wf_alloc.
  - intros q. by rewrite alloc_set_edge.
  - intros q Hq. apply alloc_set_edge. by apply Hall.
  - intros q Hq. rewrite !epsilon_of_set_edge. by apply Heps.
  - intros q c' Hq.
    rewrite !edges_of_set_edge by (by apply Hall || by apply Hallc).
    destruct (decide (q = a ∧ c' = c)) as [[-> ->]|Hne].
    + by rewrite decide_True.
    + rewrite decide_False; [by apply Hsym|]. intros [? ?]. apply Hne.
      split; [lia|done].
  - intros q Hq. split.
    + intros q'. rewrite epsilon_of_set_edge. by apply (Hcl q).
    + intros c' q'. rewrite edges_of_set_edge by by apply Hallc.
      case_decide; [by apply Hts|by apply (Hcl q)].
Qed.

Lemma build_step_skip stack c σ :
  isalnum c = false → c ≠ "." → c ≠ "|" → c ≠ "*" →
  build_step stack c σ = Ok (stack, σ).
Proof.
  intros Halnum Hdot Hbar Hstar. unfold build_step. rewrite Halnum.
  apply Ascii.eqb_neq in Hdot, Hbar, Hstar. by rewrite Hdot, Hbar, Hstar.
Qed.

Lemma build_step_shift k σc σ stack c :
  shifted k σc σ → Forall (below (id_counter σc)) stack →
  match build_step stack c σc with
  | Ok (stack', σc') =>
      ∃ σ', build_step (shift k <$> stack) c σ = Ok (shift k <$> stack', σ')
            ∧ shifted k σc' σ' ∧ Forall (below (id_counter σc')) stack'
  | Raise e => build_step (shift k <$> stack) c σ = Raise e
  end.
Proof.
  intros Hsh Hstack.
  assert (Hcnt := sh_counter _ _ _ Hsh).
  assert (∀ n f, below n f → below (S (S n)) f) as Hbelow.
  { intros n f [? ?]. split; lia. }
  destruct (isalnum c) eqn:Ealnum.
  { rewrite (build_step_lit stack c σc Ealnum).
    rewrite (build_step_lit (shift k <$> stack) c σ Ealnum), Hcnt.
    eexists. split; [|split].
    - rewrite fmap_cons. unfold shift at 2. simpl.
      replace (S (k + id_counter σc)) with (k + S (id_counter σc)) by lia.
      reflexivity.
    - apply (shifted_set_edge k _ _ (id_counter σc) c [S (id_counter σc)]
               (shifted_new k _ _ (shifted_new k _ _ Hsh))); simpl; [lia|].
      intros t Ht. apply list_elem_of_singleton in Ht. lia.
    - simpl. apply Forall_cons. split; [split; simpl; lia|].
      eapply Forall_impl; [done|]. apply Hbelow. }
  destruct (Ascii.eqb_spec c ".") as [->|Hdot].
  { destruct stack as [|f2 [|f1 stack]]; [done|done|].
    rewrite build_step_cat. rewrite !fmap_cons, build_step_cat.
    apply Forall_cons in Hstack as [[Hs2 Ha2] Hstack].
    apply Forall_cons in Hstack as [[Hs1 Ha1] Hstack].
    eexists. split; [reflexivity|]. split.
    - apply (shifted_extend k σc σ (accept f1) [start f2] Hsh Ha1).
      intros t Ht. by apply list_elem_of_singleton in Ht as ->.
    - simpl. apply Forall_cons. split; [by split|done]. }
  destruct (Ascii.eqb_spec c "|") as [->|Hbar].
  { destruct stack as [|f2 [|f1 stack]]; [done|done|].
    rewrite build_step_alt. rewrite !fmap_cons, build_step_alt, Hcnt.
    apply Forall_cons in Hstack as [[Hs2 Ha2] Hstack].
    apply Forall_cons in Hstack as [[Hs1 Ha1] Hstack].
    eexists. split; [|split].
    - unfold shift at 3. simpl.
      replace (S (k + id_counter σc)) with (k + S (id_counter σc)) by lia.
      reflexivity.
    - pose proof (shifted_new k _ _ (shifted_new k _ _ Hsh)) as H2.
      pose proof (shifted_extend k _ _ (id_counter σc) [start f1; start f2]
                    H2) as H3. simpl in H3.
      pose proof (shifted_extend k _ _ (accept f1) [S (id_counter σc)]
                    (H3 ltac:(lia) ltac:(set_solver by lia))) as H4.
      simpl in H4.
      pose proof (shifted_extend k _ _ (accept f2) [S (id_counter σc)]
                    (H4 ltac:(lia) ltac:(set_solver by lia))) as H5.
      simpl in H5. apply H5; [lia|set_solver by lia].
    - simpl. apply Forall_cons. split; [split; simpl; lia|].
      eapply Forall_impl; [done|]. apply Hbelow. }
  destruct (Ascii.eqb_spec c "*") as [->|Hstar].
  { destruct stack as [|f1 stack]; [done|].
    rewrite build_step_star. rewrite !fmap_cons, build_step_star, Hcnt.
    apply Forall_cons in Hstack as [[Hs1 Ha1] Hstack].
    eexists. split; [|split].
    - unfold shift at 2. simpl.
      replace (S (k + id_counter σc)) with (k + S (id_counter σc)) by lia.
      reflexivity.
    - pose proof (shifted_new k _ _ (shifted_new k _ _ Hsh)) as H2.
      pose proof (shifted_extend k _ _ (id_counter σc)
                    [start f1; S (id_counter σc)] H2) as H3. simpl in H3.
      pose proof (shifted_extend k _ _ (accept f1)
                    [start f1; S (id_counter σc)]
                    (H3 ltac:(lia) ltac:(set_solver by lia))) as H4.
      simpl in H4. apply H4; [lia|set_solver by lia].
    - simpl. apply Forall_cons. split; [split; simpl; lia|].
      eapply Forall_impl; [done|]. apply Hbelow. }
  rewrite !build_step_skip by done. eauto.
Qed.

Lemma build_loop_shift k postfix : ∀ σc σ stack,
  shifted k σc σ → Forall (below (id_counter σc)) stack →
  match build_loop stack postfix σc with
  | Ok (stack', σc') =>
      ∃ σ', build_loop (shift k <$> stack) postfix σ
            = Ok (shift k <$> stack', σ')
            ∧ shifted k σc' σ' ∧ Forall (below (id_counter σc')) stack'
  | Raise e => build_loop (shift k <$> stack) postfix σ = Raise e
  end.
Proof.
  induction postfix as [|c rest IH]; intros σc σ stack Hsh Hstack.
  - simpl. eauto.
  - rewrite !build_loop_cons.
    pose proof (build_step_shift k σc σ stack c Hsh Hstack) as Hstep.
    destruct (build_step stack c σc) as [[stack1 σc1]|e].
    + destruct Hstep as (σ1 & -> & Hsh1 & Hstack1). by apply IH.
    + by rewrite Hstep.
Qed.

(** [regex_to_nfa] from any store does what it does in a fresh
    interpreter, [id_counter σ] identifiers higher. *)
Lemma regex_to_nfa_shift R σ :
  store_wf σ →
  match regex_to_nfa R empty_store with
  | Ok (fc, σc) =>
      ∃ σ', regex_to_nfa R σ = Ok (shift (id_counter σ) fc, σ')
            ∧ shifted (id_counter σ) σc σ' ∧ below (id_counter σc) fc
  | Raise e => regex_to_nfa R σ = Raise e
  end.
Proof.
  intros Hwf. unfold regex_to_nfa.
  destruct (to_postfix R) as [postfix|e]; [|done].
  unfold build_nfa, mbind, M_bind.
  pose proof (build_loop_shift (id_counter σ) postfix empty_store σ []
                (shifted_init σ Hwf) (Forall_nil_2 _)) as Hloop.
  destruct (build_loop [] postfix empty_store) as [[stack σc]|e].
  - destruct Hloop as (σ' & Hrun & Hsh & Hstack). simpl in Hrun.
    rewrite Hrun. destruct stack as [|f stack]; [done|].
    apply Forall_cons in Hstack as [Hf _]. simpl. eauto.
  - simpl in Hloop. by rewrite Hloop.
Qed.

Lemma shifted_path k σc σ p s q :
  shifted k σc σ → p < id_counter σc →
  nfa_path (heap σc) p s q → nfa_path (heap σ) (k + p) s (k + q).
Proof.
  intros Hsh Hp Hpath.
  induction Hpath as [q|p p' s q Hstep _ IH|p c p' s q Hstep _ IH].
  - apply path_refl.
  - eapply path_eps; [|apply IH; by apply (sh_closed _ _ _ Hsh p Hp)].
    rewrite (sh_eps _ _ _ Hsh p Hp). apply list_elem_of_fmap. eauto.
  - eapply path_sym; [|apply IH; by apply (sh_closed _ _ _ Hsh p Hp) in Hstep].
    rewrite (sh_sym _ _ _ Hsh p c Hp). apply list_elem_of_fmap. eauto.
Qed.

Lemma shifted_path_inv k σc σ p' s q' :
  shifted k σc σ → nfa_path (heap σ) p' s q' →
  ∀ p, p' = k + p → p < id_counter σc →
       ∃ q, q' = k + q ∧ q < id_counter σc ∧ nfa_path (heap σc) p s q.
Proof.
  intros Hsh Hpath.
  induction Hpath as [q'|p' p1 s q' Hstep _ IH|p' c p1 s q' Hstep _ IH];
    intros p -> Hp.
  - exists p. split; [done|]. split; [done|apply path_refl].
  - rewrite (sh_eps _ _ _ Hsh p Hp) in Hstep.
    apply list_elem_of_fmap in Hstep as (p2 & -> & Hp2).
    destruct (IH p2 eq_refl) as (q & -> & Hq & Hpath).
    { by apply (sh_closed _ _ _ Hsh p Hp). }
    exists q. split; [done|]. split; [done|]. eapply path_eps; eauto.
  - rewrite (sh_sym _ _ _ Hsh p c Hp) in Hstep.
    apply list_elem_of_fmap in Hstep as (p2 & -> & Hp2).
    destruct (IH p2 eq_refl) as (q & -> & Hq & Hpath).
    { by apply (sh_closed _ _ _ Hsh p Hp) in Hp2. }
    exists q. split; [done|]. split; [done|]. eapply path_sym; eauto.
Qed.

Lemma shifted_accepts k σc σ f s :
  shifted k σc σ → below (id_counter σc) f →
  nfa_accepts (heap σ) (shift k f) s ↔ nfa_accepts (heap σc) f s.
Proof.
  intros Hsh [Hs Ha]. unfold nfa_accepts, shift. simpl. split.
  - intros Hpath.
    destruct (shifted_path_inv k σc σ _ s _ Hsh Hpath (start f) eq_refl Hs)
      as (q & Heq & _ & Hpath').
    by replace (accept f) with q by lia.
  - by apply shifted_path.
Qed.

Lemma shifted_closed k σc σ f :
  shifted k σc σ → below (id_counter σc) f →
  start (shift k f) ∈ (set_seq k (id_counter σc) : gset nat)
  ∧ edge_closed (heap σ) (set_seq k (id_counter σc)).
Proof.
  intros Hsh [Hs Ha]. split.
  - apply elem_of_set_seq. simpl. lia.
  - intros q' Hq'. apply elem_of_set_seq in Hq'.
    assert (∃ q, q' = k + q ∧ q < id_counter σc) as (q & -> & Hq).
    { exists (q' - k). lia. }
    split.
    + intros p'. rewrite (sh_eps _ _ _ Hsh q Hq). intros Hp'.
      apply list_elem_of_fmap in Hp' as (p & -> & Hp).
      apply (sh_closed _ _ _ Hsh q Hq) in Hp. apply elem_of_set_seq. lia.
    + intros c p'. rewrite (sh_sym _ _ _ Hsh q c Hq). intros Hp'.
      apply list_elem_of_fmap in Hp' as (p & -> & Hp).
      apply (sh_closed _ _ _ Hsh q Hq) in Hp. apply elem_of_set_seq. lia.
Qed.

(** The pipeline from any store, measured against the automaton the
    fresh interpreter builds: same failure, or a DFA accepting what that
    automaton accepts. *)
Lemma regex_to_dfa_canonical R σ d0 alphabet :
  store_wf σ → set_order (extract_alphabet R) alphabet →
  match regex_to_nfa R empty_store with
  | Ok (fc, σc) =>
      ∃ nfa σ' fuel0 ds counter,
        regex_to_nfa R σ = Ok (nfa, σ')
        ∧ (∀ fuel, fuel0 ≤ fuel →
             nfa_to_dfa fuel (heap σ') nfa alphabet d0 = Some (ds, counter))
        ∧ ∀ s, (∀ c, c ∈ s → c ∈ extract_alphabet R) →
               dfa_accepts ds s = true ↔ nfa_accepts (heap σc) fc s
  | Raise e => regex_to_nfa R σ = Raise e
  end.
Proof.
  intros Hwf Halpha. pose proof (regex_to_nfa_shift R σ Hwf) as Hshift.
  destruct (regex_to_nfa R empty_store) as [[fc σc]|e]; [|done].
  destruct Hshift as (σ' & Hrun & Hsh & Hfc).
  set (k := id_counter σ) in *.
  set (X := set_seq k (id_counter σc) : gset nat).
  destruct (shifted_closed k σc σ' fc Hsh Hfc) as [Hstart Hclosed].
  destruct (nfa_to_dfa_spec (heap σ') (shift k fc) alphabet X d0 Hstart Hclosed)
    as (ds & counter & Hdfa & Hfinal).
  exists (shift k fc), σ', (S (2 ^ size X)), ds, counter.
  split; [done|]. split.
  - intros fuel Hfuel. apply Hdfa. lia.
  - intros s Hs. rewrite <- (shifted_accepts k σc σ' fc s Hsh Hfc).
    apply (dfa_accepts_correct _ _ _ X d0 (S (size X)) Hstart Hclosed
             ltac:(lia) ds counter s Hfinal).
    intros c Hc. apply (set_order_elem _ _ _ Halpha). by apply Hs.
Qed.

(** C9: two constructions from the same regex, whatever the two states
    of the identifier counters and whatever the two iteration orders of
    the alphabet set, fail alike or yield two DFAs that accept the same
    strings over the alphabet of the regex. *)
Theorem construction_deterministic (R : list ascii) (σ1 σ2 : store)
    (d1 d2 : nat) (alphabet1 alphabet2 : list ascii) :
  store_wf σ1 → store_wf σ2 →
  set_order (extract_alphabet R) alphabet1 →
  set_order (extract_alphabet R) alphabet2 →
  match regex_to_nfa R σ1, regex_to_nfa R σ2 with
  | Ok (nfa1, σ1'), Ok (nfa2, σ2') =>
      ∃ fuel0 ds1 counter1 ds2 counter2,
        (∀ fuel, fuel0 ≤ fuel →
           nfa_to_dfa fuel (heap σ1') nfa1 alphabet1 d1 = Some (ds1, counter1)
           ∧ nfa_to_dfa fuel (heap σ2') nfa2 alphabet2 d2 = Some (ds2, counter2))
        ∧ ∀ s, (∀ c, c ∈ s → c ∈ extract_alphabet R) →
               dfa_accepts ds1 s = dfa_accepts ds2 s
  | Raise e1, Raise e2 => e1 = e2
  | _, _ => False
  end.
Proof.
  intros Hwf1 Hwf2 Ha1 Ha2.
  pose proof (regex_to_dfa_canonical R σ1 d1 alphabet1 Hwf1 Ha1) as H1.
  pose proof (regex_to_dfa_canonical R σ2 d2 alphabet2 Hwf2 Ha2) as H2.
  destruct (regex_to_nfa R empty_store) as [[fc σc]|e].
  - destruct H1 as (nfa1 & σ1' & f1 & ds1 & c1 & -> & Hdfa1 & Hacc1).
    destruct H2 as (nfa2 & σ2' & f2 & ds2 & c2 & -> & Hdfa2 & Hacc2).
    exists (f1 `max` f2), ds1, c1, ds2, c2. split.
    + intros fuel Hfuel. split; [apply Hdfa1|apply Hdfa2]; lia.
    + intros s Hs. apply eq_true_iff_eq.
      by rewrite (Hacc1 s Hs), (Hacc2 s Hs).
  - by rewrite H1, H2.
Qed.

Lemma regex_to_nfa_wf R σ f σ' :
  store_wf σ → regex_to_nfa R σ = Ok (f, σ') → store_wf σ'.
Proof.
  intros Hwf Hrun. pose proof (regex_to_nfa_shift R σ Hwf) as Hshift.
  destruct (regex_to_nfa R empty_store) as [[fc σc]|e].
  - destruct Hshift as (σ'' & Hrun' & Hsh & _).
    rewrite Hrun in Hrun'. injection Hrun' as _ <-. apply (sh_wf _ _ _ Hsh).
  - by rewrite Hrun in Hshift.
Qed.

Lemma store_after_wf R : store_wf (store_after R).
Proof.
  unfold store_after.
  destruct (regex_to_nfa R empty_store) as [[f σ]|e] eqn:E.
  - by apply (regex_to_nfa_wf R empty_store f σ store_wf_empty).
  - apply store_wf_empty.
Qed.

Lemma construction_deterministic_witness :
  match regex_to_nfa example_regex empty_store,
        regex_to_nfa example_regex (store_after example_regex) with
  | Ok (nfa1, σ1'), Ok (nfa2, σ2') =>
      ∃ fuel0 ds1 counter1 ds2 counter2,
        (∀ fuel, fuel0 ≤ fuel →
           nfa_to_dfa fuel (heap σ1') nfa1
             (elements (extract_alphabet example_regex)) 0
           = Some (ds1, counter1)
           ∧ nfa_to_dfa fuel (heap σ2') nfa2
               (reverse (elements (extract_alphabet example_regex))) 5
             = Some (ds2, counter2))
        ∧ ∀ s, (∀ c, c ∈ s → c ∈ extract_alphabet example_regex) →
               dfa_accepts ds1 s = dfa_accepts ds2 s
  | Raise e1, Raise e2 => e1 = e2
  | _, _ => False
  end.
Proof.
  apply construction_deterministic.
  - exact store_wf_empty.
  - exact (store_after_wf example_regex).
  - unfold set_order. reflexivity.
  - unfold set_order. apply reverse_Permutation.
Defined.

(** ** The worked example *)

Lemma elem_of_extract_alphabet R c :
  c ∈ extract_alphabet R ↔ isalnum c = true ∧ c ∈ R.
Proof.
  unfold extract_alphabet.
  by rewrite elem_of_list_to_set, list_elem_of_filter.
Qed.

Lemma over_alphabet_check R s :
  forallb (λ c, isalnum c && bool_decide (c ∈ R)) s = true →
  ∀ c, c ∈ s → c ∈ extract_alphabet R.
Proof.
  intros Hall c Hc. apply elem_of_extract_alphabet.
  rewrite forallb_forall in Hall. apply list_elem_of_In in Hc.
  apply Hall in Hc. apply andb_true_iff in Hc as [? Hin].
  by apply bool_decide_eq_true in Hin.
Qed.

(** The DFA of the example as a fresh interpreter builds it. *)
Lemma example_dfa_computed fc σc ds counter :
  regex_to_nfa example_regex empty_store = Ok (fc, σc) →
  nfa_to_dfa 32 (heap σc) fc (elements (extract_alphabet example_regex)) 0
  = Some (ds, counter) →
  dfa_accepts ds <$>
    [chars "abb"; chars "aabb"; chars "babb"; chars "ababb";
     chars "ab"; chars "aab"; chars ""]
  = [true; true; true; true; false; false; false].
Proof.
  intros Hnfa Hdfa. vm_compute in Hnfa. injection Hnfa as <- <-.
  vm_compute in Hdfa. injection Hdfa as <- _.
  vm_compute. reflexivity.
Qed.

(** C7: for [(a|b)*abb] the DFA accepts [abb], [aabb], [babb], [ababb]
    and rejects [ab], [aab] and the empty string, whatever the state of
    the identifier counters and the iteration order of the alphabet. *)
Theorem example_dfa_behaviour (σ : store) (d0 : nat) (alphabet : list ascii) :
  store_wf σ → set_order (extract_alphabet example_regex) alphabet →
  ∃ nfa σ' fuel0 ds counter,
    regex_to_nfa example_regex σ = Ok (nfa, σ')
    ∧ (∀ fuel, fuel0 ≤ fuel →
         nfa_to_dfa fuel (heap σ') nfa alphabet d0 = Some (ds, counter))
    ∧ dfa_accepts ds (chars "abb") = true
    ∧ dfa_accepts ds (chars "aabb") = true
    ∧ dfa_accepts ds (chars "babb") = true
    ∧ dfa_accepts ds (chars "ababb") = true
    ∧ dfa_accepts ds (chars "ab") = false
    ∧ dfa_accepts ds (chars "aab") = false
    ∧ dfa_accepts ds (chars "") = false.
Proof.
  intros Hwf Halpha.
  pose proof (regex_to_dfa_canonical example_regex σ d0 alphabet Hwf Halpha)
    as H.
  pose proof (regex_to_dfa_canonical example_regex empty_store 0
                (elements (extract_alphabet example_regex)) store_wf_empty
                (reflexivity _)) as H0.
  destruct (regex_to_nfa example_regex empty_store) as [[fc σc]|e] eqn:Enfa.
  2: { exfalso. clear -Enfa. vm_compute in Enfa. discriminate Enfa. }
  destruct H as (nfa & σ' & fuel0 & ds & counter & Hrun & Hdfa & Hacc).
  destruct H0 as (nfa0 & σ0 & fuel1 & ds0 & counter0 & Hrun0 & Hdfa0 & Hacc0).
  injection Hrun0 as <- <-.
  pose proof (Hdfa0 (fuel1 `max` 32) ltac:(lia)) as Hbig.
  destruct (nfa_to_dfa 32 (heap σc) fc
              (elements (extract_alphabet example_regex)) 0)
    as [[ds32 c32]|] eqn:E32.
  2: { exfalso. clear -Enfa E32. vm_compute in Enfa.
       injection Enfa as <- <-. vm_compute in E32. done. }
  pose proof (nfa_to_dfa_mono 32 (fuel1 `max` 32) _ _ _ _ _ E32 ltac:(lia))
    as Hmono.
  rewrite Hbig in Hmono. injection Hmono as -> _.
  pose proof (example_dfa_computed fc σc ds32 c32 Enfa E32) as Hcomp.
  injection Hcomp as H1 H2 H3 H4 H5 H6 H7.
  assert (∀ s, forallb (λ c, isalnum c && bool_decide (c ∈ example_regex)) s
               = true → dfa_accepts ds s = dfa_accepts ds32 s) as Hsame.
  { intros s Hs. apply eq_true_iff_eq.
    pose proof (over_alphabet_check example_regex s Hs) as Hover.
    by rewrite (Hacc s Hover), (Hacc0 s Hover). }
  exists nfa, σ', fuel0, ds, counter. split; [done|]. split; [done|].
  refine (conj _ (conj _ (conj _ (conj _ (conj _ (conj _ _))))));
    rewrite Hsame by (vm_compute; reflexivity).
  - exact H1.
  - exact H2.
  - exact H3.
  - exact H4.
  - exact H5.
  - exact H6.
  - exact H7.
Qed.

Lemma example_dfa_behaviour_witness :
  ∃ nfa σ' fuel0 ds counter,
    regex_to_nfa example_regex (store_after example_regex) = Ok (nfa, σ')
    ∧ (∀ fuel, fuel0 ≤ fuel →
         nfa_to_dfa fuel (heap σ') nfa
           (reverse (elements (extract_alphabet example_regex))) 5
         = Some (ds, counter))
    ∧ dfa_accepts ds (chars "abb") = true
    ∧ dfa_accepts ds (chars "aabb") = true
    ∧ dfa_accepts ds (chars "babb") = true
    ∧ dfa_accepts ds (chars "ababb") = true
    ∧ dfa_accepts ds (chars "ab") = false
    ∧ dfa_accepts ds (chars "aab") = false
    ∧ dfa_accepts ds (chars "") = false.
Proof.
  apply example_dfa_behaviour.
  - exact (store_after_wf example_regex).
  - unfold set_order. apply reverse_Permutation.
Defined.

(** ** More on the subset construction *)

(** The result of [nfa_to_dfa], with the invariant of the last
    iteration, over the set of nodes reachable from the start. *)
Lemma nfa_to_dfa_result h nfa alphabet d0 :
  ∃ (X : gset nat) ds counter,
    (∀ q, q ∈ X ↔ reachable h (start nfa) q)
    ∧ start nfa ∈ X ∧ edge_closed h X
    ∧ (∀ fuel, 2 ^ size X < fuel →
               nfa_to_dfa fuel h nfa alphabet d0 = Some (ds, counter))
    ∧ dfa_final h nfa alphabet X d0 ds counter.
Proof.
  destruct (reachable_set_exists h (start nfa)) as [X HX].
  destruct (reachable_set_closed h _ X HX) as [Hstart Hclosed].
  destruct (nfa_to_dfa_spec h nfa alphabet X d0 Hstart Hclosed)
    as (ds & counter & Hrun & Hfinal).
  by exists X, ds, counter.
Qed.

Lemma dfa_run_foreign h nfa alphabet X d0 ds counter c :
  dfa_final h nfa alphabet X d0 ds counter → c ∉ alphabet →
  ∀ s cur, c ∈ s → dfa_run ds cur s = false.
Proof.
  intros [Hwf _] Hc. induction s as [|c' s IH]; intros cur Hin.
  - by apply elem_of_nil in Hin.
  - simpl. destruct (lookup_id cur ds) as [d|] eqn:Hd; [|done].
    apply lookup_id_Some in Hd as [Hd _].
    destruct (transitions d !! c') as [j|] eqn:Hj; [|done].
    destruct (wf_trans _ _ _ _ _ _ Hwf d c' j Hd Hj) as [Hc' _].
    apply IH. apply elem_of_cons in Hin as [->|Hin]; done.
Qed.

Lemma dfa_reachable_nonempty h nfa alphabet C :
  dfa_reachable h nfa alphabet C → C ≠ ∅.
Proof.
  intros [C' HC|T c C' _ _ _ Hne]; [|done].
  assert (start nfa ∈ C') as Hin by (apply HC, eps_reach_refl). set_solver.
Qed.

(** X1: for every NFA and alphabet, the DFA accepts exactly the strings
    over the alphabet that the NFA accepts. *)
Theorem subset_construction_language (h : gmap nat State) (nfa : NFA)
    (alphabet : list ascii) (d0 : nat) :
  ∃ fuel0 ds counter,
    (∀ fuel, fuel0 ≤ fuel →
             nfa_to_dfa fuel h nfa alphabet d0 = Some (ds, counter))
    ∧ ∀ s, dfa_accepts ds s = true
           ↔ (∀ c, c ∈ s → c ∈ alphabet) ∧ nfa_accepts h nfa s.
Proof.
  destruct (nfa_to_dfa_result h nfa alphabet d0)
    as (X & ds & counter & HX & Hstart & Hclosed & Hrun & Hfinal).
  exists (S (2 ^ size X)), ds, counter. split.
  { intros fuel Hfuel. apply Hrun. lia. }
  intros s.
  destruct (decide (Forall (λ c, c ∈ alphabet) s)) as [Hs|Hs].
  - rewrite Forall_forall in Hs.
    rewrite (dfa_accepts_correct h nfa alphabet X d0 (S (size X)) Hstart
               Hclosed ltac:(lia) ds counter s Hfinal Hs).
    split; [by split|by intros [_ ?]].
  - apply not_Forall_Exists in Hs; [|apply _].
    apply Exists_exists in Hs as (c & Hin & Hc).
    assert (dfa_accepts ds s = false) as ->.
    { unfold dfa_accepts. destruct ds as [|d ds]; [done|].
      exact (dfa_run_foreign h nfa alphabet X d0 _ counter c Hfinal Hc
               s (dfa_id d) Hin). }
    split; [done|]. intros [Hall _]. destruct Hc. by apply Hall.
Qed.

(** X2: the identifiers of the DFA states are consecutive from the value
    [DFAState._id_counter] had, in the order of the returned list, and
    the counter ends advanced by the number of states. *)
Theorem nfa_to_dfa_identifiers (h : gmap nat State) (nfa : NFA)
    (alphabet : list ascii) (d0 : nat) :
  ∃ fuel0 ds counter,
    (∀ fuel, fuel0 ≤ fuel →
             nfa_to_dfa fuel h nfa alphabet d0 = Some (ds, counter))
    ∧ counter = d0 + length ds
    ∧ dfa_id <$> ds = seq d0 (length ds).
Proof.
  destruct (nfa_to_dfa_result h nfa alphabet d0)
    as (X & ds & counter & HX & Hstart & Hclosed & Hrun & [Hwf _]).
  exists (S (2 ^ size X)), ds, counter. split.
  { intros fuel Hfuel. apply Hrun. lia. }
  split; [apply (wf_counter _ _ _ _ _ _ Hwf)|].
  apply list_eq. intros k. rewrite list_lookup_fmap.
  pose proof (wf_ids _ _ _ _ _ _ Hwf k) as Hk. simpl in Hk.
  destruct (ds !! k) as [d|] eqn:E; simpl.
  - rewrite (Hk d eq_refl). symmetry. apply lookup_seq.
    split; [done|]. by apply lookup_lt_Some in E.
  - symmetry. apply lookup_seq_ge. by apply lookup_ge_None in E.
Qed.

(** X3: the transition table of every DFA state is the closure of the
    move: a symbol has a transition iff it is in the alphabet and the
    closure of the move is not empty, and the transition then leads to
    the state of that very subset, which is in the list. *)
Theorem nfa_to_dfa_transitions (h : gmap nat State) (nfa : NFA)
    (alphabet : list ascii) (d0 : nat) :
  ∃ fuel0 ds counter,
    (∀ fuel, fuel0 ≤ fuel →
             nfa_to_dfa fuel h nfa alphabet d0 = Some (ds, counter))
    ∧ ∀ fuel d c, fuel0 ≤ fuel → d ∈ ds →
        ∃ C, epsilon_closure fuel h (move h (nfa_states d) c) = Some C
             ∧ (transitions d !! c = None ↔ c ∉ alphabet ∨ C = ∅)
             ∧ ∀ j, transitions d !! c = Some j →
                    ∃ d', d' ∈ ds ∧ dfa_id d' = j ∧ nfa_states d' = C.
Proof.
  destruct (nfa_to_dfa_result h nfa alphabet d0)
    as (X & ds & counter & HX & Hstart & Hclosed & Hrun & [Hwf Hcomplete]).
  pose proof (size_lt_pow2 (size X)) as Hpow.
  exists (S (2 ^ size X)), ds, counter. split.
  { intros fuel Hfuel. apply Hrun. lia. }
  intros fuel d c Hfuel Hd. simpl in *.
  destruct (delta_exists h X fuel Hclosed ltac:(lia) (nfa_states d) c)
    as (C & HrunC & HC & HCX); [by apply (wf_sub _ _ _ _ _ _ Hwf)|].
  exists C. split; [done|].
  assert (∀ j, transitions d !! c = Some j →
               c ∈ alphabet
               ∧ ∃ d', d' ∈ ds ∧ dfa_id d' = j ∧ nfa_states d' = C) as Hsome.
  { intros j Hj.
    destruct (wf_trans _ _ _ _ _ _ Hwf d c j Hd Hj) as (Hc & d' & Hd' & Hid & HC').
    split; [done|]. exists d'. split; [done|]. split; [done|].
    by apply (is_closure_unique h _ _ _ HC' HC). }
  split; [|intros j Hj; by apply Hsome].
  split.
  - intros Hnone. destruct (decide (c ∈ alphabet)) as [Hc|Hc]; [|by left].
    right. destruct (decide (C = ∅)) as [|Hne]; [done|].
    destruct (Hcomplete d Hd ltac:(set_solver) c C Hc HC Hne) as [j Hj].
    congruence.
  - intros Hor. destruct (transitions d !! c) as [j|] eqn:Hj; [|done].
    destruct (Hsome j eq_refl) as (Hc & d' & Hd' & _ & HdC).
    destruct Hor as [Hnc|Hempty]; [done|].
    pose proof (dfa_reachable_nonempty _ _ _ _
                  (wf_reach _ _ _ _ _ _ Hwf d' Hd')) as Hne.
    congruence.
Qed.

(** X4: every DFA state stands for a non-empty, epsilon-closed set of
    NFA nodes reachable from the start node, and its accepting flag says
    whether the accept node of the NFA is in the set. *)
Theorem nfa_to_dfa_states (h : gmap nat State) (nfa : NFA)
    (alphabet : list ascii) (d0 : nat) :
  ∃ fuel0 ds counter,
    (∀ fuel, fuel0 ≤ fuel →
             nfa_to_dfa fuel h nfa alphabet d0 = Some (ds, counter))
    ∧ ∀ d, d ∈ ds →
        nfa_states d ≠ ∅
        ∧ (∀ q, q ∈ nfa_states d → reachable h (start nfa) q)
        ∧ (∀ q q', q ∈ nfa_states d → eps_reach h q q' → q' ∈ nfa_states d)
        ∧ (is_accept d = true ↔ accept nfa ∈ nfa_states d).
Proof.
  destruct (nfa_to_dfa_result h nfa alphabet d0)
    as (X & ds & counter & HX & Hstart & Hclosed & Hrun & [Hwf _]).
  exists (S (2 ^ size X)), ds, counter. split.
  { intros fuel Hfuel. apply Hrun. lia. }
  intros d Hd. simpl in *. split; [|split; [|split]].
  - eapply dfa_reachable_nonempty. by apply (wf_reach _ _ _ _ _ _ Hwf).
  - intros q Hq. apply HX. by apply (wf_sub _ _ _ _ _ _ Hwf d Hd).
  - intros q q' Hq Hreach.
    eapply eps_closed_reach; [by apply (wf_closed _ _ _ _ _ _ Hwf d Hd)|done|done].
  - rewrite (wf_accept _ _ _ _ _ _ Hwf d Hd). apply bool_decide_eq_true.
Qed.

(** X5: the subsets of the DFA states are exactly the subsets the
    construction has to visit: the closure of the start node and the
    non-empty closures of moves from visited subsets. *)
Theorem nfa_to_dfa_keys_reachable (h : gmap nat State) (nfa : NFA)
    (alphabet : list ascii) (d0 : nat) :
  ∃ fuel0 ds counter,
    (∀ fuel, fuel0 ≤ fuel →
             nfa_to_dfa fuel h nfa alphabet d0 = Some (ds, counter))
    ∧ ∀ C, C ∈ nfa_states <$> ds ↔ dfa_reachable h nfa alphabet C.
Proof.
  destruct (nfa_to_dfa_result h nfa alphabet d0)
    as (X & ds & counter & HX & Hstart & Hclosed & Hrun & Hfinal).
  exists (S (2 ^ size X)), ds, counter. split.
  { intros fuel Hfuel. apply Hrun. lia. }
  intros C. split.
  - intros HC. apply list_elem_of_fmap in HC as (d & -> & Hd).
    by apply (wf_reach _ _ _ _ _ _ (proj1 Hfinal)).
  - intros HC.
    destruct (dfa_final_reachable _ _ _ _ _ (S (size X)) Hstart Hclosed
                ltac:(lia) _ _ _ Hfinal HC) as (d & Hd & <-).
    apply list_elem_of_fmap. eauto.
Qed.

(** X6: with an empty alphabet the DFA is the start state alone, without
    transitions. *)
Theorem nfa_to_dfa_empty_alphabet (h : gmap nat State) (nfa : NFA) (d0 : nat) :
  ∃ fuel0 C,
    (∀ q, q ∈ C ↔ eps_reach h (start nfa) q)
    ∧ ∀ fuel, fuel0 ≤ fuel →
        nfa_to_dfa fuel h nfa [] d0
        = Some ([mkDFAState d0 C ∅ (bool_decide (accept nfa ∈ C))], S d0).
Proof.
  set (D := {[start nfa]} ∪ eps_targets h).
  destruct (epsilon_closure_spec h {[start nfa]} D (S (size D)))
    as (C & HrunC & HC & _);
    [set_solver|apply eps_targets_closed|lia|].
  exists (S (size D)), C. split.
  { intros q. rewrite (HC q). set_solver. }
  intros fuel Hfuel. unfold nfa_to_dfa.
  rewrite (epsilon_closure_mono _ fuel _ _ _ HrunC) by lia. simpl.
  destruct fuel as [|fuel]; [lia|]. simpl.
  rewrite Nat.eqb_refl. simpl. by destruct fuel.
Qed.

(** ** More on the closure primitives *)

(** X7: [move(S, c)] is exactly the set of targets of the edges labelled
    [c] that leave a node of [S] (epsilon edges are not followed); the
    move of the empty set is empty and moves distribute over unions. *)
Theorem move_targets (h : gmap nat State) :
  (∀ S c q', q' ∈ move h S c ↔ ∃ q, q ∈ S ∧ q' ∈ edges_of h q c)
  ∧ (∀ c, move h ∅ c = ∅)
  ∧ (∀ S T c, move h (S ∪ T) c = move h S c ∪ move h T c).
Proof.
  split; [intros; apply elem_of_move|]. split.
  - intros c. apply set_eq. intros q'. rewrite elem_of_move. set_solver.
  - intros S T c. apply set_eq. intros q'.
    rewrite elem_of_union, !elem_of_move. set_solver.
Qed.

Lemma is_closure_idem h S C C' :
  is_closure h S C → is_closure h C C' → C' = C.
Proof.
  intros HC HC'. apply set_eq. intros q. rewrite (HC' q). split.
  - intros (p & Hp & Hreach). by eapply is_closure_reach.
  - intros Hq. exists q. split; [done|apply eps_reach_refl].
Qed.

Lemma is_closure_union h S T CS CT C :
  is_closure h S CS → is_closure h T CT → is_closure h (S ∪ T) C →
  C = CS ∪ CT.
Proof.
  intros HS HT HC. apply set_eq. intros q.
  rewrite elem_of_union, (HC q), (HS q), (HT q). set_solver.
Qed.

(** X8: the closure of a closure is the closure itself, closures
    distribute over unions (so a larger set has a larger closure), and
    the closure of the empty set is empty, on any fuel. *)
Theorem epsilon_closure_algebra (h : gmap nat State) (S T : gset nat) :
  (∀ fuel, epsilon_closure fuel h ∅ = Some ∅)
  ∧ ∃ fuel0 CS CT,
      ∀ fuel, fuel0 ≤ fuel →
        epsilon_closure fuel h S = Some CS
        ∧ epsilon_closure fuel h T = Some CT
        ∧ epsilon_closure fuel h CS = Some CS
        ∧ epsilon_closure fuel h (S ∪ T) = Some (CS ∪ CT).
Proof.
  split.
  { intros fuel. unfold epsilon_closure. rewrite elements_empty.
    by destruct fuel. }
  set (D := (S ∪ T) ∪ eps_targets h).
  pose proof (eps_targets_closed h (S ∪ T)) as HD. fold D in HD.
  destruct (epsilon_closure_spec h S D (size D + 1))
    as (CS & HrS & HS & HSD); [set_solver|done|lia|].
  destruct (epsilon_closure_spec h T D (size D + 1))
    as (CT & HrT & HT & HTD); [set_solver|done|lia|].
  destruct (epsilon_closure_spec h CS D (size D + 1))
    as (CC & HrC & HC & _); [done|done|lia|].
  destruct (epsilon_closure_spec h (S ∪ T) D (size D + 1))
    as (CU & HrU & HU & _); [set_solver|done|lia|].
  rewrite (is_closure_idem h S CS CC HS HC) in HrC.
  rewrite (is_closure_union h S T CS CT CU HS HT HU) in HrU.
  exists (size D + 1), CS, CT. intros fuel Hfuel.
  repeat split; eapply epsilon_closure_mono; done.
Qed.

(** ** More on the postfix converter *)

(** X9: on a regex of the grammar the converter yields the postfix
    rendering of the expression the regex denotes under the precedences
    star, then concatenation, then union, both binary operators
    associating to the left. *)
Theorem to_postfix_grammar (R : list ascii) (r : regex) :
  parses R r → to_postfix R = Ok (postfix_of r).
Proof. apply to_postfix_parses. Qed.

Lemma to_postfix_grammar_witness :
  to_postfix example_regex = Ok (chars "ab|*a.b.b.").
Proof. exact (to_postfix_grammar _ _ parses_example). Defined.

Lemma count_char_app c l k :
  count_char c (l ++ k) = count_char c l + count_char c k.
Proof. unfold count_char. by rewrite filter_app, length_app. Qed.

Lemma count_char_cons c x l :
  count_char c (x :: l) = (if decide (x = c) then 1 else 0) + count_char c l.
Proof. unfold count_char. rewrite filter_cons. by destruct (decide (x = c)). Qed.

Lemma count_char_0 c l : count_char c l = 0 ↔ c ∉ l.
Proof.
  unfold count_char. rewrite length_zero_iff_nil. split.
  - intros Hnil Hin.
    assert (c ∈ filter (λ x, x = c) l) as H
      by by apply list_elem_of_filter.
    rewrite Hnil in H. by apply elem_of_nil in H.
  - intros Hnot. destruct (filter (λ x, x = c) l) as [|x k] eqn:E; [done|].
    assert (x ∈ filter (λ x, x = c) l) as H by (rewrite E; left).
    apply list_elem_of_filter in H as [-> H]. done.
Qed.

Lemma opens_count stack : opens stack = count_char "(" stack.
Proof.
  induction stack as [|t stack IH]; [done|]. simpl. rewrite count_char_cons.
  destruct (Ascii.eqb_spec t "(") as [->|Hne].
  - rewrite decide_True by done. by rewrite IH.
  - rewrite decide_False by done. by rewrite IH.
Qed.

(** What a drain moves to the output is a prefix of the stack. *)
Lemma drain_prefix p output stack :
  ∃ pfx, (drain p output stack).1 = output ++ pfx
         ∧ pfx ++ (drain p output stack).2 = stack
         ∧ Forall (λ t, p ≤ precedence_get t) pfx.
Proof.
  revert output. induction stack as [|t stack IH]; intros output; simpl.
  - exists []. by rewrite app_nil_r.
  - destruct (Nat.leb_spec p (precedence_get t)) as [Hle|Hgt]; simpl.
    + destruct (IH (output ++ [t])) as (pfx & H1 & H2 & H3).
      exists (t :: pfx). rewrite H1, <- app_assoc. simpl.
      split; [done|]. split; [by rewrite H2|by apply Forall_cons].
    + exists []. by rewrite app_nil_r.
Qed.

Lemma drain_to_open_prefix output stack :
  ∃ pfx, (drain_to_open output stack).1 = output ++ pfx
         ∧ pfx ++ (drain_to_open output stack).2 = stack
         ∧ ("(" ∉ pfx).
Proof.
  revert output. induction stack as [|t stack IH]; intros output; simpl.
  - exists []. rewrite app_nil_r. split; [done|]. split; [done|].
    apply not_elem_of_nil.
  - destruct (Ascii.eqb_spec t "(") as [->|Hne]; simpl.
    + exists []. rewrite app_nil_r. split; [done|]. split; [done|].
      apply not_elem_of_nil.
    + destruct (IH (output ++ [t])) as (pfx & H1 & H2 & H3).
      exists (t :: pfx). rewrite H1, <- app_assoc. simpl.
      split; [done|]. split; [by rewrite H2|].
      intros Hin. apply elem_of_cons in Hin as [?|?]; done.
Qed.

Lemma prec_open_low p pfx :
  1 ≤ p → Forall (λ t, p ≤ precedence_get t) pfx → ("(" ∉ pfx).
Proof.
  intros Hp Hall Hin. rewrite Forall_forall in Hall.
  specialize (Hall _ Hin). change (precedence_get "(") with 0 in Hall. lia.
Qed.

Lemma insert_concat_prefix prev output stack :
  ∃ pfx, (insert_concat prev output stack).1 = output ++ pfx
         ∧ ("(" ∉ pfx) ∧ (")" ∈ pfx → ")" ∈ stack)
         ∧ (")" ∈ (insert_concat prev output stack).2 → ")" ∈ stack).
Proof.
  unfold insert_concat. destruct (needs_concat prev).
  - destruct (drain_prefix 2 output stack) as (pfx & H1 & H2 & H3).
    destruct (drain 2 output stack) as [o s]. simpl in *.
    exists pfx. split; [done|]. split; [by eapply prec_open_low; [|done]; lia|].
    rewrite <- H2. split.
    + intros Hin. apply elem_of_app. by left.
    + intros Hin. apply elem_of_cons in Hin as [Heq|Hin]; [done|].
      apply elem_of_app. by right.
  - exists []. rewrite app_nil_r. simpl. split; [done|].
    split; [apply not_elem_of_nil|]. split; [|done].
    intros Hin. by apply elem_of_nil in Hin.
Qed.

Lemma isalnum_not_paren c : isalnum c = true → c ≠ "(" ∧ c ≠ ")".
Proof. intros H. split; intros ->; vm_compute in H; discriminate H. Qed.

(** The output never holds a parenthesis, the stack never a closing one. *)
Lemma to_postfix_step_parens st c st' :
  to_postfix_step st c = Ok st' →
  ("(" ∉ p_output st) → (")" ∉ p_output st ++ p_stack st) →
  ("(" ∉ p_output st') ∧ (")" ∉ p_output st' ++ p_stack st').
Proof.
  destruct st as [output stack prev]. unfold to_postfix_step. simpl.
  intros Hstep Hopen Hclose.
  assert ((")" ∉ output) ∧ (")" ∉ stack)) as [Hco Hcs].
  { split; intros Hin; apply Hclose, elem_of_app; [by left|by right]. }
  destruct (isalnum c) eqn:Ealnum.
  { destruct (insert_concat_prefix prev output stack) as (pfx & H1 & H2 & H3 & H4).
    destruct (insert_concat prev output stack) as [o s]. simpl in *.
    destruct (isalnum_not_paren c Ealnum) as [Hno Hnc].
    injection Hstep as <-. simpl. subst o. split.
    - rewrite !elem_of_app, list_elem_of_singleton.
      intros [[?|?]|?]; done.
    - rewrite !elem_of_app, list_elem_of_singleton.
      intros [[[?|?]|?]|?]; try done; [by apply Hcs, H3|by apply Hcs, H4]. }
  destruct (Ascii.eqb_spec c "(") as [->|Hno].
  { destruct (insert_concat_prefix prev output stack) as (pfx & H1 & H2 & H3 & H4).
    destruct (insert_concat prev output stack) as [o s]. simpl in *.
    injection Hstep as <-. simpl. subst o. split.
    - rewrite elem_of_app. intros [?|?]; done.
    - rewrite !elem_of_app, elem_of_cons.
      intros [[?|?]|[?|?]]; try done; [by apply Hcs, H3|by apply Hcs, H4]. }
  destruct (Ascii.eqb_spec c ")") as [->|Hnc].
  { destruct (drain_to_open_prefix output stack) as (pfx & H1 & H2 & H3).
    destruct (drain_to_open output stack) as [o [|t s']]; simpl in *; [done|].
    injection Hstep as <-. simpl. subst o. rewrite <- H2 in Hcs. split.
    - rewrite elem_of_app. intros [?|?]; done.
    - rewrite !elem_of_app. intros [[?|?]|?]; try done.
      + apply Hcs, elem_of_app. by left.
      + apply Hcs, elem_of_app. right. by right. }
  destruct (in_precedence c) eqn:Eprec.
  { assert (1 ≤ precedence_get c) as Hp.
    { unfold in_precedence in Eprec. unfold precedence_get.
      destruct (c =? "*"); [lia|]. destruct (c =? "."); [lia|].
      destruct (c =? "|"); [lia|]. done. }
    destruct (drain_prefix (precedence_get c) output stack)
      as (pfx & H1 & H2 & H3).
    destruct (drain (precedence_get c) output stack) as [o s]. simpl in *.
    injection Hstep as <-. simpl. subst o. rewrite <- H2 in Hcs. split.
    - rewrite elem_of_app. intros [?|Hin]; [done|].
      by apply (prec_open_low _ _ Hp H3).
    - rewrite !elem_of_app, elem_of_cons. intros [[?|?]|[?|?]]; try done.
      + apply Hcs, elem_of_app. by left.
      + apply Hcs, elem_of_app. by right. }
  injection Hstep as <-. simpl. split; [done|].
  rewrite elem_of_app. intros [?|?]; done.
Qed.

Lemma to_postfix_loop_parens R : ∀ st st',
  to_postfix_loop st R = Ok st' →
  ("(" ∉ p_output st) → (")" ∉ p_output st ++ p_stack st) →
  ("(" ∉ p_output st') ∧ (")" ∉ p_output st' ++ p_stack st')
  ∧ opens (p_stack st') + count_char ")" R
    = opens (p_stack st) + count_char "(" R.
Proof.
  induction R as [|c R IH]; intros st st' Hrun Hopen Hclose; simpl in Hrun.
  - injection Hrun as <-. unfold count_char. simpl. by rewrite !Nat.add_0_r.
  - destruct (to_postfix_step st c) as [st1|] eqn:Hstep; [|done].
    destruct (to_postfix_step_parens st c st1 Hstep Hopen Hclose) as [Ho1 Hc1].
    destruct (IH st1 st' Hrun Ho1 Hc1) as (Ho & Hc & Hcount).
    split; [done|]. split; [done|].
    pose proof (to_postfix_step_opens st c) as Hop. rewrite Hstep in Hop.
    rewrite !count_char_cons.
    destruct (Ascii.eqb_spec c ")") as [->|Hnc].
    + rewrite decide_True by done. rewrite decide_False by done. lia.
    + rewrite (decide_False (P := c = ")")) by done.
      destruct (Ascii.eqb_spec c "(") as [->|Hno].
      * rewrite decide_True by done. lia.
      * rewrite decide_False by done. lia.
Qed.

(** X10: a postfix string never holds a closing parenthesis, and it holds
    one opening parenthesis for each one the regex leaves unclosed (none
    on balanced input); the builder then skips them. *)
Theorem to_postfix_parentheses (R postfix : list ascii) :
  to_postfix R = Ok postfix →
  (")" ∉ postfix)
  ∧ count_char "(" postfix + count_char ")" R = count_char "(" R.
Proof.
  unfold to_postfix. intros Hrun.
  destruct (to_postfix_loop (mkP [] [] None) R) as [st|] eqn:E; [|done].
  injection Hrun as <-. unfold flush.
  destruct (to_postfix_loop_parens R _ _ E) as (Ho & Hc & Hcount); simpl.
  - apply not_elem_of_nil.
  - apply not_elem_of_nil.
  - split; [done|]. simpl in Hcount.
    rewrite count_char_app, <- (opens_count (p_stack st)).
    apply count_char_0 in Ho. rewrite Ho. lia.
Qed.

Lemma to_postfix_parentheses_witness :
  (")" ∉ chars "ab|(") ∧ count_char "(" (chars "ab|(") + count_char ")" (chars "(a|b")
                       = count_char "(" (chars "(a|b").
Proof. exact (to_postfix_parentheses (chars "(a|b") (chars "ab|(") eq_refl). Defined.

(** ** How many states the builder creates *)

Lemma count_allocating_app l k :
  count_allocating (l ++ k) = count_allocating l + count_allocating k.
Proof. unfold count_allocating. by rewrite filter_app, length_app. Qed.

Lemma count_allocating_cons c l :
  count_allocating (c :: l)
  = (if allocating c then 1 else 0) + count_allocating l.
Proof.
  unfold count_allocating. rewrite filter_cons.
  destruct (allocating c); by rewrite ?decide_True, ?decide_False by done.
Qed.

Lemma insert_concat_alloc prev output stack :
  count_allocating ((insert_concat prev output stack).1
                    ++ (insert_concat prev output stack).2)
  = count_allocating (output ++ stack).
Proof.
  unfold insert_concat. destruct (needs_concat prev); [|done].
  pose proof (drain_app 2 output stack) as H.
  destruct (drain 2 output stack) as [o s]. simpl in *.
  rewrite <- H, !count_allocating_app, count_allocating_cons. simpl. lia.
Qed.

Lemma to_postfix_step_alloc st c st' :
  to_postfix_step st c = Ok st' →
  count_allocating (p_output st' ++ p_stack st')
  = count_allocating (p_output st ++ p_stack st)
    + (if allocating c then 1 else 0).
Proof.
  destruct st as [output stack prev]. unfold to_postfix_step. simpl.
  unfold allocating. destruct (isalnum c) eqn:Ealnum.
  { pose proof (insert_concat_alloc prev output stack) as H.
    destruct (insert_concat prev output stack) as [o s]. simpl in *.
    intros [= <-]. simpl. rewrite <- H.
    rewrite <- app_assoc, !count_allocating_app, count_allocating_cons.
    unfold allocating at 1. rewrite Ealnum. simpl. lia. }
  destruct (Ascii.eqb_spec c "(") as [->|Hno].
  { pose proof (insert_concat_alloc prev output stack) as H.
    destruct (insert_concat prev output stack) as [o s]. simpl in *.
    intros [= <-]. simpl. rewrite <- H.
    rewrite !count_allocating_app, count_allocating_cons. simpl. lia. }
  destruct (Ascii.eqb_spec c ")") as [->|Hnc].
  { pose proof (drain_to_open_app output stack) as H.
    pose proof (drain_to_open_spec output stack) as Hs.
    destruct (drain_to_open output stack) as [o [|t s']]; simpl in *; [done|].
    intros [= <-]. simpl. rewrite <- H. destruct Hs as [-> _].
    rewrite !count_allocating_app, count_allocating_cons. simpl. lia. }
  destruct (in_precedence c) eqn:Eprec.
  { pose proof (drain_app (precedence_get c) output stack) as H.
    destruct (drain (precedence_get c) output stack) as [o s]. simpl in *.
    intros [= <-]. simpl. rewrite <- H.
    rewrite !count_allocating_app, count_allocating_cons.
    unfold allocating at 1. rewrite Ealnum. simpl. lia. }
  intros [= <-]. simpl.
  unfold in_precedence in Eprec.
  apply orb_false_iff in Eprec as [Eprec Ebar].
  apply orb_false_iff in Eprec as [Estar _]. rewrite Ebar, Estar. simpl. lia.
Qed.

Lemma to_postfix_loop_alloc R : ∀ st st',
  to_postfix_loop st R = Ok st' →
  count_allocating (p_output st' ++ p_stack st')
  = count_allocating (p_output st ++ p_stack st) + count_allocating R.
Proof.
  induction R as [|c R IH]; intros st st' Hrun; simpl in Hrun.
  - injection Hrun as <-. unfold count_allocating at 3. simpl. lia.
  - destruct (to_postfix_step st c) as [st1|] eqn:Hstep; [|done].
    rewrite (IH st1 st' Hrun), (to_postfix_step_alloc st c st1 Hstep).
    rewrite count_allocating_cons. lia.
Qed.

Lemma build_step_alloc stack c σ stack' σ' :
  build_step stack c σ = Ok (stack', σ') →
  id_counter σ' = id_counter σ + (if allocating c then 2 else 0).
Proof.
  unfold allocating. destruct (isalnum c) eqn:Ealnum.
  { rewrite (build_step_lit _ _ _ Ealnum). intros [= <- <-]. simpl. lia. }
  destruct (Ascii.eqb_spec c ".") as [->|Hdot].
  { destruct stack as [|f2 [|f1 stack]]; [done|done|].
    rewrite build_step_cat. intros [= <- <-]. simpl. lia. }
  destruct (Ascii.eqb_spec c "|") as [->|Hbar].
  { destruct stack as [|f2 [|f1 stack]]; [done|done|].
    rewrite build_step_alt. intros [= <- <-]. simpl. lia. }
  destruct (Ascii.eqb_spec c "*") as [->|Hstar].
  { destruct stack as [|f1 stack]; [done|].
    rewrite build_step_star. intros [= <- <-]. simpl. lia. }
  rewrite build_step_skip by done. intros [= <- <-]. simpl. lia.
Qed.

Lemma build_loop_alloc postfix : ∀ stack σ stack' σ',
  build_loop stack postfix σ = Ok (stack', σ') →
  id_counter σ' = id_counter σ + 2 * count_allocating postfix.
Proof.
  induction postfix as [|c rest IH]; intros stack σ stack' σ' Hrun.
  - injection Hrun as <- <-. unfold count_allocating. simpl. lia.
  - rewrite build_loop_cons in Hrun.
    destruct (build_step stack c σ) as [[stack1 σ1]|] eqn:Hstep; [|done].
    rewrite (IH _ _ _ _ Hrun), (build_step_alloc _ _ _ _ _ Hstep).
    rewrite count_allocating_cons. destruct (allocating c); lia.
Qed.

(** X11: whenever [regex_to_nfa] returns, it has created exactly two
    states for each literal, each [|] and each [*] of the input string,
    and none for anything else. *)
Theorem regex_to_nfa_state_count (R : list ascii) (σ : store) :
  match regex_to_nfa R σ with
  | Ok (_, σ') => id_counter σ' = id_counter σ + 2 * count_allocating R
  | Raise _ => True
  end.
Proof.
  unfold regex_to_nfa, to_postfix.
  destruct (to_postfix_loop (mkP [] [] None) R) as [st|] eqn:Epost; [|done].
  pose proof (to_postfix_loop_alloc R _ _ Epost) as Hcount. simpl in Hcount.
  unfold build_nfa, mbind, M_bind.
  destruct (build_loop [] (flush (p_output st) (p_stack st)) σ)
    as [[[|f stack] σ']|] eqn:Ebuild; unfold raise, mret, M_ret; try done.
  rewrite (build_loop_alloc _ _ _ _ _ Ebuild). unfold flush.
  by rewrite Hcount.
Qed.

(** ** What the builder leaves alone *)

Lemma build_step_old k stack c σ stack' σ' :
  build_step stack c σ = Ok (stack', σ') →
  k ≤ id_counter σ → Forall (above k) stack →
  (∀ q, q < k → heap σ' !! q = heap σ !! q)
  ∧ k ≤ id_counter σ' ∧ Forall (above k) stack'.
Proof.
  intros Hstep Hk Hstack. destruct (isalnum c) eqn:Ealnum.
  { rewrite (build_step_lit _ _ _ Ealnum) in Hstep.
    injection Hstep as <- <-. simpl. split; [|split; [lia|]].
    - intros q Hq.
      rewrite lookup_set_edge_ne, !lookup_new_ne by lia. done.
    - apply Forall_cons. split; [split; simpl; lia|done]. }
  destruct (Ascii.eqb_spec c ".") as [->|Hdot].
  { destruct stack as [|f2 [|f1 stack]]; [done|done|].
    rewrite build_step_cat in Hstep. injection Hstep as <- <-. simpl.
    apply Forall_cons in Hstack as [[Hs2 Ha2] Hstack].
    apply Forall_cons in Hstack as [[Hs1 Ha1] Hstack].
    split; [|split; [lia|]].
    - intros q Hq. rewrite lookup_extend_ne by lia. done.
    - apply Forall_cons. split; [by split|done]. }
  destruct (Ascii.eqb_spec c "|") as [->|Hbar].
  { destruct stack as [|f2 [|f1 stack]]; [done|done|].
    rewrite build_step_alt in Hstep. injection Hstep as <- <-. simpl.
    apply Forall_cons in Hstack as [[Hs2 Ha2] Hstack].
    apply Forall_cons in Hstack as [[Hs1 Ha1] Hstack].
    split; [|split; [lia|]].
    - intros q Hq. rewrite !lookup_extend_ne, !lookup_new_ne by lia. done.
    - apply Forall_cons. split; [split; simpl; lia|done]. }
  destruct (Ascii.eqb_spec c "*") as [->|Hstar].
  { destruct stack as [|f1 stack]; [done|].
    rewrite build_step_star in Hstep. injection Hstep as <- <-. simpl.
    apply Forall_cons in Hstack as [[Hs1 Ha1] Hstack].
    split; [|split; [lia|]].
    - intros q Hq. rewrite !lookup_extend_ne, !lookup_new_ne by lia. done.
    - apply Forall_cons. split; [split; simpl; lia|done]. }
  rewrite build_step_skip in Hstep by done. injection Hstep as <- <-. done.
Qed.

Lemma build_loop_old k postfix : ∀ stack σ stack' σ',
  build_loop stack postfix σ = Ok (stack', σ') →
  k ≤ id_counter σ → Forall (above k) stack →
  (∀ q, q < k → heap σ' !! q = heap σ !! q) ∧ Forall (above k) stack'.
Proof.
  induction postfix as [|c rest IH]; intros stack σ stack' σ' Hrun Hk Hstack.
  - by injection Hrun as <- <-.
  - rewrite build_loop_cons in Hrun.
    destruct (build_step stack c σ) as [[stack1 σ1]|] eqn:Hstep; [|done].
    destruct (build_step_old k _ _ _ _ _ Hstep Hk Hstack) as (Hold1 & Hk1 & Hs1).
    destruct (IH _ _ _ _ Hrun Hk1 Hs1) as [Hold Hs]. split; [|done].
    intros q Hq. rewrite Hold by done. by apply Hold1.
Qed.

(** X12: whatever the input string, a run of [regex_to_nfa] that returns
    has left every object that existed before untouched, and the start
    and accept nodes it returns are objects it created itself. *)
Theorem regex_to_nfa_frame (R : list ascii) (σ : store) :
  store_wf σ →
  match regex_to_nfa R σ with
  | Ok (f, σ') =>
      (∀ q, q < id_counter σ → heap σ' !! q = heap σ !! q)
      ∧ id_counter σ ≤ start f < id_counter σ'
      ∧ id_counter σ ≤ accept f < id_counter σ'
      ∧ is_Some (heap σ' !! start f) ∧ is_Some (heap σ' !! accept f)
      ∧ store_wf σ'
  | Raise _ => True
  end.
Proof.
  intros Hwf. pose proof (regex_to_nfa_shift R σ Hwf) as Hshift.
  destruct (regex_to_nfa R σ) as [[f σ']|e] eqn:Hrun; [|done].
  destruct (regex_to_nfa R empty_store) as [[fc σc]|ec]; [|done].
  destruct Hshift as (σ'' & [= -> <-] & Hsh & [Hs Ha]).
  pose proof (sh_counter _ _ _ Hsh) as Hcnt. simpl.
  split; [|repeat split; try lia].
  - unfold regex_to_nfa in Hrun.
    destruct (to_postfix R) as [postfix|]; [|done].
    unfold build_nfa, mbind, M_bind in Hrun.
    destruct (build_loop [] postfix σ) as [[[|f' stack] σ1]|] eqn:Ebuild;
      try done.
    injection Hrun as _ <-.
    by apply (build_loop_old (id_counter σ) _ _ _ _ _ Ebuild).
  - by apply (sh_alloc _ _ _ Hsh).
  - by apply (sh_alloc _ _ _ Hsh).
  - apply (sh_wf _ _ _ Hsh).
Qed.

Lemma regex_to_nfa_frame_witness :
  match regex_to_nfa example_regex (store_after example_regex) with
  | Ok (f, σ') =>
      (∀ q, q < id_counter (store_after example_regex) →
            heap σ' !! q = heap (store_after example_regex) !! q)
      ∧ id_counter (store_after example_regex) ≤ start f < id_counter σ'
      ∧ id_counter (store_after example_regex) ≤ accept f < id_counter σ'
      ∧ is_Some (heap σ' !! start f) ∧ is_Some (heap σ' !! accept f)
      ∧ store_wf σ'
  | Raise _ => True
  end.
Proof.
  exact (regex_to_nfa_frame example_regex (store_after example_regex)
           (store_after_wf example_regex)).
Defined.

(** ** The regex alphabet is enough *)

Lemma matches_lits r s : matches r s → ∀ c, c ∈ s → c ∈ lits r.
Proof.
  induction 1 as [c|r1 r2 s1 s2 _ IH1 _ IH2|r1 r2 s _ IH|r1 r2 s _ IH
                 |r|r s1 s2 _ IH1 _ IH2]; intros c' Hc'; simpl in *.
  - done.
  - apply elem_of_app in Hc' as [?|?]; apply elem_of_app; [left|right]; auto.
  - apply elem_of_app. left. auto.
  - apply elem_of_app. right. auto.
  - by apply elem_of_nil in Hc'.
  - apply elem_of_app in Hc' as [?|?]; auto.
Qed.

Lemma syntax_lits l R r :
  syntax l R r → ∀ c, c ∈ lits r → isalnum c = true ∧ c ∈ R.
Proof.
  induction 1 as [c Hc|R r _ IH|R r _ IH|R r _ IH|R r _ IH
                 |R1 R2 r1 r2 _ IH1 _ IH2|R r _ IH|R1 R2 r1 r2 _ IH1 _ IH2];
    intros c' Hc'; simpl in *; auto.
  - apply list_elem_of_singleton in Hc' as ->. split; [done|by left].
  - destruct (IH c' Hc') as [? ?]. split; [done|].
    right. apply elem_of_app. by left.
  - destruct (IH c' Hc') as [? ?]. split; [done|].
    apply elem_of_app. by left.
  - apply elem_of_app in Hc' as [Hc'|Hc'].
    + destruct (IH1 c' Hc') as [? ?]. split; [done|]. apply elem_of_app. by left.
    + destruct (IH2 c' Hc') as [? ?]. split; [done|]. apply elem_of_app. by right.
  - apply elem_of_app in Hc' as [Hc'|Hc'].
    + destruct (IH1 c' Hc') as [? ?]. split; [done|]. apply elem_of_app. by left.
    + destruct (IH2 c' Hc') as [? ?]. split; [done|].
      apply elem_of_app. right. by right.
Qed.

(** X13: for a regex of the grammar the DFA decides matching on every
    string, the strings with symbols outside the alphabet included: it
    accepts a string iff the string matches the regex. *)
Theorem regex_to_dfa_decides_matching (R : list ascii) (r : regex)
    (σ : store) (d0 : nat) (alphabet : list ascii) :
  parses R r → store_wf σ → set_order (extract_alphabet R) alphabet →
  ∃ nfa σ' fuel0 ds counter,
    regex_to_nfa R σ = Ok (nfa, σ')
    ∧ (∀ fuel, fuel0 ≤ fuel →
               nfa_to_dfa fuel (heap σ') nfa alphabet d0 = Some (ds, counter))
    ∧ ∀ s, dfa_accepts ds s = true ↔ matches r s.
Proof.
  intros Hsyn Hwf Halpha.
  destruct (regex_to_nfa_parses R r σ Hsyn Hwf) as (f & σ' & Hrun & Hb).
  destruct Hb as [Hc Hwf' Hold Hfrag].
  set (X := set_seq (id_counter σ) (id_counter σ' - id_counter σ) : gset nat).
  destruct (frag_ok_closed _ _ _ _ _ Hfrag) as [Hstart Hclosed].
  destruct (nfa_to_dfa_spec (heap σ') f alphabet X d0 Hstart Hclosed)
    as (ds & counter & Hdfa & Hfinal).
  exists f, σ', (S (2 ^ size X)), ds, counter.
  split; [done|]. split.
  { intros fuel Hfuel. apply Hdfa. lia. }
  intros s.
  assert (matches r s → ∀ c, c ∈ s → c ∈ alphabet) as Hover.
  { intros Hm c Hc'. apply (set_order_elem _ _ _ Halpha).
    apply elem_of_extract_alphabet.
    apply (syntax_lits _ _ _ Hsyn), (matches_lits _ _ Hm), Hc'. }
  destruct (decide (Forall (λ c, c ∈ alphabet) s)) as [Hs|Hs].
  - rewrite Forall_forall in Hs.
    rewrite (dfa_accepts_correct _ _ _ X d0 (S (size X)) Hstart Hclosed
               ltac:(lia) ds counter s Hfinal Hs).
    apply (fo_lang _ _ _ _ _ Hfrag).
  - assert (dfa_accepts ds s = false) as ->.
    { apply not_Forall_Exists in Hs; [|apply _].
      apply Exists_exists in Hs as (c & Hin & Hc').
      unfold dfa_accepts. destruct ds as [|d ds]; [done|].
      exact (dfa_run_foreign _ _ _ X d0 _ counter c Hfinal Hc' s _ Hin). }
    split; [done|]. intros Hm. destruct Hs. apply Forall_forall.
    by apply Hover.
Qed.

Lemma regex_to_dfa_decides_matching_witness :
  ∃ nfa σ' fuel0 ds counter,
    regex_to_nfa example_regex empty_store = Ok (nfa, σ')
    ∧ (∀ fuel, fuel0 ≤ fuel →
         nfa_to_dfa fuel (heap σ') nfa
           (elements (extract_alphabet example_regex)) 0
         = Some (ds, counter))
    ∧ ∀ s, dfa_accepts ds s = true
           ↔ matches (Cat (Cat (Cat (Star (Alt (Lit "a") (Lit "b")))
                                    (Lit "a")) (Lit "b")) (Lit "b")) s.
Proof.
  apply (regex_to_dfa_decides_matching example_regex _ empty_store 0 _
           parses_example store_wf_empty).
  unfold set_order. reflexivity.
Defined.

(** ** The builder keeps the identifiers *)

Lemma heap_ids_new i h : heap_ids h → heap_ids (heap_new i h).
Proof. intros Hh. by apply map_Forall_insert_2. Qed.

Lemma heap_ids_alter (f : State → State) s h :
  (∀ st, id (f st) = id st) → heap_ids h → heap_ids (alter f s h).
Proof.
  intros Hf Hh q st Hq. destruct (decide (q = s)) as [->|Hne].
  - rewrite lookup_alter_eq in Hq. destruct (h !! s) as [st0|] eqn:Hs; [|done].
    injection Hq as <-. rewrite Hf. by apply (Hh s).
  - rewrite lookup_alter_ne in Hq by done. by apply (Hh q).
Qed.

Lemma heap_ids_extend a ts h :
  heap_ids h → heap_ids (heap_extend_epsilon a ts h).
Proof. by apply heap_ids_alter. Qed.

Lemma heap_ids_set_edge s c ts h :
  heap_ids h → heap_ids (heap_set_edge s c ts h).
Proof. by apply heap_ids_alter. Qed.

Lemma build_step_ids stack c σ stack' σ' :
  build_step stack c σ = Ok (stack', σ') →
  heap_ids (heap σ) → heap_ids (heap σ').
Proof.
  intros Hstep Hh. destruct (isalnum c) eqn:Ealnum.
  { rewrite (build_step_lit _ _ _ Ealnum) in Hstep.
    injection Hstep as <- <-. simpl.
    by apply heap_ids_set_edge, heap_ids_new, heap_ids_new. }
  destruct (Ascii.eqb_spec c ".") as [->|Hdot].
  { destruct stack as [|f2 [|f1 stack]]; [done|done|].
    rewrite build_step_cat in Hstep. injection Hstep as <- <-. simpl.
    by apply heap_ids_extend. }
  destruct (Ascii.eqb_spec c "|") as [->|Hbar].
  { destruct stack as [|f2 [|f1 stack]]; [done|done|].
    rewrite build_step_alt in Hstep. injection Hstep as <- <-. simpl.
    by do 3 apply heap_ids_extend; do 2 apply heap_ids_new. }
  destruct (Ascii.eqb_spec c "*") as [->|Hstar].
  { destruct stack as [|f1 stack]; [done|].
    rewrite build_step_star in Hstep. injection Hstep as <- <-. simpl.
    by do 2 apply heap_ids_extend; do 2 apply heap_ids_new. }
  rewrite build_step_skip in Hstep by done. by injection Hstep as <- <-.
Qed.

Lemma build_loop_ids postfix : ∀ stack σ stack' σ',
  build_loop stack postfix σ = Ok (stack', σ') →
  heap_ids (heap σ) → heap_ids (heap σ').
Proof.
  induction postfix as [|c rest IH]; intros stack σ stack' σ' Hrun Hh.
  - by injection Hrun as <- <-.
  - rewrite build_loop_cons in Hrun.
    destruct (build_step stack c σ) as [[stack1 σ1]|] eqn:Hstep; [|done].
    eapply IH; [done|]. by eapply build_step_ids.
Qed.

Lemma regex_to_nfa_ids R σ f σ' :
  regex_to_nfa R σ = Ok (f, σ') → heap_ids (heap σ) → heap_ids (heap σ').
Proof.
  unfold regex_to_nfa. destruct (to_postfix R) as [postfix|]; [|done].
  unfold build_nfa, mbind, M_bind.
  destruct (build_loop [] postfix σ) as [[[|f' stack] σ1]|] eqn:Ebuild;
    try done.
  intros [= _ <-]. by eapply build_loop_ids.
Qed.

Lemma store_after_ids R : heap_ids (heap (store_after R)).
Proof.
  unfold store_after.
  destruct (regex_to_nfa R empty_store) as [[f σ]|e] eqn:E.
  - apply (regex_to_nfa_ids R empty_store f σ E). apply map_Forall_empty.
  - apply map_Forall_empty.
Qed.

(** ** [NFA.describe] *)

Lemma elem_of_edge_targets h q st q' :
  h !! q = Some st → q' ∈ edge_targets st ↔ ∃ c, q' ∈ edges_of h q c.
Proof.
  intros Hst. unfold edge_targets, edges_of. rewrite Hst, list_elem_of_join.
  split.
  - intros (ts & Hq' & Hts).
    apply list_elem_of_fmap in Hts as ([c ts'] & -> & Hc).
    apply elem_of_map_to_list in Hc. exists c. simpl in *. by rewrite Hc.
  - intros (c & Hq'). destruct (edges st !! c) as [ts|] eqn:E;
      simpl in Hq'; [|by apply elem_of_nil in Hq'].
    exists ts. split; [done|]. apply list_elem_of_fmap.
    exists (c, ts). split; [done|]. by apply elem_of_map_to_list.
Qed.

Lemma successor_reachable h p q q' :
  reachable h p q → successor h q q' → reachable h p q'.
Proof.
  intros [s Hpath] [Heps|[c Hsym]].
  - exists s. by eapply nfa_path_snoc_eps.
  - exists (s ++ [c]). by eapply nfa_path_snoc_sym.
Qed.

Lemma successor_None h q q' : h !! q = None → ¬ successor h q q'.
Proof.
  intros Hq [Heps|[c Hsym]].
  - unfold epsilon_of in Heps. rewrite Hq in Heps. by apply elem_of_nil in Heps.
  - unfold edges_of in Hsym. rewrite Hq in Hsym. by apply elem_of_nil in Hsym.
Qed.

Lemma describe_loop_mono fuel : ∀ fuel' h stack visited description l,
  describe_loop fuel h stack visited description = Some l → fuel ≤ fuel' →
  describe_loop fuel' h stack visited description = Some l.
Proof.
  induction fuel as [|fuel IH]; intros fuel' h stack visited description l Hrun Hle.
  - destruct stack; simpl in Hrun; [|done]. by destruct fuel'.
  - destruct fuel' as [|fuel']; [lia|].
    destruct stack as [|state stack]; simpl in *; [done|].
    destruct (h !! state) as [st|]; [|apply IH; [done|lia]].
    destruct (decide (id st ∈ visited)); apply IH; done || lia.
Qed.

Section describe.
Variables (h : gmap nat State) (p : nat).
Hypothesis Hids : heap_ids h.

(** The invariant of the [while stack] loop of [describe]. *)
Record describe_inv (stack : list nat) (visited : gset nat)
    (description : list State) : Prop := {
  dv_visited : visited = list_to_set (id <$> description);
  dv_nodup : NoDup (id <$> description);
  dv_objects : ∀ st, st ∈ description → h !! id st = Some st;
  dv_stack : ∀ q, q ∈ stack → reachable h p q;
  dv_reach : ∀ q, q ∈ visited → reachable h p q;
  dv_pending : ∀ q q', q ∈ visited → successor h q q' →
    q' ∈ visited ∨ q' ∈ stack ∨ h !! q' = None;
  dv_start : p ∈ visited ∨ p ∈ stack ∨ h !! p = None;
  dv_head : match description with
            | [] => ∀ q, q ∈ stack → q = p
            | st :: _ => id st = p
            end
}.

Lemma describe_inv_init : describe_inv [p] ∅ [].
Proof.
  split; simpl; try done.
  - apply NoDup_nil_2.
  - intros st Hst. by apply elem_of_nil in Hst.
  - intros q Hq. apply list_elem_of_singleton in Hq as ->.
    exists []. apply path_refl.
  - right. left. by apply list_elem_of_singleton.
  - intros q Hq. by apply list_elem_of_singleton in Hq.
Qed.

Lemma describe_inv_skip state stack visited description :
  describe_inv (state :: stack) visited description →
  state ∈ visited ∨ h !! state = None →
  describe_inv stack visited description.
Proof.
  intros [Hv Hnd Hobj Hstack Hreach Hpend Hstart Hhead] Hskip.
  split; try done.
  - intros q Hq. apply Hstack. by right.
  - intros q q' Hq Hsucc.
    destruct (Hpend q q' Hq Hsucc) as [?|[Hin|?]]; [by left| |by right; right].
    apply elem_of_cons in Hin as [->|Hin]; [|by right; left].
    destruct Hskip; [by left|by right; right].
  - destruct Hstart as [?|[Hin|?]]; [by left| |by right; right].
    apply elem_of_cons in Hin as [->|Hin]; [|by right; left].
    destruct Hskip; [by left|by right; right].
  - destruct description; [|done]. intros q Hq. apply Hhead. by right.
Qed.

Lemma describe_inv_visit state st stack visited description :
  describe_inv (state :: stack) visited description →
  h !! state = Some st → state ∉ visited →
  describe_inv (reverse (epsilon st) ++ reverse (edge_targets st) ++ stack)
               ({[state]} ∪ visited) (description ++ [st]).
Proof.
  intros [Hv Hnd Hobj Hstack Hreach Hpend Hstart Hhead] Hst Hnew.
  assert (id st = state) as Hid by by apply (Hids state st).
  assert (reachable h p state) as Hstate by (apply Hstack; by left).
  assert (∀ q', q' ∈ reverse (epsilon st) ++ reverse (edge_targets st) ++ stack
                ↔ successor h state q' ∨ q' ∈ stack) as Hnewstack.
  { intros q'. rewrite !elem_of_app, !elem_of_reverse.
    rewrite (elem_of_edge_targets h state st q' Hst).
    unfold successor, epsilon_of. rewrite Hst. tauto. }
  split.
  - rewrite fmap_app, list_to_set_app_L, <- Hv. simpl. rewrite Hid. set_solver.
  - rewrite fmap_app. apply NoDup_app. split; [done|]. split.
    + intros q Hq Hq'. simpl in Hq'. apply list_elem_of_singleton in Hq'.
      apply Hnew. rewrite Hv, elem_of_list_to_set. congruence.
    + apply NoDup_singleton.
  - intros st' Hst'. apply elem_of_app in Hst' as [?|Hst']; [by apply Hobj|].
    apply list_elem_of_singleton in Hst' as ->. by rewrite Hid.
  - intros q Hq. apply Hnewstack in Hq as [Hq|Hq].
    + by eapply successor_reachable.
    + apply Hstack. by right.
  - intros q Hq. apply elem_of_union in Hq as [Hq|Hq]; [|by apply Hreach].
    by apply elem_of_singleton in Hq as ->.
  - intros q q' Hq Hsucc. rewrite Hnewstack.
    apply elem_of_union in Hq as [Hq|Hq].
    + apply elem_of_singleton in Hq as ->. right. left. by left.
    + destruct (Hpend q q' Hq Hsucc) as [?|[Hin|?]];
        [left; set_solver| |by right; right].
      apply elem_of_cons in Hin as [->|Hin]; [left; set_solver|].
      right. left. by right.
  - rewrite Hnewstack.
    destruct Hstart as [?|[Hin|?]]; [left; set_solver| |by right; right].
    apply elem_of_cons in Hin as [->|Hin]; [left; set_solver|].
    right. left. by right.
  - destruct description as [|st0 description]; simpl; [|done].
    rewrite Hid. apply Hhead. by left.
Qed.

(** What the invariant says of the list once the stack is empty. *)
Lemma describe_inv_final visited l :
  describe_inv [] visited l →
  NoDup (id <$> l)
  ∧ (∀ q, q ∈ id <$> l ↔ reachable h p q ∧ is_Some (h !! q))
  ∧ (∀ st, st ∈ l → h !! id st = Some st)
  ∧ (is_Some (h !! p) → head (id <$> l) = Some p).
Proof.
  intros [Hv Hnd Hobj Hstack Hreach Hpend Hstart Hhead].
  assert (∀ q, q ∈ id <$> l ↔ q ∈ visited) as Hin.
  { intros q. by rewrite Hv, elem_of_list_to_set. }
  assert (∀ q, q ∈ visited → is_Some (h !! q)) as Halloc.
  { intros q Hq. apply Hin, list_elem_of_fmap in Hq as (st & -> & Hst).
    rewrite (Hobj st Hst). eauto. }
  split; [done|]. split; [|split; [done|]].
  - intros q. rewrite Hin. split; [by eauto|].
    intros [[s Hpath] Hq].
    assert (∀ x, x ∈ visited ∨ h !! x = None →
                 nfa_path h x s q → q ∈ visited) as Hgo.
    { clear Hpath. intros x Hx Hpath.
      induction Hpath as [q|x x' s q Hstep _ IH|x c x' s q Hstep _ IH].
      - destruct Hx as [?|Hnone]; [done|]. rewrite Hnone in Hq.
        by destruct Hq.
      - apply (IH Hq). destruct Hx as [Hx|Hnone].
        + destruct (Hpend x x' Hx (or_introl Hstep)) as [?|[Hs|?]];
            [by left|by apply elem_of_nil in Hs|by right].
        + by destruct (successor_None h x x' Hnone (or_introl Hstep)).
      - apply (IH Hq). destruct Hx as [Hx|Hnone].
        + destruct (Hpend x x' Hx (or_intror (ex_intro _ c Hstep)))
            as [?|[Hs|?]];
            [by left|by apply elem_of_nil in Hs|by right].
        + by destruct (successor_None h x x' Hnone
                         (or_intror (ex_intro _ c Hstep))). }
    apply (Hgo p); [|done].
    destruct Hstart as [?|[Hs|?]];
      [by left|by apply elem_of_nil in Hs|by right].
  - intros Hp. destruct l as [|st l]; simpl in *; [|by rewrite Hhead].
    destruct Hstart as [Hs|[Hs|Hs]].
    + rewrite Hv in Hs. set_solver.
    + by apply elem_of_nil in Hs.
    + rewrite Hs in Hp. by destruct Hp.
Qed.

Lemma describe_loop_terminates (X : gset nat) :
  (∀ q, q ∈ X ↔ reachable h p q) →
  ∀ n visited, size (X ∖ visited) ≤ n →
  ∀ stack description, describe_inv stack visited description →
  ∃ fuel visited' l,
    describe_loop fuel h stack visited description = Some l
    ∧ describe_inv [] visited' l.
Proof.
  intros HX. induction n as [|n IHn]; intros visited Hsize;
    induction stack as [|state stack IHs]; intros description Hinv.
  - exists 0, visited, description. done.
  - assert (state ∈ visited ∨ h !! state = None) as Hskip.
    { destruct (h !! state) as [st|] eqn:Hst; [|by right]. left.
      destruct (decide (state ∈ visited)) as [|Hnew]; [done|].
      assert (state ∈ X ∖ visited) as Hin.
      { apply elem_of_difference. split; [|done].
        apply HX, (dv_stack _ _ _ Hinv). by left. }
      assert (size (X ∖ visited) ≠ 0) as Hne.
      { intros H0. apply size_empty_inv in H0. set_solver. }
      lia. }
    destruct (IHs description (describe_inv_skip _ _ _ _ Hinv Hskip))
      as (fuel & visited' & l & Hrun & Hfinal).
    exists (S fuel), visited', l. split; [|done]. simpl.
    destruct (h !! state) as [st|] eqn:Hst; [|done].
    destruct Hskip as [Hv|?]; [|done].
    rewrite (Hids state st Hst). by rewrite decide_True.
  - exists 0, visited, description. done.
  - destruct (h !! state) as [st|] eqn:Hst.
    + destruct (decide (state ∈ visited)) as [Hv|Hnew].
      * destruct (IHs description
                    (describe_inv_skip _ _ _ _ Hinv (or_introl Hv)))
          as (fuel & visited' & l & Hrun & Hfinal).
        exists (S fuel), visited', l. split; [|done]. simpl.
        rewrite Hst, (Hids state st Hst). by rewrite decide_True.
      * pose proof (describe_inv_visit _ _ _ _ _ Hinv Hst Hnew) as Hinv'.
        destruct (IHn ({[state]} ∪ visited)) with (2 := Hinv')
          as (fuel & visited' & l & Hrun & Hfinal).
        { assert (state ∈ X) as HsX.
          { apply HX, (dv_stack _ _ _ Hinv). by left. }
          assert (X ∖ visited = {[state]} ∪ X ∖ ({[state]} ∪ visited)) as Heq.
          { apply set_eq. intros x. destruct (decide (x = state)); set_solver. }
          rewrite Heq, size_union, size_singleton in Hsize by set_solver.
          lia. }
        exists (S fuel), visited', l. split; [|done]. simpl.
        rewrite Hst, (Hids state st Hst). by rewrite decide_False.
    + destruct (IHs description
                  (describe_inv_skip _ _ _ _ Hinv (or_intror Hst)))
        as (fuel & visited' & l & Hrun & Hfinal).
      exists (S fuel), visited', l. split; [|done]. simpl. by rewrite Hst.
Qed.
End describe.

(** X14: on a heap whose objects carry their own identifier, [describe]
    terminates and renders every allocated state reachable from the
    start exactly once, the start state first, and no other state. *)
Theorem describe_lists_reachable (h : gmap nat State) (nfa : NFA) :
  heap_ids h →
  ∃ fuel0 l,
    (∀ fuel, fuel0 ≤ fuel → describe_states fuel h nfa = Some l)
    ∧ NoDup (id <$> l)
    ∧ (∀ q, q ∈ id <$> l ↔ reachable h (start nfa) q ∧ is_Some (h !! q))
    ∧ (∀ st, st ∈ l → h !! id st = Some st)
    ∧ (is_Some (h !! start nfa) → head (id <$> l) = Some (start nfa)).
Proof.
  intros Hids.
  destruct (reachable_set_exists h (start nfa)) as [X HX].
  destruct (describe_loop_terminates h (start nfa) Hids X HX
              (size X) ∅ ltac:(apply subseteq_size; set_solver)
              [start nfa] [] (describe_inv_init h (start nfa)))
    as (fuel0 & visited & l & Hrun & Hfinal).
  exists fuel0, l. split.
  - intros fuel Hfuel. unfold describe_states.
    by eapply describe_loop_mono.
  - eapply describe_inv_final; eauto.
Qed.

Lemma describe_lists_reachable_witness :
  heap_ids (heap (store_after example_regex))
  ∧ ∃ fuel0 l,
      (∀ fuel, fuel0 ≤ fuel →
         describe_states fuel (heap (store_after example_regex))
           (mkNFA 6 13) = Some l)
      ∧ NoDup (id <$> l)
      ∧ (∀ q, q ∈ id <$> l ↔
           reachable (heap (store_after example_regex)) 6 q
           ∧ is_Some (heap (store_after example_regex) !! q))
      ∧ (∀ st, st ∈ l → heap (store_after example_regex) !! id st = Some st)
      ∧ (is_Some (heap (store_after example_regex) !! 6) →
           head (id <$> l) = Some 6).
Proof.
  split; [apply store_after_ids|].
  exact (describe_lists_reachable _ (mkNFA 6 13)
           (store_after_ids example_regex)).
Defined.

(** ** The builder leaves no state behind *)

Lemma build_loop_app p : ∀ rest stack σ,
  build_loop stack (p ++ rest) σ
  = match build_loop stack p σ with
    | Ok (stack', σ') => build_loop stack' rest σ'
    | Raise e => Raise e
    end.
Proof.
  induction p as [|c p IH]; intros rest stack σ; [done|].
  cbn [app]. rewrite !build_loop_cons.
  destruct (build_step stack c σ) as [[stack1 σ1]|]; [|done]. apply IH.
Qed.

Lemma reachable_refl h p : reachable h p p.
Proof. exists []. apply path_refl. Qed.

Lemma reachable_trans h p q r :
  reachable h p q → reachable h q r → reachable h p r.
Proof. intros [s Hs] [t Ht]. exists (s ++ t). by eapply nfa_path_app. Qed.

Lemma reachable_sub h h' p q :
  heap_sub h h' → reachable h p q → reachable h' p q.
Proof.
  intros Hsub [s Hpath].
  induction Hpath as [q|p p' s q Hstep _ IH|p c p' s q Hstep _ IH].
  - apply reachable_refl.
  - eapply reachable_trans; [|exact IH].
    eapply successor_reachable; [apply reachable_refl|].
    apply Hsub. by left.
  - eapply reachable_trans; [|exact IH].
    eapply successor_reachable; [apply reachable_refl|].
    apply Hsub. right. by exists c.
Qed.

Lemma heap_sub_trans h1 h2 h3 : heap_sub h1 h2 → heap_sub h2 h3 → heap_sub h1 h3.
Proof. intros H12 H23 q q' Hs. by apply H23, H12. Qed.

Lemma heap_sub_new i h : h !! i = None → heap_sub h (heap_new i h).
Proof.
  intros Hi q q' Hs. destruct (decide (q = i)) as [->|Hne].
  - by destruct (successor_None h i q' Hi).
  - destruct Hs as [Heps|[c Hsym]].
    + left. rewrite epsilon_of_new. by rewrite decide_False.
    + right. exists c. rewrite edges_of_new. by rewrite decide_False.
Qed.

Lemma heap_sub_extend a ts h : heap_sub h (heap_extend_epsilon a ts h).
Proof.
  intros q q' [Heps|[c Hsym]].
  - left. destruct (h !! a) as [st|] eqn:Ha.
    + rewrite epsilon_of_extend by eauto.
      destruct (decide (q = a)) as [->|]; [|done].
      apply elem_of_app. by left.
    + unfold epsilon_of, heap_extend_epsilon in *.
      destruct (decide (q = a)) as [->|Hne].
      * rewrite Ha in Heps. by apply elem_of_nil in Heps.
      * by rewrite lookup_alter_ne.
  - right. exists c. by rewrite edges_of_extend.
Qed.

Lemma successor_extend a ts h q' :
  is_Some (h !! a) → q' ∈ ts → successor (heap_extend_epsilon a ts h) a q'.
Proof.
  intros Ha Hq'. left. rewrite epsilon_of_extend by done.
  rewrite decide_True by done. apply elem_of_app. by right.
Qed.

Lemma reachable_edge h p q :
  successor h p q → reachable h p q.
Proof. intros Hs. eapply successor_reachable; [apply reachable_refl|done]. Qed.

(** A fragment keeps its paths when the heap changes outside its range. *)
Lemma frag_conn_frame h h' f r lo hi :
  frag_ok h f r lo hi → (∀ x, lo ≤ x < hi → h' !! x = h !! x) →
  frag_conn h f lo hi → frag_conn h' f lo hi.
Proof.
  intros Hf Hagree Hconn q Hq. destruct (Hconn q Hq) as [s Hpath].
  exists s.
  apply (nfa_path_frame h' h lo hi).
  - intros x Hx. pose proof (fo_closed _ _ _ _ _ Hf x Hx) as [He Hs].
    unfold epsilon_of, edges_of in *. rewrite (Hagree x Hx). done.
  - intros x Hx. by rewrite Hagree.
  - apply (fo_start _ _ _ _ _ Hf).
  - done.
Qed.

Lemma conn_lit h n c :
  frag_conn (heap_set_edge n c [S n] (heap_new (S n) (heap_new n h)))
            (mkNFA n (S n)) n (S (S n)).
Proof.
  intros q Hq. simpl. destruct (decide (q = n)) as [->|Hne];
    [apply reachable_refl|].
  assert (q = S n) as -> by lia.
  apply reachable_edge. right. exists c.
  rewrite edges_of_set_edge.
  - rewrite decide_True by done. by apply list_elem_of_singleton.
  - apply alloc_new. right. apply alloc_new. by left.
Qed.

Lemma conn_cat h f1 f2 r1 r2 n n1 n2 :
  frag_ok h f1 r1 n n1 → frag_ok h f2 r2 n1 n2 →
  frag_conn h f1 n n1 → frag_conn h f2 n1 n2 →
  frag_conn (heap_extend_epsilon (accept f1) [start f2] h)
            (mkNFA (start f1) (accept f2)) n n2.
Proof.
  intros Hf1 Hf2 Hc1 Hc2 q Hq. simpl.
  pose proof (fo_accept _ _ _ _ _ Hf1) as Ha1.
  destruct (decide (q < n1)) as [Hlt|Hge].
  - eapply reachable_sub; [apply heap_sub_extend|]. apply Hc1. lia.
  - eapply reachable_trans.
    { eapply reachable_sub; [apply heap_sub_extend|]. by apply Hc1. }
    eapply reachable_trans.
    { apply reachable_edge, successor_extend.
      - by apply (fo_alloc _ _ _ _ _ Hf1).
      - by apply list_elem_of_singleton. }
    eapply reachable_sub; [apply heap_sub_extend|]. apply Hc2. lia.
Qed.

Lemma conn_alt h f1 f2 r1 r2 n n1 n2 :
  frag_ok h f1 r1 n n1 → frag_ok h f2 r2 n1 n2 →
  frag_conn h f1 n n1 → frag_conn h f2 n1 n2 →
  (∀ q, n2 ≤ q → h !! q = None) →
  frag_conn (heap_extend_epsilon (accept f2) [S n2]
               (heap_extend_epsilon (accept f1) [S n2]
                  (heap_extend_epsilon n2 [start f1; start f2]
                     (heap_new (S n2) (heap_new n2 h)))))
            (mkNFA n2 (S n2)) n (S (S n2)).
Proof.
  intros Hf1 Hf2 Hc1 Hc2 Hfresh.
  pose proof (fo_accept _ _ _ _ _ Hf1) as Ha1.
  pose proof (fo_start _ _ _ _ _ Hf1) as Hs1.
  set (h0 := heap_new (S n2) (heap_new n2 h)).
  set (h1 := heap_extend_epsilon n2 [start f1; start f2] h0).
  set (h2 := heap_extend_epsilon (accept f1) [S n2] h1).
  set (h3 := heap_extend_epsilon (accept f2) [S n2] h2).
  assert (heap_sub h h0) as Hsub0.
  { eapply heap_sub_trans; [apply (heap_sub_new n2), Hfresh; lia|].
    apply heap_sub_new. rewrite lookup_new_ne by lia. apply Hfresh. lia. }
  assert (heap_sub h h3) as Hsub.
  { repeat (eapply heap_sub_trans; [|apply heap_sub_extend]). done. }
  assert (is_Some (h0 !! n2)) as Hn2.
  { apply alloc_new. right. apply alloc_new. by left. }
  assert (∀ x, x ∈ [start f1; start f2] → reachable h3 n2 x) as Hfork.
  { intros x Hx. eapply reachable_sub.
    { eapply heap_sub_trans; apply heap_sub_extend. }
    by apply reachable_edge, successor_extend. }
  assert (∀ x, n ≤ x < n1 → reachable h3 n2 x) as Hleft.
  { intros x Hx. eapply reachable_trans.
    - apply (Hfork (start f1)). set_solver.
    - eapply reachable_sub; [exact Hsub|]. by apply Hc1. }
  intros q Hq. simpl.
  destruct (decide (q < n1)) as [Hlt|Hge1]; [apply Hleft; lia|].
  destruct (decide (q < n2)) as [Hlt|Hge2].
  { eapply reachable_trans.
    - apply (Hfork (start f2)). set_solver.
    - eapply reachable_sub; [exact Hsub|]. apply Hc2. lia. }
  destruct (decide (q = n2)) as [->|Hne]; [apply reachable_refl|].
  assert (q = S n2) as -> by lia.
  eapply reachable_trans; [apply (Hleft (accept f1) Ha1)|].
  eapply reachable_sub; [apply heap_sub_extend|].
  apply reachable_edge, successor_extend.
  - apply alloc_extend. apply alloc_new. right. apply alloc_new. right.
    by apply (fo_alloc _ _ _ _ _ Hf1).
  - by apply list_elem_of_singleton.
Qed.

Lemma conn_star h f1 r1 n n1 :
  frag_ok h f1 r1 n n1 → frag_conn h f1 n n1 →
  (∀ q, n1 ≤ q → h !! q = None) →
  frag_conn (heap_extend_epsilon (accept f1) [start f1; S n1]
               (heap_extend_epsilon n1 [start f1; S n1]
                  (heap_new (S n1) (heap_new n1 h))))
            (mkNFA n1 (S n1)) n (S (S n1)).
Proof.
  intros Hf1 Hc1 Hfresh.
  set (h0 := heap_new (S n1) (heap_new n1 h)).
  set (h1 := heap_extend_epsilon n1 [start f1; S n1] h0).
  set (h2 := heap_extend_epsilon (accept f1) [start f1; S n1] h1).
  assert (heap_sub h h2) as Hsub.
  { repeat (eapply heap_sub_trans; [|apply heap_sub_extend]).
    eapply heap_sub_trans; [apply (heap_sub_new n1), Hfresh; lia|].
    apply heap_sub_new. rewrite lookup_new_ne by lia. apply Hfresh. lia. }
  assert (is_Some (h0 !! n1)) as Hn1.
  { apply alloc_new. right. apply alloc_new. by left. }
  assert (∀ x, x ∈ [start f1; S n1] → reachable h2 n1 x) as Hfork.
  { intros x Hx. eapply reachable_sub; [apply heap_sub_extend|].
    by apply reachable_edge, successor_extend. }
  intros q Hq. simpl.
  destruct (decide (q < n1)) as [Hlt|Hge1].
  { eapply reachable_trans.
    - apply (Hfork (start f1)). set_solver.
    - eapply reachable_sub; [exact Hsub|]. apply Hc1. lia. }
  destruct (decide (q = n1)) as [->|Hne]; [apply reachable_refl|].
  assert (q = S n1) as -> by lia. apply Hfork. set_solver.
Qed.

Lemma build_postfix_run r stack σ :
  alnum_lits r → store_wf σ →
  ∃ f σ', build_loop stack (postfix_of r) σ = Ok (f :: stack, σ')
          ∧ builds σ σ' f r.
Proof.
  intros Hlits Hwf.
  destruct (build_postfix_of r Hlits stack σ [] Hwf) as (f & σ' & Hrun & Hb).
  rewrite app_nil_r in Hrun. by exists f, σ'.
Qed.

Lemma build_postfix_conn r : ∀ stack σ f σ',
  alnum_lits r → store_wf σ →
  build_loop stack (postfix_of r) σ = Ok (f :: stack, σ') →
  frag_conn (heap σ') f (id_counter σ) (id_counter σ').
Proof.
  induction r as [c|r1 IH1 r2 IH2|r1 IH1 r2 IH2|r1 IH1];
    intros stack σ f σ' Hlits Hwf Hrun; cbn [postfix_of alnum_lits] in *.
  - rewrite build_loop_cons, (build_step_lit _ _ _ Hlits) in Hrun.
    injection Hrun as <- <-. apply conn_lit.
  - destruct Hlits as [Hl1 Hl2].
    destruct (build_postfix_run r1 stack σ Hl1 Hwf)
      as (f1 & σ1 & Hrun1 & [Hc1 Hwf1 Hold1 Hf1]).
    destruct (build_postfix_run r2 (f1 :: stack) σ1 Hl2 Hwf1)
      as (f2 & σ2 & Hrun2 & [Hc2 Hwf2 Hold2 Hf2]).
    rewrite build_loop_app, Hrun1, build_loop_app, Hrun2 in Hrun.
    rewrite build_loop_cons, build_step_cat in Hrun.
    injection Hrun as <- <-. simpl.
    assert (∀ x, id_counter σ ≤ x < id_counter σ1 →
                 heap σ2 !! x = heap σ1 !! x) as Hagree.
    { intros x Hx. apply Hold2. lia. }
    apply (conn_cat _ _ _ r1 r2 _ (id_counter σ1)); try done.
    + by apply (frag_ok_frame (heap σ1)).
    + apply (frag_conn_frame (heap σ1) _ _ r1); try done.
      by apply (IH1 stack).
    + by apply (IH2 (f1 :: stack)).
  - destruct Hlits as [Hl1 Hl2].
    destruct (build_postfix_run r1 stack σ Hl1 Hwf)
      as (f1 & σ1 & Hrun1 & [Hc1 Hwf1 Hold1 Hf1]).
    destruct (build_postfix_run r2 (f1 :: stack) σ1 Hl2 Hwf1)
      as (f2 & σ2 & Hrun2 & [Hc2 Hwf2 Hold2 Hf2]).
    rewrite build_loop_app, Hrun1, build_loop_app, Hrun2 in Hrun.
    rewrite build_loop_cons, build_step_alt in Hrun.
    injection Hrun as <- <-. simpl.
    assert (∀ x, id_counter σ ≤ x < id_counter σ1 →
                 heap σ2 !! x = heap σ1 !! x) as Hagree.
    { intros x Hx. apply Hold2. lia. }
    apply (conn_alt _ _ _ r1 r2 _ (id_counter σ1)); try done.
    + by apply (frag_ok_frame (heap σ1)).
    + apply (frag_conn_frame (heap σ1) _ _ r1); try done.
      by apply (IH1 stack).
    + by apply (IH2 (f1 :: stack)).
    + intros q Hq. by apply store_wf_fresh.
  - destruct (build_postfix_run r1 stack σ Hlits Hwf)
      as (f1 & σ1 & Hrun1 & [Hc1 Hwf1 Hold1 Hf1]).
    rewrite build_loop_app, Hrun1 in Hrun.
    rewrite build_loop_cons, build_step_star in Hrun.
    injection Hrun as <- <-. simpl.
    apply (conn_star _ _ r1); try done.
    + by apply (IH1 stack).
    + intros q Hq. by apply store_wf_fresh.
Qed.

Lemma regex_to_nfa_conn R r σ f σ' :
  parses R r → store_wf σ → regex_to_nfa R σ = Ok (f, σ') →
  frag_conn (heap σ') f (id_counter σ) (id_counter σ').
Proof.
  intros Hsyn Hwf. unfold regex_to_nfa. rewrite (to_postfix_parses R r Hsyn).
  pose proof (syntax_alnum_lits _ _ _ Hsyn) as Hlits.
  destruct (build_postfix_run r [] σ Hlits Hwf) as (f1 & σ1 & Hrun1 & Hb).
  unfold build_nfa, mbind, M_bind. rewrite Hrun1. intros [= <- <-].
  by apply (build_postfix_conn r []).
Qed.

Lemma regex_to_nfa_counter R σ f σ' :
  regex_to_nfa R σ = Ok (f, σ') →
  id_counter σ' = id_counter σ + 2 * count_allocating R.
Proof.
  unfold regex_to_nfa, to_postfix.
  destruct (to_postfix_loop (mkP [] [] None) R) as [st|] eqn:Epost; [|done].
  pose proof (to_postfix_loop_alloc R _ _ Epost) as Hcount. simpl in Hcount.
  unfold build_nfa, mbind, M_bind.
  destruct (build_loop [] (flush (p_output st) (p_stack st)) σ)
    as [[[|f' stack] σ1]|] eqn:Ebuild; unfold raise, mret, M_ret; try done.
  intros [= _ <-].
  rewrite (build_loop_alloc _ _ _ _ _ Ebuild). unfold flush.
  by rewrite Hcount.
Qed.

(** X15: for an input of the grammar, [describe] on the NFA that
    [regex_to_nfa] returns lists the states this run has created, each
    of them once and the start state first, and no state of an earlier
    run. *)
Theorem describe_regex_to_nfa (R : list ascii) (r : regex) (σ : store) :
  parses R r → store_wf σ → heap_ids (heap σ) →
  ∃ f σ' fuel0 l,
    regex_to_nfa R σ = Ok (f, σ')
    ∧ (∀ fuel, fuel0 ≤ fuel → describe_states fuel (heap σ') f = Some l)
    ∧ NoDup (id <$> l)
    ∧ (∀ q, q ∈ id <$> l ↔ id_counter σ ≤ q < id_counter σ')
    ∧ length l = 2 * count_allocating R
    ∧ head (id <$> l) = Some (start f).
Proof.
  intros Hsyn Hwf Hids.
  destruct (regex_to_nfa_parses R r σ Hsyn Hwf)
    as (f & σ' & Hrun & [Hc Hwf' Hold Hf]).
  pose proof (regex_to_nfa_conn R r σ f σ' Hsyn Hwf Hrun) as Hconn.
  pose proof (regex_to_nfa_ids R σ f σ' Hrun Hids) as Hids'.
  destruct (reachable_set_exists (heap σ') (start f)) as [X HX].
  destruct (describe_loop_terminates (heap σ') (start f) Hids' X HX
              (size X) ∅ ltac:(apply subseteq_size; set_solver)
              [start f] [] (describe_inv_init (heap σ') (start f)))
    as (fuel0 & visited & l & Hloop & Hfinal).
  apply (describe_inv_final (heap σ') (start f) Hids') in Hfinal
    as (Hnd & Hin & Hobj & Hhead).
  assert (∀ q, q ∈ id <$> l ↔ id_counter σ ≤ q < id_counter σ') as Hrange.
  { intros q. rewrite Hin. split.
    - intros [[s Hpath] _].
      eapply (nfa_path_frame (heap σ') (heap σ')); eauto.
      + apply (fo_closed _ _ _ _ _ Hf).
      + apply (fo_start _ _ _ _ _ Hf).
    - intros Hq. split; [by apply Hconn|by apply (fo_alloc _ _ _ _ _ Hf)]. }
  exists f, σ', fuel0, l. split; [done|]. split; [|split; [done|]].
  { intros fuel Hfuel. unfold describe_states. by eapply describe_loop_mono. }
  split; [done|]. split.
  - pose proof (regex_to_nfa_counter R σ f σ' Hrun) as Hcount.
    assert (id <$> l ≡ₚ seq (id_counter σ) (id_counter σ' - id_counter σ))
      as Hperm.
    { apply NoDup_Permutation; [done|apply NoDup_seq|].
      intros q. rewrite Hrange, elem_of_seq. lia. }
    apply Permutation_length in Hperm.
    rewrite length_fmap, length_seq in Hperm. lia.
  - apply Hhead. apply (fo_alloc _ _ _ _ _ Hf), (fo_start _ _ _ _ _ Hf).
Qed.

Lemma describe_regex_to_nfa_witness :
  ∃ f σ' fuel0 l,
    regex_to_nfa example_regex (store_after example_regex) = Ok (f, σ')
    ∧ (∀ fuel, fuel0 ≤ fuel → describe_states fuel (heap σ') f = Some l)
    ∧ NoDup (id <$> l)
    ∧ (∀ q, q ∈ id <$> l ↔
          id_counter (store_after example_regex) ≤ q < id_counter σ')
    ∧ length l = 2 * count_allocating example_regex
    ∧ head (id <$> l) = Some (start f).
Proof.
  exact (describe_regex_to_nfa example_regex _ (store_after example_regex)
           parses_example (store_after_wf example_regex)
           (store_after_ids example_regex)).
Defined.

(** ** The tokenizer *)

Ltac ascii_cases c := destruct c as [[] [] [] [] [] [] [] []].

Lemma in_token_not_space c : in_token c = true → is_space c = false.
Proof. ascii_cases c; vm_compute; congruence. Qed.

Lemma digit_word c : is_digit c = true → is_word c = true.
Proof. ascii_cases c; vm_compute; congruence. Qed.

Lemma ident_start_word c : is_ident_start c = true → is_word c = true.
Proof. ascii_cases c; vm_compute; congruence. Qed.

Lemma blank_space c : is_blank c = true → is_space c = true.
Proof. unfold is_space. by intros ->. Qed.

Lemma space_not_start c :
  is_space c = true →
  is_digit c = false ∧ is_word c = false ∧ c ≠ ".".
Proof. ascii_cases c; vm_compute; intros; repeat split; congruence. Qed.

Lemma is_space_cases c :
  is_space c = true → c = " " ∨ c = "009" ∨ c = "010".
Proof.
  unfold is_space, is_blank. rewrite !orb_true_iff, !Ascii.eqb_eq. tauto.
Qed.

Lemma word_in_token c : is_word c = true → in_token c = true.
Proof. unfold in_token. by intros ->. Qed.

Lemma span_spec p s xs r :
  span p s = (xs, r) →
  s = xs ++ r ∧ Forall (λ c, p c = true) xs
  ∧ match r with [] => True | c :: _ => p c = false end.
Proof.
  revert xs r. induction s as [|c s IH]; intros xs r Hspan; simpl in Hspan.
  - by injection Hspan as <- <-.
  - destruct (p c) eqn:Hc.
    + destruct (span p s) as [xs' r'] eqn:Hs. injection Hspan as <- <-.
      destruct (IH xs' r' eq_refl) as (-> & Hall & Hr).
      split; [done|]. split; [by apply Forall_cons|done].
    + injection Hspan as <- <-. split; [done|]. split; [apply Forall_nil_2|done].
Qed.

Lemma span_stop p xs r :
  Forall (λ c, p c = true) xs →
  match r with [] => True | c :: _ => p c = false end →
  span p (xs ++ r) = (xs, r).
Proof.
  intros Hall Hr. induction Hall as [|c xs Hc _ IH]; simpl.
  - destruct r as [|c r]; [done|]. simpl. by rewrite Hr.
  - by rewrite Hc, IH.
Qed.

Lemma span_length p s xs r : span p s = (xs, r) → length r ≤ length s.
Proof.
  intros Hspan. apply span_spec in Hspan as (-> & _). rewrite length_app. lia.
Qed.

Lemma stops_not p rest :
  (∀ c, is_space c = true → p c = false) → stops rest →
  match rest with [] => True | c :: _ => p c = false end.
Proof. intros Hp. destruct rest as [|c rest]; [done|]. apply Hp. Qed.

Lemma stops_not_dot rest rest2 : stops rest → rest ≠ "." :: rest2.
Proof. intros Hs ->. simpl in Hs. discriminate Hs. Qed.

(** What a match is made of. *)
Lemma next_match_inv s k v rest :
  next_match s = Some (k, v, rest) →
  s = v ++ rest ∧ v ≠ []
  ∧ match k with
    | SKIP => Forall (λ c, is_blank c = true) v
    | NEWLINE => v = ["010"]
    | MISMATCH => ∃ c, v = [c] ∧ lexable c = false
    | _ => token_ok (k, v)
    end.
Proof.
  destruct s as [|c s]; [done|]. unfold next_match.
  destruct (is_digit c) eqn:Hdigit.
  { destruct (span is_digit s) as [ds rest1] eqn:Hds.
    apply span_spec in Hds as (-> & Hall & Hr).
    assert (Forall (λ c, in_token c = true) (c :: ds)) as Htok.
    { apply Forall_cons. split; [by apply word_in_token, digit_word|].
      eapply Forall_impl; [exact Hall|]. intros x Hx.
      by apply word_in_token, digit_word. }
    assert (∀ fs rest',
      Forall (λ c, is_digit c = true) fs → stops rest' →
      next_match ((c :: ds ++ "." :: fs) ++ rest')
      = Some (NUMBER, c :: ds ++ "." :: fs, rest')) as Hfrac.
    { intros fs rest' Hfs Hstop. cbn [app next_match]. rewrite Hdigit.
      rewrite <- app_assoc. cbn [app].
      rewrite (span_stop is_digit ds); [|done|done].
      rewrite (span_stop is_digit fs); [done|done|].
      apply stops_not; [|done]. intros x Hx. by apply space_not_start. }
    destruct rest1 as [|d rest1].
    - intros [= <- <- <-]. split; [by rewrite !app_nil_r|]. split; [done|].
      split; [by repeat split|]. split; [done|]. split; [done|].
      intros rest' Hstop. cbn [app next_match fst snd]. rewrite Hdigit.
      rewrite (span_stop is_digit ds); [|done|].
      + destruct rest' as [|x rest']; [done|].
        destruct (Ascii.eqb_spec x ".") as [->|Hne]; [done|].
        by ascii_cases x.
      + apply stops_not; [|done]. intros x Hx. by apply space_not_start.
    - destruct (Ascii.eqb_spec d ".") as [->|Hne].
      + destruct (span is_digit rest1) as [fs rest3] eqn:Hfs.
        apply span_spec in Hfs as (-> & Hallf & Hrf).
        intros [= <- <- <-]. split.
        { cbn [app]. by rewrite <- !app_assoc. }
        split; [done|]. split; [by repeat split|].
        split; [done|]. split; [|intros rest' Hstop; by apply Hfrac].
        cbn [snd]. rewrite app_comm_cons. apply Forall_app. split; [done|].
        apply Forall_cons. split; [done|].
        eapply Forall_impl; [exact Hallf|]. intros x Hx.
        by apply word_in_token, digit_word.
      + assert (Some (NUMBER, c :: ds, d :: rest1) = Some (k, v, rest) →
                k = NUMBER ∧ v = c :: ds ∧ rest = d :: rest1) as Hinj.
        { by intros [= <- <- <-]. }
        intros Hm.
        assert (k = NUMBER ∧ v = c :: ds ∧ rest = d :: rest1)
          as (-> & -> & ->).
        { apply Hinj. rewrite <- Hm. by ascii_cases d. }
        split; [done|]. split; [done|]. split; [by repeat split|].
        split; [done|]. split; [done|].
        intros rest' Hstop. cbn [app next_match fst snd]. rewrite Hdigit.
        rewrite (span_stop is_digit ds); [|done|].
        * destruct rest' as [|x rest']; [done|].
          destruct (Ascii.eqb_spec x ".") as [->|Hx]; [done|].
          by ascii_cases x.
        * apply stops_not; [|done]. intros x Hx. by apply space_not_start. }
  destruct (is_ident_start c) eqn:Hstart.
  { destruct (span is_word s) as [ws rest1] eqn:Hws.
    apply span_spec in Hws as (-> & Hall & Hr).
    intros [= <- <- <-]. split; [done|]. split; [done|].
    split; [by repeat split|]. split; [done|]. split.
    - apply Forall_cons. split; [by apply word_in_token, ident_start_word|].
      eapply Forall_impl; [exact Hall|]. intros x Hx. by apply word_in_token.
    - intros rest' Hstop. cbn [app next_match fst snd].
      rewrite Hdigit, Hstart. rewrite (span_stop is_word ws); [done|done|].
      apply stops_not; [|done]. intros x Hx. by apply space_not_start. }
  destruct (Ascii.eqb_spec c "=") as [->|Hassign].
  { intros [= <- <- <-]. split; [done|]. split; [done|].
    split; [by repeat split|]. split; [done|]. split; [|done].
    by apply Forall_singleton. }
  destruct (is_operator c) eqn:Hop.
  { intros [= <- <- <-]. split; [done|]. split; [done|].
    split; [by repeat split|]. split; [done|]. split.
    - apply Forall_singleton. unfold in_token. rewrite Hop.
      by rewrite !orb_true_r.
    - intros rest' Hstop. cbn [app next_match fst snd].
      rewrite Hdigit, Hstart, Hop.
      by destruct (Ascii.eqb_spec c "="). }
  destruct (Ascii.eqb_spec c "(") as [->|Hopen].
  { intros [= <- <- <-]. split; [done|]. split; [done|].
    split; [by repeat split|]. split; [done|]. split; [|done].
    by apply Forall_singleton. }
  destruct (Ascii.eqb_spec c ")") as [->|Hclose].
  { intros [= <- <- <-]. split; [done|]. split; [done|].
    split; [by repeat split|]. split; [done|]. split; [|done].
    by apply Forall_singleton. }
  destruct (is_blank c) eqn:Hblank.
  { destruct (span is_blank s) as [bs rest1] eqn:Hbs.
    apply span_spec in Hbs as (-> & Hall & Hr).
    intros [= <- <- <-]. split; [done|]. split; [done|].
    by apply Forall_cons. }
  destruct (Ascii.eqb_spec c "010") as [->|Hnl].
  { by intros [= <- <- <-]. }
  intros [= <- <- <-]. split; [done|]. split; [done|].
  exists c. split; [done|]. unfold lexable, is_space.
  rewrite Hdigit, Hstart, Hop, Hblank.
  apply Ascii.eqb_neq in Hassign, Hopen, Hclose, Hnl.
  by rewrite Hassign, Hopen, Hclose, Hnl.
Qed.

Lemma next_match_None s : next_match s = None → s = [].
Proof.
  destruct s as [|c s]; [done|]. unfold next_match.
  repeat (first [ destruct (span _ _) as [? ?] | case_match ]); done.
Qed.

Lemma strip_app s t : strip (s ++ t) = strip s ++ strip t.
Proof. apply filter_app. Qed.

Lemma strip_spaces v : Forall (λ c, is_space c = true) v → strip v = [].
Proof.
  induction 1 as [|c v Hc _ IH]; [done|]. unfold strip.
  rewrite filter_cons_False by congruence. exact IH.
Qed.

Lemma strip_token v : Forall (λ c, in_token c = true) v → strip v = v.
Proof.
  induction 1 as [|c v Hc _ IH]; [done|]. unfold strip.
  rewrite filter_cons_True by by apply in_token_not_space.
  f_equal. exact IH.
Qed.

Lemma lex_loop_mono fuel : ∀ fuel' s res,
  lex_loop fuel s = Some res → fuel ≤ fuel' → lex_loop fuel' s = Some res.
Proof.
  induction fuel as [|fuel IH]; intros fuel' s res Hrun Hle; [done|].
  destruct fuel' as [|fuel']; [lia|]. simpl in *.
  destruct (next_match s) as [[[k v] rest]|]; [|done].
  destruct k;
    try (destruct (lex_loop fuel rest) as [[toks e]|] eqn:Hrest; [|done];
         rewrite (IH fuel' rest _ Hrest) by lia; done);
    try (apply IH; [done|lia]); done.
Qed.

(** The run of the generator on [s], whatever the fuel above the length
    of [s]. *)
Lemma lex_loop_spec fuel : ∀ s, length s < fuel →
  ∃ toks e,
    lex_loop fuel s = Some (toks, e)
    ∧ Forall token_ok toks
    ∧ match e with
      | Exhausted =>
          mjoin (snd <$> toks) = strip s
          ∧ Forall (λ c, is_space c = true ∨ in_token c = true) s
      | RuntimeError v =>
          ∃ c pre post, v = [c] ∧ s = pre ++ c :: post
            ∧ lexable c = false ∧ mjoin (snd <$> toks) = strip pre
      end.
Proof.
  induction fuel as [|fuel IH]; intros s Hlen; [lia|]. simpl.
  destruct (next_match s) as [[[k v] rest]|] eqn:Hm.
  2: { apply next_match_None in Hm as ->. exists [], Exhausted.
       split; [done|]. split; [apply Forall_nil_2|]. split; [done|].
       apply Forall_nil_2. }
  apply next_match_inv in Hm as (-> & Hv & Hk).
  assert (length rest < fuel) as Hrest.
  { rewrite length_app in Hlen. destruct v; [done|]. simpl in Hlen. lia. }
  destruct (IH rest Hrest) as (toks & e & Hrun & Hok & He).
  assert (Forall (λ c, is_space c = true) v →
          ∃ toks e,
            lex_loop fuel rest = Some (toks, e)
            ∧ Forall token_ok toks
            ∧ match e with
              | Exhausted =>
                  mjoin (snd <$> toks) = strip (v ++ rest)
                  ∧ Forall (λ c, is_space c = true ∨ in_token c = true)
                      (v ++ rest)
              | RuntimeError v' =>
                  ∃ c pre post, v' = [c] ∧ v ++ rest = pre ++ c :: post
                    ∧ lexable c = false ∧ mjoin (snd <$> toks) = strip pre
              end) as Hskip.
  { intros Hsp. exists toks, e. split; [done|]. split; [done|].
    destruct e as [|v'].
    - destruct He as [Hjoin Hall]. split.
      + by rewrite strip_app, (strip_spaces v Hsp).
      + apply Forall_app. split; [|done].
        eapply Forall_impl; [exact Hsp|]. intros x Hx. by left.
    - destruct He as (c & pre & post & -> & -> & Hc & Hjoin).
      exists c, (v ++ pre), post. split; [done|].
      split; [by rewrite app_assoc|]. split; [done|].
      by rewrite strip_app, (strip_spaces v Hsp). }
  assert (token_ok (k, v) →
          ∃ toks' e',
            Some ((k, v) :: toks, e) = Some (toks', e')
            ∧ Forall token_ok toks'
            ∧ match e' with
              | Exhausted =>
                  mjoin (snd <$> toks') = strip (v ++ rest)
                  ∧ Forall (λ c, is_space c = true ∨ in_token c = true)
                      (v ++ rest)
              | RuntimeError v' =>
                  ∃ c pre post, v' = [c] ∧ v ++ rest = pre ++ c :: post
                    ∧ lexable c = false ∧ mjoin (snd <$> toks') = strip pre
              end) as Htoken.
  { intros Htok. exists ((k, v) :: toks), e. split; [done|].
    split; [by apply Forall_cons|].
    pose proof Htok as (_ & _ & Hin & _). simpl in Hin.
    destruct e as [|v'].
    - destruct He as [Hjoin Hall]. split.
      + change (mjoin (snd <$> (k, v) :: toks))
          with (v ++ mjoin (snd <$> toks)).
        by rewrite strip_app, (strip_token v Hin), Hjoin.
      + apply Forall_app. split; [|done].
        eapply Forall_impl; [exact Hin|]. intros x Hx. by right.
    - destruct He as (c & pre & post & -> & -> & Hc & Hjoin).
      exists c, (v ++ pre), post. split; [done|].
      split; [by rewrite app_assoc|]. split; [done|].
      change (mjoin (snd <$> (k, v) :: toks))
        with (v ++ mjoin (snd <$> toks)).
      by rewrite strip_app, (strip_token v Hin), Hjoin. }
  destruct k; try (rewrite Hrun; by apply Htoken).
  { apply Hskip. eapply Forall_impl; [exact Hk|].
    intros x Hx. by apply blank_space. }
  { apply Hskip. rewrite Hk. by apply Forall_singleton. }
  destruct Hk as (c & -> & Hc).
  exists [], (RuntimeError [c]). split; [done|]. split; [apply Forall_nil_2|].
  exists c, [], rest. done.
Qed.

Lemma lex_spec s :
  ∃ toks e,
    (∀ fuel, length s < fuel → lex_loop fuel s = Some (toks, e))
    ∧ Forall token_ok toks
    ∧ match e with
      | Exhausted =>
          mjoin (snd <$> toks) = strip s
          ∧ Forall (λ c, is_space c = true ∨ in_token c = true) s
      | RuntimeError v =>
          ∃ c pre post, v = [c] ∧ s = pre ++ c :: post
            ∧ lexable c = false ∧ mjoin (snd <$> toks) = strip pre
      end.
Proof.
  destruct (lex_loop_spec (S (length s)) s ltac:(lia))
    as (toks & e & Hrun & Hok & He).
  exists toks, e. split; [|done].
  intros fuel Hfuel. eapply lex_loop_mono; [done|lia].
Qed.

(** X16: [lex] terminates on every input; it yields no [SKIP],
    [NEWLINE] or [MISMATCH] token and no empty text, and the texts of the
    tokens, put end to end, are the input without its spaces, tabs and
    newlines - up to the first character that no token can start with,
    which is the one the [RuntimeError] reports. *)
Theorem lex_covers_input (s : list ascii) :
  ∃ toks e,
    (∀ fuel, length s < fuel → lex_loop fuel s = Some (toks, e))
    ∧ lex s = Some (toks, e)
    ∧ Forall (λ t : token, yielded t.1 ∧ t.2 ≠ []) toks
    ∧ match e with
      | Exhausted => mjoin (snd <$> toks) = strip s
      | RuntimeError v =>
          ∃ c pre post, v = [c] ∧ s = pre ++ c :: post
            ∧ lexable c = false ∧ mjoin (snd <$> toks) = strip pre
      end.
Proof.
  destruct (lex_spec s) as (toks & e & Hrun & Hok & He).
  exists toks, e. split; [done|]. split; [apply Hrun; lia|]. split.
  - eapply Forall_impl; [exact Hok|]. by intros t (? & ? & _).
  - destruct e; [by destruct He|done].
Qed.

(** X17: when [lex] raises.  It never does on an input made of digits,
    ASCII letters, [_], [=], [+ - * /], parentheses, spaces, tabs and
    newlines; it always does on an input with a character that is
    neither of these nor a word character nor a dot. *)
Theorem lex_raises (s : list ascii) :
  ∃ toks e,
    lex s = Some (toks, e)
    ∧ ((∀ c, c ∈ s → lexable c = true) → e = Exhausted)
    ∧ ((∃ c, c ∈ s ∧ lexable c = false ∧ is_word c = false ∧ c ≠ ".") →
       ∃ c, e = RuntimeError [c] ∧ c ∈ s ∧ lexable c = false).
Proof.
  destruct (lex_spec s) as (toks & e & Hrun & Hok & He).
  exists toks, e. split; [apply Hrun; lia|].
  destruct e as [|v].
  - split; [done|]. intros (c & Hc & Hlex & Hword & Hdot).
    destruct He as [_ Hall]. rewrite Forall_forall in Hall.
    destruct (Hall c Hc) as [Hsp|Htok]; exfalso.
    + unfold lexable in Hlex. rewrite Hsp in Hlex.
      by rewrite !orb_true_r in Hlex.
    + revert Hlex Hword Hdot Htok. clear.
      ascii_cases c; vm_compute; congruence.
  - destruct He as (c & pre & post & -> & -> & Hc & _). split.
    + intros Hall. rewrite Hall in Hc; [done|].
      apply elem_of_app. right. by left.
    + intros _. exists c. split; [done|]. split; [|done].
      apply elem_of_app. right. by left.
Qed.

Lemma unwords_cons v vs :
  unwords (v :: vs) = match vs with [] => v | _ => v ++ " " :: unwords vs end.
Proof. done. Qed.

Lemma lex_loop_unwords toks :
  Forall token_ok toks →
  ∀ fuel, length (unwords (snd <$> toks)) < fuel →
  lex_loop fuel (unwords (snd <$> toks)) = Some (toks, Exhausted).
Proof.
  induction 1 as [|[k v] toks Ht Hok IH]; intros fuel Hfuel.
  - destruct fuel; [lia|]. done.
  - destruct Ht as (Hy & Hv & Hin & Hre). simpl in Hy, Hv, Hin, Hre.
    rewrite fmap_cons, unwords_cons in Hfuel |- *. cbn [snd] in *.
    destruct fuel as [|fuel]; [lia|].
    assert (∀ rest, stops rest →
              lex_loop fuel rest = Some (toks, Exhausted) →
              lex_loop (S fuel) (v ++ rest)
              = Some ((k, v) :: toks, Exhausted)) as Hstep.
    { intros rest Hstop Hrest. simpl. rewrite (Hre rest Hstop), Hrest.
      destruct Hy as (? & ? & ?). by destruct k. }
    destruct toks as [|[k2 v2] toks].
    + cbn [fmap list_fmap] in Hfuel |- *.
      specialize (Hstep [] I). rewrite app_nil_r in Hstep. apply Hstep.
      destruct fuel; [|done]. destruct v; [done|]. simpl in Hfuel. lia.
    + set (U := unwords (snd <$> (k2, v2) :: toks)) in *.
      assert (length (v ++ " " :: U) < S fuel) as Hlen by exact Hfuel.
      change (lex_loop (S fuel) (v ++ " " :: U)
              = Some ((k, v) :: (k2, v2) :: toks, Exhausted)).
      rewrite length_app in Hlen. simpl in Hlen.
      apply Hstep; [done|].
      destruct fuel as [|fuel]; [lia|].
      assert (match U with [] => True | c :: _ => is_blank c = false end)
        as HU.
      { apply Forall_cons in Hok as [(_ & Hv2 & Hin2 & _) _].
        simpl in Hv2, Hin2. subst U. rewrite fmap_cons, unwords_cons.
        cbn [snd]. destruct v2 as [|c v2]; [done|].
        apply Forall_cons in Hin2 as [Hc _].
        assert (is_blank c = false) as Hb.
        { revert Hc. clear. ascii_cases c; vm_compute; congruence. }
        by destruct (snd <$> toks). }
      simpl. pose proof (span_stop is_blank [] U (Forall_nil_2 _) HU) as Hsp.
      cbn [app] in Hsp. rewrite Hsp.
      apply IH. change (length U < fuel).
      destruct v; [done|]. cbn [length] in Hlen. lia.
Qed.

(** X18: lexing is stable under re-lexing.  The texts of the tokens
    that [lex] yields on an input it accepts, joined by single spaces,
    lex to the same tokens again. *)
Theorem lex_round_trip (s : list ascii) (toks : list token) :
  lex s = Some (toks, Exhausted) →
  lex (unwords (snd <$> toks)) = Some (toks, Exhausted).
Proof.
  intros Hlex. destruct (lex_spec s) as (toks' & e & Hrun & Hok & _).
  unfold lex in Hlex. rewrite Hrun in Hlex by lia. injection Hlex as -> ->.
  apply lex_loop_unwords; [done|]. lia.
Qed.

Lemma lex_round_trip_witness :
  lex (chars "x=3.14  +42")
  = Some ([(IDENTIFIER, chars "x"); (ASSIGN, chars "=");
           (NUMBER, chars "3.14"); (OPERATOR, chars "+");
           (NUMBER, chars "42")], Exhausted)
  ∧ lex (unwords [chars "x"; chars "="; chars "3.14"; chars "+"; chars "42"])
    = Some ([(IDENTIFIER, chars "x"); (ASSIGN, chars "=");
             (NUMBER, chars "3.14"); (OPERATOR, chars "+");
             (NUMBER, chars "42")], Exhausted).
Proof.
  split; [reflexivity|].
  exact (lex_round_trip (chars "x=3.14  +42") _ eq_refl).
Defined.

(** *** A space, a tab or a newline separates *)

Lemma lex_total s : ∃ res, ∀ fuel, length s < fuel → lex_loop fuel s = Some res.
Proof.
  destruct (lex_spec s) as (toks & e & Hrun & _). by exists (toks, e).
Qed.

(** [lex], one match at a time. *)
Lemma lex_unfold s :
  lex s = match next_match s with
          | None => Some ([], Exhausted)
          | Some (kind, value, rest) =>
              match kind with
              | SKIP | NEWLINE => lex rest
              | MISMATCH => Some ([], RuntimeError value)
              | _ =>
                  match lex rest with
                  | Some (tokens, e) => Some ((kind, value) :: tokens, e)
                  | None => None
                  end
              end
          end.
Proof.
  unfold lex at 1. cbn [lex_loop].
  destruct (next_match s) as [[[k v] rest]|] eqn:Hm; [|done].
  apply next_match_inv in Hm as (-> & Hv & _).
  assert (lex_loop (length (v ++ rest)) rest = lex rest) as ->; [|done].
  destruct (lex_total rest) as [res Hres]. unfold lex.
  rewrite !Hres; [done|lia|].
  rewrite length_app. destruct v; [done|]. simpl. lia.
Qed.

Lemma lex_nil : lex [] = Some ([], Exhausted).
Proof. done. Qed.

Lemma span_app p s xs r c t :
  span p s = (xs, r) → r ≠ [] ∨ p c = false →
  span p (s ++ c :: t) = (xs, r ++ c :: t).
Proof.
  revert xs r. induction s as [|a s IH]; intros xs r Hspan Hstop.
  - injection Hspan as <- <-. destruct Hstop as [|Hc]; [done|].
    simpl. by rewrite Hc.
  - simpl in *. destruct (p a).
    + destruct (span p s) as [xs' r'] eqn:Hs. injection Hspan as <- <-.
      by rewrite (IH xs' r' eq_refl Hstop).
    + by injection Hspan as <- <-.
Qed.

Lemma span_all p xs s :
  Forall (λ c, p c = true) xs →
  span p (xs ++ s) = (xs ++ (span p s).1, (span p s).2).
Proof.
  induction 1 as [|c xs Hc _ IH]; simpl.
  - by destruct (span p s).
  - rewrite Hc, IH. done.
Qed.

(** A match is not changed by what comes after a space, a tab or a
    newline - unless it is a run of blanks that the input goes on. *)
Lemma next_match_app s k v rest c t :
  next_match s = Some (k, v, rest) → is_space c = true →
  k ≠ SKIP ∨ rest ≠ [] ∨ c = "010" →
  next_match (s ++ c :: t) = Some (k, v, rest ++ c :: t).
Proof.
  intros Hm Hc Hk. destruct s as [|c0 s]; [done|].
  assert (is_digit c = false ∧ is_word c = false ∧ c ≠ ".")
    as (Hcd & Hcw & Hcdot) by by apply space_not_start.
  revert Hm. unfold next_match. cbn [app].
  destruct (is_digit c0).
  { destruct (span is_digit s) as [ds rest1] eqn:Hds.
    rewrite (span_app _ _ _ _ c t Hds (or_intror Hcd)).
    destruct rest1 as [|d rest1].
    - intros [= <- <- <-]. cbn [app].
      apply is_space_cases in Hc as [->| [->| ->]]; done.
    - cbn [app].
      destruct (Ascii.eqb_spec d ".") as [->|Hd].
      + destruct (span is_digit rest1) as [fs rest3] eqn:Hfs.
        rewrite (span_app _ _ _ _ c t Hfs (or_intror Hcd)).
        by intros [= <- <- <-].
      + revert Hd. clear.
        ascii_cases d; intros Hd; try done; by intros [= <- <- <-]. }
  destruct (is_ident_start c0).
  { destruct (span is_word s) as [ws rest1] eqn:Hws.
    rewrite (span_app _ _ _ _ c t Hws (or_intror Hcw)).
    by intros [= <- <- <-]. }
  destruct (c0 =? "="); [by intros [= <- <- <-]|].
  destruct (is_operator c0); [by intros [= <- <- <-]|].
  destruct (c0 =? "("); [by intros [= <- <- <-]|].
  destruct (c0 =? ")"); [by intros [= <- <- <-]|].
  destruct (is_blank c0).
  { destruct (span is_blank s) as [bs rest1] eqn:Hbs.
    intros [= <- <- <-].
    rewrite (span_app _ _ _ _ c t Hbs); [done|].
    destruct Hk as [?|[?| ->]]; [done|by left|by right]. }
  destruct (c0 =? "010"); by intros [= <- <- <-].
Qed.

(** Blanks in front of the input change nothing. *)
Lemma lex_blanks bs s :
  Forall (λ c, is_blank c = true) bs → lex (bs ++ s) = lex s.
Proof.
  intros Hbs. destruct bs as [|b bs]; [done|].
  apply Forall_cons in Hbs as [Hb Hbs].
  assert (∀ s0, lex s0 = lex (span is_blank s0).2) as Hdrop.
  { intros [|a s0]; [done|]. simpl. destruct (is_blank a) eqn:Ha; [|done].
    destruct (span is_blank s0) as [xs r] eqn:Hs0.
    rewrite lex_unfold. unfold next_match.
    assert (is_digit a = false ∧ is_ident_start a = false
            ∧ (a =? "=") = false ∧ is_operator a = false
            ∧ (a =? "(") = false ∧ (a =? ")") = false)
      as (-> & -> & -> & -> & -> & ->).
    { revert Ha. clear. ascii_cases a; vm_compute; intros;
        repeat split; congruence. }
    by rewrite Ha, Hs0. }
  rewrite (Hdrop s), (Hdrop ((b :: bs) ++ s)).
  cbn [app span]. rewrite Hb, (span_all is_blank bs s Hbs).
  by destruct (span is_blank s).
Qed.

Lemma lex_newline s : lex ("010" :: s) = lex s.
Proof. by rewrite lex_unfold. Qed.

Lemma lex_space c s : is_space c = true → lex (c :: s) = lex s.
Proof.
  intros Hc. apply is_space_cases in Hc as [->| [->| ->]].
  - by apply (lex_blanks [" "]), Forall_singleton.
  - by apply (lex_blanks ["009"]), Forall_singleton.
  - apply lex_newline.
Qed.

Lemma lex_app_space n : ∀ s1 s2 c r1 r2,
  length s1 < n → is_space c = true →
  lex s1 = Some r1 → lex s2 = Some r2 →
  lex (s1 ++ c :: s2) = Some (lex_then r1 r2).
Proof.
  induction n as [|n IH]; intros s1 s2 c r1 r2 Hlen Hc H1 H2; [lia|].
  destruct (next_match s1) as [[[k v] rest]|] eqn:Hm.
  2: { apply next_match_None in Hm as ->. injection H1 as <-.
       cbn [app]. rewrite (lex_space c s2 Hc), H2. by destruct r2. }
  pose proof (next_match_inv _ _ _ _ Hm) as (-> & Hv & Hshape).
  assert (length rest < n) as Hrest.
  { rewrite length_app in Hlen. destruct v; [done|]. simpl in Hlen. lia. }
  rewrite lex_unfold, Hm in H1.
  destruct (decide (k = SKIP ∧ rest = [] ∧ c ≠ "010")) as [(-> & -> & Hnl)|Hk].
  { rewrite lex_nil in H1. injection H1 as <-.
    assert (is_blank c = true) as Hb.
    { apply is_space_cases in Hc as [->| [->| ->]]; done. }
    rewrite app_nil_r.
    rewrite (lex_blanks v (c :: s2) Hshape), (lex_space c s2 Hc), H2.
    by destruct r2. }
  assert (next_match ((v ++ rest) ++ c :: s2)
          = Some (k, v, rest ++ c :: s2)) as Hm'.
  { apply next_match_app; [done|done|].
    destruct (decide (k = SKIP)) as [->|]; [|by left].
    destruct rest; [|by right; left].
    destruct (decide (c = "010")) as [->|]; [by right; right|].
    by destruct Hk. }
  rewrite lex_unfold, Hm'.
  destruct (lex_total rest) as [res Hres].
  assert (lex rest = Some res) as Hlr by (apply Hres; lia).
  pose proof (IH rest s2 c res r2 Hrest Hc Hlr H2) as Hrec.
  rewrite Hlr in H1. rewrite Hrec.
  destruct k; try (injection H1 as <-; done);
    destruct res as [toks e]; injection H1 as <-;
    unfold lex_then; simpl; by destruct e.
Qed.

(** X19: a space, a tab or a newline separates.  The tokens of
    [s1 + c + s2] are the tokens of [s1] followed by the tokens of [s2],
    and the error that of the first of the two that raises. *)
Theorem lex_separator (s1 s2 : list ascii) (c : ascii) :
  is_space c = true →
  ∃ r1 r2,
    lex s1 = Some r1 ∧ lex s2 = Some r2
    ∧ lex (s1 ++ c :: s2) = Some (lex_then r1 r2).
Proof.
  intros Hc.
  destruct (lex_total s1) as [r1 H1]. destruct (lex_total s2) as [r2 H2].
  exists r1, r2.
  assert (lex s1 = Some r1) as Hl1 by (apply H1; lia).
  assert (lex s2 = Some r2) as Hl2 by (apply H2; lia).
  split; [done|]. split; [done|].
  apply (lex_app_space (S (length s1))); [lia|done..].
Qed.

Lemma lex_separator_witness :
  is_space "010" = true
  ∧ ∃ r1 r2,
      lex (chars "x = 3.14") = Some r1 ∧ lex (chars "y = x * (2 + x)") = Some r2
      ∧ lex (chars "x = 3.14" ++ "010" :: chars "y = x * (2 + x)")
        = Some (lex_then r1 r2).
Proof.
  split; [reflexivity|].
  exact (lex_separator (chars "x = 3.14") (chars "y = x * (2 + x)") "010"
           eq_refl).
Defined.
